(** * slack-poll: the databaseless poll of [src/Poll.ts]

    A poll lives entirely in the blocks of one Slack message.  This file
    embeds the class [Poll] of [src/Poll.ts] (constructor, [slashCreate],
    [vote], [resetVote], [lockPoll], [unlockpoll], result generation),
    the request handlers of [src/Actions.ts] and the modal of
    [src/PollModal.ts] as pure functions over a small model of the Slack
    block types and of the JavaScript primitives the code relies on, and
    then states and proves the properties of the protocol.

    JavaScript strings are modelled as [string] (the UTF-8 bytes of the
    text); arrays as [list]; array positions and the results of [indexOf]
    as [Z], since the code computes with [-1]; a [TypeError] raised by a
    property access on [undefined] as [None]. *)

From Stdlib Require Import Ascii String DecimalString DecimalNat.
From stdpp Require Import base tactics option list numbers strings.

#[local] Set Warnings "-clear-no-such-hyp".

Local Open Scope string_scope.
Local Open Scope list_scope.
Local Open Scope Z_scope.

(** ** JavaScript primitives *)

Module JS.

(** [s.startsWith(needle)] *)
Fixpoint starts_with (needle s : string) : bool :=
  match needle, s with
  | EmptyString, _ => true
  | String a needle', String b s' => Ascii.eqb a b && starts_with needle' s'
  | String _ _, EmptyString => false
  end.

(** [s.includes(needle)] *)
Fixpoint includes (needle s : string) : bool :=
  starts_with needle s ||
  match s with
  | EmptyString => false
  | String _ rest => includes needle rest
  end.

(** [s.split(sep)] for a separator of one character (the code only
    splits on [" "] and [","]).  The result is never empty. *)
Fixpoint split (sep : ascii) (s : string) : list string :=
  match s with
  | EmptyString => [EmptyString]
  | String c rest =>
      if Ascii.eqb c sep then EmptyString :: split sep rest
      else match split sep rest with
           | [] => [String c EmptyString]
           | w :: ws => String c w :: ws
           end
  end.

(** [a.join(sep)] *)
Fixpoint join (sep : string) (a : list string) : string :=
  match a with
  | [] => EmptyString
  | [x] => x
  | x :: rest => x +:+ sep +:+ join sep rest
  end.

(** [a.indexOf(x)], [-1] when [x] does not occur. *)
Fixpoint indexOf (x : string) (a : list string) : Z :=
  match a with
  | [] => -1
  | y :: rest =>
      if String.eqb y x then 0
      else let i := indexOf x rest in if i =? -1 then -1 else i + 1
  end.

(** [a.splice(i, 1)] for [0 <= i] (the code guards every call). *)
Definition splice1 (i : Z) (a : list string) : list string :=
  delete (Z.to_nat i) a.

(** [a.slice(start, stop)]: negative positions count from the end. *)
Definition clamp (len k : Z) : Z :=
  if k <? 0 then Z.max (len + k) 0 else Z.min k len.

Definition slice {A} (start stop : Z) (a : list A) : list A :=
  let len := Z.of_nat (length a) in
  let s := clamp len start in
  let e := clamp len stop in
  take (Z.to_nat (e - s)) (drop (Z.to_nat s) a).

Definition slice_from {A} (start : Z) (a : list A) : list A :=
  drop (Z.to_nat (clamp (Z.of_nat (length a)) start)) a.

(** [a[i]] *)
Definition at_ {A} (a : list A) (i : Z) : option A :=
  if i <? 0 then None else a !! Z.to_nat i.

(** [s.toLowerCase()].  Only the letters A-Z are mapped; bytes of
    non-ASCII characters are kept.  The code only compares the result
    with ["multiple"] and ["anon"], and no non-ASCII character has a
    lower-case form that is one of the letters of these two words, so
    the comparison agrees with the Unicode-aware original. *)
Definition lower_ascii (c : ascii) : ascii :=
  let n := nat_of_ascii c in
  if ((65 <=? n) && (n <=? 90))%nat then ascii_of_nat (n + 32) else c.

Fixpoint toLowerCase (s : string) : string :=
  match s with
  | EmptyString => EmptyString
  | String c rest => String (lower_ascii c) (toLowerCase rest)
  end.

Fixpoint drop_chars (n : nat) (s : string) : string :=
  match n, s with
  | O, _ => s
  | S _, EmptyString => EmptyString
  | S m, String _ rest => drop_chars m rest
  end.

(** [s.replace(pat, rep)] with a string pattern: only the first
    occurrence is replaced.  None of the replacement texts of the code
    contains a [$] pattern. *)
Fixpoint replace (pat rep s : string) : string :=
  if starts_with pat s then rep +:+ drop_chars (String.length pat) s
  else match s with
       | EmptyString => EmptyString
       | String c rest => String c (replace pat rep rest)
       end.

(** Number to string, as in a template literal. *)
Definition of_nat (n : nat) : string :=
  NilZero.string_of_uint (Nat.to_uint n).

(** *** Plain objects used as dictionaries

    [votes: any = {}] in [generateResults] is a plain object.  Own
    properties are kept in creation order.  [for (key in o)] visits the
    keys that are array indices first, in ascending numeric order, and
    then the other keys in creation order.  Assigning a string to the
    key [__proto__] invokes the setter inherited from
    [Object.prototype], which ignores values that are not objects: no
    property is created. *)

Definition obj := list (string * string).

Fixpoint obj_put (k v : string) (o : obj) : obj :=
  match o with
  | [] => [(k, v)]
  | (k', v') :: rest =>
      if String.eqb k' k then (k', v) :: rest
      else (k', v') :: obj_put k v rest
  end.

Definition obj_set (k v : string) (o : obj) : obj :=
  if String.eqb k "__proto__" then o else obj_put k v o.

Fixpoint obj_get (k : string) (o : obj) : option string :=
  match o with
  | [] => None
  | (k', v) :: rest => if String.eqb k' k then Some v else obj_get k rest
  end.

Definition is_digit (c : ascii) : bool :=
  let n := nat_of_ascii c in ((48 <=? n) && (n <=? 57))%nat.

Fixpoint digits_value (acc : N) (s : string) : option N :=
  match s with
  | EmptyString => Some acc
  | String c rest =>
      if is_digit c
      then digits_value (10 * acc + (N_of_ascii c - 48))%N rest
      else None
  end.

(** A key is an array index when it is the canonical decimal form of an
    integer below [2^32 - 1]. *)
Definition array_index (k : string) : option N :=
  match k with
  | EmptyString => None
  | String c rest =>
      if Ascii.eqb c "0"
      then (if String.eqb rest "" then Some 0%N else None)
      else match digits_value 0 k with
           | Some n => if (n <? 4294967295)%N then Some n else None
           | None => None
           end
  end.

Fixpoint insert_index (x : N * string) (l : list (N * string))
  : list (N * string) :=
  match l with
  | [] => [x]
  | y :: rest =>
      if (x.1 <=? y.1)%N then x :: l else y :: insert_index x rest
  end.

Definition index_keys (ks : list string) : list (N * string) :=
  foldr insert_index []
        (omap (fun k => (fun n => (n, k)) <$> array_index k) ks).

Definition other_keys (ks : list string) : list string :=
  filter (fun k => array_index k = None) ks.

(** The keys in the order [for ... in] visits them. *)
Definition obj_keys (o : obj) : list string :=
  (index_keys o.*1).*2 ++ other_keys o.*1.

End JS.

(** ** The Slack block types the poll uses ([@slack/types]) *)

(** [Button]: [text.text] is the option label, [value] the votes string.
    The code reads [button.value!]; every button of a poll carries one. *)
Record Button := mkButton { b_text : string; b_value : string }.

(** [Option] of a select menu: [text.text] and [value]. *)
Record SelectOption := mkOption { o_text : string; o_value : string }.

Inductive Element :=
| EButton (b : Button)
| EStaticSelect (placeholder : string) (options : list SelectOption).

(** [KnownBlock].  The text of a section is optional in [@slack/types];
    [ImageBlock] stands for the block kinds the poll never builds. *)
Inductive KnownBlock :=
| SectionBlock (text : option string)
| ContextBlock (elements : list string)
| ActionsBlock (elements : list Element)
| DividerBlock
| ImageBlock (image_url alt_text : string).

#[global] Instance Button_eq_dec : EqDecision Button.
Proof. solve_decision. Defined.

#[global] Instance SelectOption_eq_dec : EqDecision SelectOption.
Proof. solve_decision. Defined.

#[global] Instance Element_eq_dec : EqDecision Element.
Proof. solve_decision. Defined.

#[global] Instance KnownBlock_eq_dec : EqDecision KnownBlock.
Proof. solve_decision. Defined.

Definition block_type (b : KnownBlock) : string :=
  match b with
  | SectionBlock _ => "section"
  | ContextBlock _ => "context"
  | ActionsBlock _ => "actions"
  | DividerBlock => "divider"
  | ImageBlock _ _ => "image"
  end.

Definition element_type (e : Element) : string :=
  match e with
  | EButton _ => "button"
  | EStaticSelect _ _ => "static_select"
  end.

(** [(b as SectionBlock).text.text]: [None] models the [TypeError] of
    reading [.text] of [undefined]. *)
Definition block_text (b : KnownBlock) : option string :=
  match b with
  | SectionBlock t => t
  | _ => None
  end.

(** ** PollHelpers *)

Module PollHelpers.

(** Modelled from the spec: [PollHelpers.appendIfMatching] is not part
    of the sources.  "marker suffixes are appended to it for each flag
    token present among token[0]/token[1]"; the comparison is the
    case-insensitive one [slashCreate] itself applies to token 0. *)
Definition appendIfMatching (optionArray : list string)
           (keyword appendText : string) : option string :=
  t0 ← optionArray !! 0%nat;
  t1 ← optionArray !! 1%nat;
  Some (if String.eqb (JS.toLowerCase t0) keyword
           || String.eqb (JS.toLowerCase t1) keyword
        then appendText else "").

(** Modelled from the spec: [PollHelpers.buildSectionBlock] is not part
    of the sources; a section whose markdown text is the argument. *)
Definition buildSectionBlock (mrkdwnValue : string) : KnownBlock :=
  SectionBlock (Some mrkdwnValue).

(** Modelled from the spec: [PollHelpers.buildContextBlock] is not part
    of the sources; a context block with one text element. *)
Definition buildContextBlock (mrkdwnValue : string) : KnownBlock :=
  ContextBlock [mrkdwnValue].

(** Modelled from the spec: [PollHelpers.buildSelectOption] is not part
    of the sources; a menu entry with its label and action code. *)
Definition buildSelectOption (text value : string) : SelectOption :=
  mkOption text value.

(** The label rewriting of the button loop. *)
Definition cleanLabel (s : string) : string :=
  JS.replace "&gt;" "less than "
    (JS.replace "&lt;" "greater than " (JS.replace "&amp;" "+" s)).

(** [actionBlocks[actionBlockCount].elements.push(button)]: the counter
    always designates the last block. *)
Definition push_last (blocks : list (list Element)) (e : Element)
  : list (list Element) :=
  match reverse blocks with
  | [] => []
  | last :: front => reverse front ++ [last ++ [e]]
  end.

(** Modelled from the spec: [PollHelpers.buildVoteOptions] is not part
    of the sources.  The loop is the one the earlier revision of
    [slashCreate] has inline: a new actions block is opened whenever
    the parameter index is a multiple of 5, and every label becomes a
    button whose votes string is the placeholder [" "]. *)
Fixpoint buildVoteOptions_loop (i : nat) (labels : list string)
         (blocks : list (list Element)) : list (list Element) :=
  match labels with
  | [] => blocks
  | l :: rest =>
      let blocks1 :=
        if (i mod 5 =? 0)%nat then blocks ++ [[]] else blocks in
      let button := EButton (mkButton (cleanLabel l) " ") in
      buildVoteOptions_loop (S i) rest (push_last blocks1 button)
  end.

Definition buildVoteOptions (parameters : list string) (start : nat)
  : list KnownBlock :=
  ActionsBlock <$> buildVoteOptions_loop start (drop start parameters) [[]].

End PollHelpers.

(** ** The class [Poll] *)

Record Poll := mkPoll {
  message : list KnownBlock;
  multiple : bool;
  anonymous : bool;
  isLocked : bool
}.

Definition with_message (p : Poll) (m : list KnownBlock) : Poll :=
  mkPoll m (multiple p) (anonymous p) (isLocked p).

Definition with_locked (p : Poll) (l : bool) : Poll :=
  mkPoll (message p) (multiple p) (anonymous p) l.

Definition getTitleFromMsg (msg : list KnownBlock) : option string :=
  msg !! 0%nat ≫= block_text.

Definition checkIfMsgContains (msg : list KnownBlock) (value : string)
  : option bool :=
  JS.includes value <$> getTitleFromMsg msg.

(** [getDividerId]: the position of the last divider, [-1] without one.
    The loop runs from the last block down; the recursion below visits
    the blocks front to back and lets a later divider win. *)
Fixpoint lastDivider (i : Z) (msg : list KnownBlock) : Z :=
  match msg with
  | [] => -1
  | b :: rest =>
      let r := lastDivider (i + 1) rest in
      if r =? -1
      then (if String.eqb (block_type b) "divider" then i else -1)
      else r
  end.

Definition getDividerId (msg : list KnownBlock) : Z := lastDivider 0 msg.

(** [constructor(message)] *)
Definition Poll_new (msg : list KnownBlock) : option Poll :=
  m ← checkIfMsgContains msg "(Multiple Answers)";
  a ← checkIfMsgContains msg "(Anonymous)";
  if Z.of_nat (length msg) - 1 =? getDividerId msg
  then Some (mkPoll msg m a false)
  else
    t ← JS.at_ msg (getDividerId msg + 1) ≫= block_text;
    Some (mkPoll msg m a (String.eqb t ":lock:")).

Definition getBlocks (p : Poll) : list KnownBlock := message p.

Definition getLockedStatus (p : Poll) : bool := isLocked p.

(** [getAuthor] *)
Definition getAuthor (p : Poll) : option string :=
  match message p !! 1%nat with
  | Some (ContextBlock (t :: _)) => Some (JS.replace "Asked by: " "" t)
  | _ => None
  end.

Definition getVotesAndUserIndex (button : Button) (userId : string)
  : list string * Z :=
  let votes := JS.split "," (b_value button) in
  (votes, JS.indexOf userId votes).

(** *** [processButtons]

    The callback may change the button it is given, may update a state of
    the caller ([votes] in [generateResults]) and answers whether the
    scan of the current actions block is to be left ([break] leaves the
    inner loop only).

    Blocks are values here.  In the code they are objects that the
    callback changes in place, so the two agree as long as no block
    object stands at two positions of the message.  That is so for every
    message decoded from a request and for every poll in the layout of a
    poll message.  [unlockpoll] on a message without divider joins two
    overlapping slices and so puts one block object at two positions;
    the model does not follow the code from there on. *)
Section ProcessButtons.
Context {S : Type}.
Variable buttonCallback : Button → S → Button * S * bool.

Fixpoint scanElements (els : list Element) (s : S) : list Element * S :=
  match els with
  | [] => ([], s)
  | EButton b :: rest =>
      let '(b', s', stop) := buttonCallback b s in
      if stop then (EButton b' :: rest, s')
      else let '(rest', s'') := scanElements rest s' in
           (EButton b' :: rest', s'')
  | e :: rest =>
      let '(rest', s') := scanElements rest s in (e :: rest', s')
  end.

Definition scanBlock (blk : KnownBlock) (s : S) : KnownBlock * S :=
  match blk with
  | ActionsBlock els =>
      let '(els', s') := scanElements els s in (ActionsBlock els', s')
  | _ => (blk, s)
  end.

Fixpoint scanBlocks (blocks : list KnownBlock) (s : S)
  : list KnownBlock * S :=
  match blocks with
  | [] => ([], s)
  | blk :: rest =>
      let '(blk', s') := scanBlock blk s in
      let '(rest', s'') := scanBlocks rest s' in
      (blk' :: rest', s'')
  end.

(** [for (let i = 2; i < loopEnd; i++)]: the blocks at the positions
    [2 <= i < loopEnd] are scanned in order, the others are kept.  The
    code calls it with [loopEnd] at most the length of the message
    ([-1] when [getDividerId] found no divider). *)
Definition processButtons (loopEnd : Z) (msg : list KnownBlock) (s : S)
  : list KnownBlock * S :=
  let stop := Z.to_nat loopEnd in
  let '(scanned, s') := scanBlocks (drop 2 (take stop msg)) s in
  (take 2 msg ++ scanned ++ drop (stop `max` 2) msg, s').
End ProcessButtons.

(** *** Results *)

Definition buildVoteTally (anon overrideAnon : bool) (votes : JS.obj)
           (key : string) : option KnownBlock :=
  match JS.obj_get key votes with
  | None => None
  | Some value =>
      let users := drop 1 (JS.split "," value) in
      if (length users =? 0)%nat then None
      else
        let names :=
          if negb anon || overrideAnon
          then JS.join "," ((fun k => "<@" +:+ k +:+ ">") <$> users)
          else "~HIDDEN~" in
        Some (PollHelpers.buildSectionBlock
                ("*" +:+ JS.of_nat (length users) +:+ "* " +:+ key
                 +:+ " » " +:+ names))
  end.

Definition collectVotes (p : Poll) : JS.obj :=
  (processButtons
     (fun b votes => (b, JS.obj_set (b_text b) (b_value b) votes, false))
     (getDividerId (message p)) (message p) []).2.

Definition generateResults (overrideAnon : bool) (p : Poll)
  : list KnownBlock :=
  let votes := collectVotes p in
  let sections :=
    omap (buildVoteTally (anonymous p) overrideAnon votes)
         (JS.obj_keys votes) in
  (if isLocked p then [PollHelpers.buildSectionBlock ":lock:"] else [])
    ++ sections.

Definition generateVoteResults (p : Poll) : Poll :=
  let sectionBlocks := generateResults false p in
  with_message p
    (JS.slice 0 (getDividerId (message p) + 1) (message p) ++ sectionBlocks).

(** *** Voting *)

Definition vote_callback (multiple : bool) (buttonText userId : string)
           (button : Button) (s : unit) : Button * unit * bool :=
  let '(votes, userIdIndex) := getVotesAndUserIndex button userId in
  let votes' :=
    if negb multiple && (userIdIndex >? -1)
       && negb (String.eqb (b_text button) buttonText)
    then JS.splice1 userIdIndex votes
    else if String.eqb (b_text button) buttonText && (userIdIndex =? -1)
         then votes ++ [userId]
         else votes in
  (mkButton (b_text button) (JS.join "," votes'), s, false).

Definition vote (p : Poll) (buttonText userId : string) : Poll :=
  if isLocked p then p
  else
    let msg :=
      (processButtons (vote_callback (multiple p) buttonText userId)
         (Z.of_nat (length (message p))) (message p) tt).1 in
    generateVoteResults (with_message p msg).

Definition reset_callback (multiple : bool) (userId : string)
           (button : Button) (s : unit) : Button * unit * bool :=
  let '(votes, userIdIndex) := getVotesAndUserIndex button userId in
  if userIdIndex =? -1 then (button, s, false)
  else (mkButton (b_text button)
                 (JS.join "," (JS.splice1 userIdIndex votes)),
        s, negb multiple).

Definition resetVote (p : Poll) (userId : string) : Poll :=
  let msg :=
    (processButtons (reset_callback (multiple p) userId)
       (Z.of_nat (length (message p))) (message p) tt).1 in
  generateVoteResults (with_message p msg).

(** *** Locking *)

Definition getDynamicSelect (p : Poll) : list KnownBlock :=
  [ActionsBlock
     [EStaticSelect "Poll Options"
        [PollHelpers.buildSelectOption "Reset your vote" "reset";
         (if isLocked p
          then PollHelpers.buildSelectOption ":unlock: Unlock poll" "unlock"
          else PollHelpers.buildSelectOption ":lock: Lock poll" "lock");
         PollHelpers.buildSelectOption "Move to bottom" "bottom";
         PollHelpers.buildSelectOption "Delete poll" "delete"]]].

Definition lockPoll (p : Poll) : Poll :=
  let p1 := generateVoteResults (with_locked p true) in
  let d := getDividerId (message p1) in
  with_message p1
    (JS.slice 0 (d - 1) (message p1) ++ getDynamicSelect p1
       ++ JS.slice_from d (message p1)).

Definition unlockpoll (p : Poll) : Poll :=
  let p1 := with_locked p false in
  let d := getDividerId (message p1) in
  with_message p1
    (JS.slice 0 (d - 1) (message p1) ++ getDynamicSelect p1
       ++ [DividerBlock] ++ JS.slice_from (d + 2) (message p1)).

Definition collectResults (p : Poll) : option (list KnownBlock) :=
  title ← getTitleFromMsg (message p);
  Some (PollHelpers.buildSectionBlock
          (title +:+ " *RESULTS (Confidential: do not distribute)*")
          :: generateResults true p).

(** *** [slashCreate] *)

(** [undefined + s] in [mrkdwnValue += ...]: a missing second line is
    rendered as the text [undefined]. *)
Definition or_undefined (o : option string) : string :=
  default "undefined" o.

Definition slashCreate (author : string) (parameters : list string)
  : option Poll :=
  p0 ← parameters !! 0%nat;
  let optionArray := JS.split " " p0 in
  let optionArray :=
    if (length optionArray =? 1)%nat then optionArray ++ [" "]
    else optionArray in
  t0 ← optionArray !! 0%nat;
  mrkdwnValue ←
    (if String.eqb (JS.toLowerCase t0) "multiple"
        || String.eqb (JS.toLowerCase t0) "anon"
     then
       m ← PollHelpers.appendIfMatching optionArray "multiple"
             " *(Multiple Answers)* ";
       a ← PollHelpers.appendIfMatching optionArray "anon"
             " *(Anonymous)* ";
       Some (or_undefined (parameters !! 1%nat) +:+ m +:+ a)
     else Some p0);
  let titleBlock := PollHelpers.buildSectionBlock mrkdwnValue in
  let start := if String.eqb mrkdwnValue p0 then 1%nat else 2%nat in
  let actionBlocks := PollHelpers.buildVoteOptions parameters start in
  let selection :=
    EStaticSelect "Poll Options"
      [PollHelpers.buildSelectOption "Reset your vote" "reset";
       PollHelpers.buildSelectOption ":lock: Lock poll" "lock";
       PollHelpers.buildSelectOption "Move to bottom" "bottom";
       PollHelpers.buildSelectOption "Delete poll" "delete"] in
  Poll_new
    ([titleBlock; PollHelpers.buildContextBlock ("Asked by: " +:+ author)]
       ++ (actionBlocks ++ [ActionsBlock [selection]])
       ++ [DividerBlock]).

(** The entry points the request handlers of [Actions.ts] use: decode the
    blocks of the message, apply the command, hand the blocks back. *)
Definition createPoll (author : string) (commandLines : list string)
  : option (list KnownBlock) :=
  getBlocks <$> slashCreate author commandLines.

Definition applyVote (blocks : list KnownBlock) (optionLabel userId : string)
  : option (list KnownBlock) :=
  p ← Poll_new blocks; Some (getBlocks (vote p optionLabel userId)).

Definition applyReset (blocks : list KnownBlock) (userId : string)
  : option (list KnownBlock) :=
  p ← Poll_new blocks;
  Some (if getLockedStatus p then blocks else getBlocks (resetVote p userId)).


Definition applyUnlock (blocks : list KnownBlock)
  : option (list KnownBlock) :=
  p ← Poll_new blocks; Some (getBlocks (unlockpoll p)).


(** ** The request handlers of [Actions.ts]

    A handler receives the message of the payload, its text and its
    blocks, and the identifier of the user who clicked; what it hands to
    [res] is the message as it left it.  [None] stands for an exception
    that the [try] of the handler catches: nothing is handed back. *)

Record Message := mkMessage {
  m_text : string;
  m_blocks : option (list KnownBlock)
}.

(** [new Poll(payload.message.blocks)] *)
Definition decode (msg : Message) : option Poll :=
  blocks ← m_blocks msg; Poll_new blocks.

(** [isPollAuthor]: the mention of the user against [getAuthor]. *)
Definition isPollAuthor (userId : string) (p : Poll) : option bool :=
  String.eqb ("<@" +:+ userId +:+ ">") <$> getAuthor p.

Definition onButtonAction (label userId : string) (msg : Message)
  : option Message :=
  p ← decode msg;
  Some (mkMessage (m_text msg) (Some (getBlocks (vote p label userId)))).

Definition onResetSelected (userId : string) (msg : Message) (p : Poll)
  : option Message :=
  if getLockedStatus p then Some (mkMessage "Vote reset!" (m_blocks msg))
  else Some (mkMessage "Vote reset!" (Some (getBlocks (resetVote p userId)))).

(** [onBottomSelected] is asynchronous: text and blocks are set before
    the author is looked at, and an exception raised later does not reach
    the caller. *)
Definition onBottomSelected (userId : string) (msg : Message) (p : Poll)
  : option Message :=
  Some (mkMessage "Poll moved!" (Some (getBlocks p))).

Definition onLockSelected (userId : string) (msg : Message) (p : Poll)
  : option Message :=
  author ← isPollAuthor userId p;
  if author : bool then Some (mkMessage "Poll locked!" (Some (getBlocks (lockPoll p))))
  else Some (mkMessage "Poll locked!" (m_blocks msg)).

Definition onUnlockSelected (userId : string) (msg : Message) (p : Poll)
  : option Message :=
  author ← isPollAuthor userId p;
  if author : bool
  then Some (mkMessage "Poll unlocked!" (Some (getBlocks (unlockpoll p))))
  else Some (mkMessage "Poll unlocked!" (m_blocks msg)).

Definition onDeleteSelected (userId : string) (msg : Message) (p : Poll)
  : option Message :=
  author ← isPollAuthor userId p;
  if author : bool then Some (mkMessage "This poll has been deleted." None)
  else Some msg.

(** [onStaticSelectAction]: the dispatch on the action code of the
    selected menu entry; an unknown code leaves the message alone. *)
Definition onStaticSelectAction (value userId : string) (msg : Message)
  : option Message :=
  p ← decode msg;
  if String.eqb value "reset" then onResetSelected userId msg p
  else if String.eqb value "bottom" then onBottomSelected userId msg p
  else if String.eqb value "lock" then onLockSelected userId msg p
  else if String.eqb value "unlock" then onUnlockSelected userId msg p
  else if String.eqb value "delete" then onDeleteSelected userId msg p
  else Some msg.

(** [createPollRoute]: what becomes of a slash command.  [Unhandled]:
    the command is not the one of the poll.  [Posted blocks]:
    [postMessage] is called with the blocks of the new poll.  [Failed]:
    [slashCreate] raised an exception. *)
Inductive RouteResult :=
| Unhandled
| Posted (blocks : list KnownBlock)
| Failed.

Definition commandLines (text : string) : list string :=
  JS.split "010"
    (JS.replace "@here" ""
       (JS.replace "@everyone" "" (JS.replace "@channel" "" text))).

Definition createPollRoute (command user_id text : string) : RouteResult :=
  if negb (String.eqb command "/inorout") then Unhandled
  else match slashCreate ("<@" +:+ user_id +:+ ">") (commandLines text) with
       | Some p => Posted (getBlocks p)
       | None => Failed
       end.

(** ** Views of a poll used in the statements *)

(** A string without the given character. *)
Fixpoint has_char (c : ascii) (s : string) : bool :=
  match s with
  | EmptyString => false
  | String a rest => Ascii.eqb a c || has_char c rest
  end.

(** A user identifier that can be stored in a votes string. *)
Definition comma_free (u : string) : Prop := has_char "," u = false.


(** The entries of a votes string (placeholder first) and the voters. *)
Definition entries (b : Button) : list string := JS.split "," (b_value b).

Definition voters (b : Button) : list string := drop 1 (entries b).

Definition element_button (e : Element) : option Button :=
  match e with
  | EButton b => Some b
  | _ => None
  end.

Definition block_buttons (blk : KnownBlock) : list Button :=
  match blk with
  | ActionsBlock els => omap element_button els
  | _ => []
  end.

(** The blocks between the author context and the last divider, the
    option groups they hold, and the vote options in scan order: what
    [processButtons] visits when [generateResults] calls it. *)
Definition option_blocks (msg : list KnownBlock) : list KnownBlock :=
  drop 2 (take (Z.to_nat (getDividerId msg)) msg).

Definition option_groups (p : Poll) : list (list Button) :=
  block_buttons <$> option_blocks (message p).

Definition options (p : Poll) : list Button :=
  option_blocks (message p) ≫= block_buttons.

(** The blocks after the divider. *)
Definition result_section (msg : list KnownBlock) : list KnownBlock :=
  drop (Z.to_nat (getDividerId msg + 1)) msg.

(** The line of the result section for a label and its voters, as
    [buildVoteTally] writes it, and the line of an option ([None] for an
    option nobody voted for). *)
Definition mention (k : string) : string := "<@" +:+ k +:+ ">".

Definition names_of (anon reveal : bool) (users : list string) : string :=
  if negb anon || reveal then JS.join "," (mention <$> users) else "~HIDDEN~".

Definition result_text (anon reveal : bool) (label : string)
           (users : list string) : string :=
  "*" +:+ JS.of_nat (length users) +:+ "* " +:+ label +:+ " » "
      +:+ names_of anon reveal users.

Definition option_line (anon reveal : bool) (b : Button)
  : option KnownBlock :=
  match voters b with
  | [] => None
  | users => Some (SectionBlock (Some (result_text anon reveal (b_text b) users)))
  end.

Definition lock_line (p : Poll) : list KnownBlock :=
  if isLocked p then [SectionBlock (Some ":lock:")] else [].

(** Removing the first occurrence of an entry, and counting the
    occurrences of an entry. *)
Fixpoint remove_first (x : string) (l : list string) : list string :=
  match l with
  | [] => []
  | y :: rest => if String.eqb y x then rest else y :: remove_first x rest
  end.

Definition occurrences (x : string) (l : list string) : nat :=
  length (filter (fun y => y = x) l).

(** Rewriting the buttons of a block. *)
Definition map_element (f : Button → Button) (e : Element) : Element :=
  match e with
  | EButton b => EButton (f b)
  | _ => e
  end.

Definition map_block (f : Button → Button) (blk : KnownBlock) : KnownBlock :=
  match blk with
  | ActionsBlock els => ActionsBlock (map_element f <$> els)
  | _ => blk
  end.

(** A message, or a part of one, without divider. *)
Definition no_divider (msg : list KnownBlock) : Prop :=
  Forall (fun b => b ≠ DividerBlock) msg.

(** The assignment [votes[button.text.text] = button.value]. *)
Definition tally_put (o : JS.obj) (b : Button) : JS.obj :=
  JS.obj_set (b_text b) (b_value b) o.

(** What [vote] and [resetVote] do to one button and to one block. *)
Definition vote_button (multiple : bool) (l u : string) (b : Button) : Button :=
  (vote_callback multiple l u b tt).1.1.

Definition reset_block (multiple : bool) (u : string) (blk : KnownBlock)
  : KnownBlock :=
  (scanBlock (reset_callback multiple u) blk tt).1.

(** The button once the first occurrence of the user is taken out of its
    votes string. *)
Definition remove_vote (u : string) (b : Button) : Button :=
  mkButton (b_text b) (JS.join "," (remove_first u (entries b))).

(** The options of one group after a reset: every option of the group
    loses the user, or only the first one that holds it. *)
Definition reset_all (u : string) (g : list Button) : list Button :=
  (fun b => if decide (u ∈ entries b) then remove_vote u b else b) <$> g.

Fixpoint reset_first (u : string) (g : list Button) : list Button :=
  match g with
  | [] => []
  | b :: rest =>
      if decide (u ∈ entries b) then remove_vote u b :: rest
      else b :: reset_first u rest
  end.

Definition reset_group (multiple : bool) (u : string) (g : list Button)
  : list Button :=
  if multiple then reset_all u g else reset_first u g.

(** A message whose blocks from position 2 on are rewritten. *)
Definition rewrite_from2 (F : KnownBlock → KnownBlock)
           (msg : list KnownBlock) : list KnownBlock :=
  take 2 msg ++ (F <$> drop 2 msg).

(** The texts of the lines of the result section. *)
Definition result_texts (msg : list KnownBlock) : list string :=
  omap block_text (result_section msg).

(** The vote options of a block sequence. *)
Definition message_buttons (msg : list KnownBlock) : list Button :=
  option_blocks msg ≫= block_buttons.

(** The fixed layout of a poll message: title, author context, option
    groups, control menu, divider, result lines. *)
Definition layout (title author : string) (groups : list (list Element))
           (menu : Element) (results : list string) : list KnownBlock :=
  SectionBlock (Some title) :: ContextBlock [author]
    :: (ActionsBlock <$> groups)
    ++ ActionsBlock [menu] :: DividerBlock
    :: ((fun t => SectionBlock (Some t)) <$> results).

(** The shapes the specification asks of a block sequence. *)
Definition title_shaped (msg : list KnownBlock) : bool :=
  match msg !! 0%nat with
  | Some (SectionBlock (Some _)) => true
  | _ => false
  end.

Definition author_shaped (msg : list KnownBlock) : bool :=
  match msg !! 1%nat with
  | Some (ContextBlock (_ :: _)) => true
  | _ => false
  end.

Definition has_divider (msg : list KnownBlock) : bool :=
  negb (getDividerId msg =? -1).

(** Messages of small polls asked by [<@U1>], for given titles, option
    groups and result lines; the lunch scenario of the specification and
    a poll whose two options carry the same label. *)
Definition poll_select : Element :=
  EStaticSelect "Poll Options"
    [mkOption "Reset your vote" "reset";
     mkOption ":lock: Lock poll" "lock";
     mkOption "Move to bottom" "bottom";
     mkOption "Delete poll" "delete"].

Definition poll_menu : KnownBlock := ActionsBlock [poll_select].

Definition poll_blocks (title : string) (groups : list (list Button))
           (results : list string) : list KnownBlock :=
  layout title "Asked by: <@U1>"
         ((fun g : list Button => EButton <$> g) <$> groups)
         poll_select results.

Definition lunch_blocks (pizza tacos : string) (results : list string)
  : list KnownBlock :=
  poll_blocks "Lunch? *(Multiple Answers)* "
    [[mkButton "Pizza" pizza; mkButton "Tacos" tacos]] results.

Definition twin_blocks (first second : string) (results : list string)
  : list KnownBlock :=
  poll_blocks "Lunch?"
    [[mkButton "Pizza" first; mkButton "Pizza" second]] results.

Definition wide_blocks (first last : string) (results : list string)
  : list KnownBlock :=
  poll_blocks "Lunch?"
    [[mkButton "Pizza" first; mkButton "Salad" " "; mkButton "Soup" " ";
      mkButton "Tacos" " "];
     [mkButton "Pizza" last]] results.

Definition anon_lunch_blocks (pizza tacos : string) (results : list string)
  : list KnownBlock :=
  poll_blocks "Lunch? *(Anonymous)* "
    [[mkButton "Pizza" pizza; mkButton "Tacos" tacos]] results.

Definition mention_blocks (first : string) (results : list string)
  : list KnownBlock :=
  poll_blocks "Who brings lunch? *(Anonymous)* "
    [[mkButton "<@U2>" first; mkButton "<@U3>" " "]] results.

(** The shape of a line that hides the voters. *)
Definition hidden_line (blk : KnownBlock) : Prop :=
  ∃ n label,
    blk = SectionBlock
            (Some ("*" +:+ JS.of_nat n +:+ "* " +:+ label +:+ " » ~HIDDEN~")).

(** The polls the handlers of [Actions.ts] can produce: a poll starts
    with [slashCreate]; between two requests its blocks are decoded
    again; users, whose identifiers have no comma, vote and reset; the
    poll is locked and unlocked. *)
Inductive reachable : Poll → Prop :=
| reach_create author parameters p :
    slashCreate author parameters = Some p → reachable p
| reach_decode p p' :
    reachable p → Poll_new (getBlocks p) = Some p' → reachable p'
| reach_vote p l u :
    reachable p → comma_free u → reachable (vote p l u)
| reach_reset p u :
    reachable p → reachable (resetVote p u)
| reach_lock p :
    reachable p → reachable (lockPoll p)
| reach_unlock p :
    reachable p → reachable (unlockpoll p).

(** No votes string of the block, or of the message, holds an entry
    twice. *)
Definition tidy_block (blk : KnownBlock) : Prop :=
  Forall (fun b => NoDup (entries b)) (block_buttons blk).

Definition tidy (msg : list KnownBlock) : Prop := Forall tidy_block msg.

(** A group of buttons nobody has voted for yet. *)
Definition unvoted (g : list Element) : Prop :=
  Forall (fun e => ∃ l, e = EButton (mkButton l " ")) g.

(** Two options that agree on the label and on the number of voters. *)
Definition same_count (b b' : Button) : Prop :=
  b_text b = b_text b' ∧ length (voters b) = length (voters b').

(** Tally objects with the same keys and votes strings of the same
    length. *)
Definition obj_alike (o o' : JS.obj) : Prop :=
  Forall2 (fun e e' => e.1 = e'.1
                       ∧ length (JS.split "," e.2) = length (JS.split "," e'.2))
          o o'.

(** The tokens of line 0 as [slashCreate] looks at them, whether line 0
    is a line of flags, whether a flag is given on it, and the line that
    becomes the question text. *)
Definition flag_tokens (line0 : string) : list string :=
  let a := JS.split " " line0 in
  if (length a =? 1)%nat then a ++ [" "] else a.

Definition token_is (kw : string) (t : option string) : bool :=
  match t with
  | Some t => String.eqb (JS.toLowerCase t) kw
  | None => false
  end.

Definition flags_line (line0 : string) : bool :=
  token_is "multiple" (flag_tokens line0 !! 0%nat)
  || token_is "anon" (flag_tokens line0 !! 0%nat).

Definition flag_given (kw line0 : string) : bool :=
  flags_line line0
  && (token_is kw (flag_tokens line0 !! 0%nat)
      || token_is kw (flag_tokens line0 !! 1%nat)).

Definition question_text (line0 : string) (rest : list string) : string :=
  if flags_line line0 then or_undefined (rest !! 0%nat) else line0.

Definition marker (kw text line0 : string) : string :=
  if flag_given kw line0 then text else "".

Definition title_text (line0 : string) (rest : list string) : string :=
  question_text line0 rest
    +:+ (marker "multiple" " *(Multiple Answers)* " line0
           +:+ marker "anon" " *(Anonymous)* " line0).

(** A needle that cannot begin in front of [s] and end inside [s]. *)
Definition nostraddle (needle s : string) : bool :=
  forallb (fun k => negb (JS.starts_with (JS.drop_chars k needle) s))
          (seq 1 (String.length needle - 1)).

(** ** Views used in the further properties *)

(** The control menu of a poll, locked or not, as [getDynamicSelect]
    builds it. *)
Definition menu_of (locked : bool) : Element :=
  EStaticSelect "Poll Options"
    [mkOption "Reset your vote" "reset";
     (if locked then mkOption ":unlock: Unlock poll" "unlock"
      else mkOption ":lock: Lock poll" "lock");
     mkOption "Move to bottom" "bottom";
     mkOption "Delete poll" "delete"].

(** The groups of buttons as elements of actions blocks. *)
Definition button_elements (groups : list (list Button))
  : list (list Element) :=
  (fun g : list Button => EButton <$> g) <$> groups.

(** A poll in good shape: its message has the layout of a poll message
    for the given title, author line and groups of vote buttons, its menu offers to unlock exactly when the poll
    is locked, the lock line heads the result section exactly when the
    poll is locked, every other result line starts with the count, and
    the two flags are the ones the title tells. *)
Definition shaped (title author : string) (groups : list (list Button))
           (p : Poll) : Prop :=
  ∃ lines : list string,
    message p
    = layout title author (button_elements groups) (menu_of (isLocked p))
             ((if isLocked p then [":lock:"] else []) ++ lines)
    ∧ Forall (fun t => JS.starts_with "*" t = true) lines
    ∧ multiple p = JS.includes "(Multiple Answers)" title
    ∧ anonymous p = JS.includes "(Anonymous)" title.

(** The button that [slashCreate] makes of an option line. *)
Definition fresh_button (line : string) : Button :=
  mkButton (PollHelpers.cleanLabel line) " ".

(** The first option line of a command: line 1, or line 2 when the title
    block does not repeat line 0. *)
Definition first_option (line0 : string) (rest : list string) : nat :=
  if String.eqb (title_text line0 rest) line0 then 1%nat else 2%nat.

(** A user holds a vote on at most one option. *)
Definition one_vote (u : string) (opts : list Button) : Prop :=
  ∀ i j bi bj,
    opts !! i = Some bi → opts !! j = Some bj →
    u ∈ voters bi → u ∈ voters bj → i = j.

(** A single-choice poll asked by [<@U1>] with one vote, used as an
    example of a poll in good shape. *)
Definition sample_poll : Poll :=
  mkPoll (poll_blocks "Lunch?"
            [[mkButton "Pizza" " ,U2"; mkButton "Tacos" " "]]
            ["*1* Pizza » <@U2>"])
         false false false.

(** What [processButtons] may do to an element and to a block: a button
    is handed to the callback, everything else is kept. *)
Definition element_kept (e e' : Element) : Prop :=
  match e with
  | EButton _ => ∃ b', e' = EButton b'
  | _ => e' = e
  end.

Definition block_kept (blk blk' : KnownBlock) : Prop :=
  match blk with
  | ActionsBlock els => ∃ els', blk' = ActionsBlock els'
                                ∧ Forall2 element_kept els els'
  | _ => blk' = blk
  end.

(** A public result line and the confidential line for the same option:
    the same line, or the same count and label with the names in place
    of the redaction token. *)
Definition revealed (pub conf : KnownBlock) : Prop :=
  pub = conf
  ∨ ∃ n label names,
      pub = SectionBlock
              (Some ("*" +:+ JS.of_nat n +:+ "* " +:+ label +:+ " » ~HIDDEN~"))
      ∧ conf = SectionBlock
                 (Some ("*" +:+ JS.of_nat n +:+ "* " +:+ label +:+ " » "
                        +:+ names)).

(** ** The modal of [PollModal.ts] *)

Module PollModal.

(** [PollHelpers.buildInputElem(label, placeholder, action_id)] is not
    part of the sources: an input block is kept as the three texts it is
    built from. *)
Record InputBlock := buildInputElem {
  label : string;
  placeholder : string;
  action_id : string
}.

(** The options of the checkboxes: text, description and value. *)
Inductive ModalElement :=
| MButton (text action_id : string)
| MCheckboxes (action_id : string) (options : list (string * string * string)).

Inductive ModalBlock :=
| MInput (b : InputBlock)
| MActions (block_id : string) (elements : list ModalElement).

Record t := mk {
  num_options : nat;
  options : list InputBlock;
  channel_id : string
}.

Definition addOption (m : t) : t :=
  let optionString := "Option " +:+ JS.of_nat (length (options m) + 1) in
  let action_id := "option_" +:+ JS.of_nat (length (options m)) in
  mk (num_options m)
     (options m ++ [buildInputElem optionString optionString action_id])
     (channel_id m).

(** [constructor(channel_id)]: [addOption] is called [num_options]
    times. *)
Definition new (channel_id : string) : t :=
  Nat.iter 2 addOption (mk 2 [] channel_id).

Definition getChannelId (m : t) : string := channel_id m.

Definition constructModalCheckboxes : ModalElement :=
  MCheckboxes "modal_checkboxes"
    [("Anonymous?", "Makes poll responses anonymous", "anon");
     ("Multiple Responses?", "Allow users to select more than one option",
      "multiple")].

(** The blocks of the view that [constructModalView] returns. *)
Definition constructModalView (m : t) : list ModalBlock :=
  [MInput (buildInputElem "Poll Title" "Title" "title")]
    ++ (MInput <$> options m)
    ++ [MActions "modal_actions"
          [MButton "Add another option" "add_option";
           constructModalCheckboxes]].

(** The action identifiers of a view, in order. *)
Definition element_id (e : ModalElement) : string :=
  match e with
  | MButton _ a => a
  | MCheckboxes a _ => a
  end.

Definition block_ids (b : ModalBlock) : list string :=
  match b with
  | MInput i => [action_id i]
  | MActions _ els => element_id <$> els
  end.

(** The [i]-th option block. *)
Definition option_block (i : nat) : InputBlock :=
  buildInputElem ("Option " +:+ JS.of_nat (i + 1))
                 ("Option " +:+ JS.of_nat (i + 1))
                 ("option_" +:+ JS.of_nat i).

End PollModal.

(** Closed, decidable side conditions are settled by evaluation. *)
Ltac by_evaluation := apply (bool_decide_unpack _); vm_compute; exact I.

(** * Properties *)

(** ** Strings *)

Section Strings.
Implicit Types (s t w : string) (c : ascii) (l : list string).

Lemma append_assoc s t w : (s +:+ t) +:+ w = s +:+ (t +:+ w).
Proof.
  induction s as [|a s IH]; [done|].
  change (String a ((s +:+ t) +:+ w) = String a (s +:+ (t +:+ w))).
  by rewrite IH.
Qed.

Lemma append_nil_r s : s +:+ "" = s.
Proof.
  induction s as [|a s IH]; [done|].
  change (String a (s +:+ "") = String a s). by rewrite IH.
Qed.

Lemma split_not_nil c s : JS.split c s ≠ [].
Proof.
  destruct s as [|a s]; simpl; [done|].
  destruct (Ascii.eqb a c); [done|]. by destruct (JS.split c s).
Qed.

Lemma join_cons sep w l :
  l ≠ [] → JS.join sep (w :: l) = w +:+ sep +:+ JS.join sep l.
Proof. by destruct l. Qed.

Lemma join_split c s : JS.join (String c "") (JS.split c s) = s.
Proof.
  induction s as [|a s IH]; simpl; [done|].
  destruct (Ascii.eqb_spec a c) as [->|Hne].
  - rewrite join_cons by apply split_not_nil. simpl. by rewrite IH.
  - pose proof (split_not_nil c s) as Hnil.
    destruct (JS.split c s) as [|w ws]; [done|].
    destruct ws as [|w' ws]; simpl in *; [by rewrite IH|].
    by rewrite <- IH.
Qed.

Lemma split_char_free c s :
  Forall (fun w => has_char c w = false) (JS.split c s).
Proof.
  induction s as [|a s IH]; simpl; [by repeat constructor|].
  destruct (Ascii.eqb_spec a c) as [->|Hne]; [by constructor|].
  pose proof (split_not_nil c s) as Hnil.
  destruct (JS.split c s) as [|w ws]; [done|].
  inversion_clear IH as [|? ? Hw Hws]. constructor; [|done].
  simpl. rewrite Hw. by destruct (Ascii.eqb_spec a c).
Qed.

Lemma split_char_free_id c s :
  has_char c s = false → JS.split c s = [s].
Proof.
  induction s as [|a s IH]; simpl; [done|].
  destruct (Ascii.eqb a c); simpl; [done|]. intros H. by rewrite IH.
Qed.

Lemma split_app c s t :
  JS.split c (s +:+ String c t) = JS.split c s ++ JS.split c t.
Proof.
  induction s as [|a s IH]; simpl.
  - by rewrite Ascii.eqb_refl.
  - rewrite IH. destruct (Ascii.eqb a c); [done|].
    pose proof (split_not_nil c s) as Hnil.
    by destruct (JS.split c s).
Qed.

Lemma split_join c l :
  l ≠ [] → Forall (fun w => has_char c w = false) l →
  JS.split c (JS.join (String c "") l) = l.
Proof.
  induction l as [|w l IH]; [done|]. intros _ Hall.
  inversion_clear Hall as [|? ? Hw Hl].
  destruct l as [|w' l]; [by apply split_char_free_id|].
  rewrite join_cons by done.
  change (w +:+ String c "" +:+ ?r) with (w +:+ String c r).
  rewrite split_app, IH by done. by rewrite split_char_free_id.
Qed.

Lemma join_snoc c l u :
  l ≠ [] →
  JS.join (String c "") (l ++ [u])
  = JS.join (String c "") l +:+ String c u.
Proof.
  induction l as [|w l IH]; [done|]. intros _.
  destruct l as [|w' l]; [done|].
  rewrite <- app_comm_cons, !join_cons, IH by done.
  by rewrite !append_assoc.
Qed.

End Strings.

(** ** Scanning the buttons *)

Section Scan.
Context {S : Type}.
Variable cb : Button → S → Button * S * bool.

(** A callback that never asks to leave the block visits every button:
    the buttons are rewritten by [g] and the state is folded by [h]. *)
Section NoStop.
Variables (g : Button → Button) (h : S → Button → S).
Hypothesis cb_spec : ∀ b s, cb b s = (g b, h s b, false).

Lemma scanElements_nostop els s :
  scanElements cb els s
  = (map_element g <$> els, foldl h s (omap element_button els)).
Proof.
  revert s. induction els as [|e els IH]; intros s; simpl; [done|].
  destruct e as [b|ph os]; simpl.
  - by rewrite cb_spec, IH.
  - by rewrite IH.
Qed.

Lemma scanBlock_nostop blk s :
  scanBlock cb blk s = (map_block g blk, foldl h s (block_buttons blk)).
Proof.
  destruct blk; simpl; try done. by rewrite scanElements_nostop.
Qed.

Lemma scanBlocks_nostop blocks s :
  scanBlocks cb blocks s
  = (map_block g <$> blocks, foldl h s (blocks ≫= block_buttons)).
Proof.
  revert s. induction blocks as [|blk blocks IH]; intros s; [done|].
  cbn [scanBlocks]. rewrite scanBlock_nostop, IH.
  by rewrite fmap_cons, bind_cons, foldl_app.
Qed.
End NoStop.
End Scan.

(** With no state to thread, the blocks are rewritten one by one. *)
Lemma scanBlocks_unit (cb : Button → unit → Button * unit * bool) blocks :
  (scanBlocks cb blocks tt).1 = (fun blk => (scanBlock cb blk tt).1) <$> blocks.
Proof.
  induction blocks as [|blk blocks IH]; [done|].
  rewrite fmap_cons, <- IH. cbn [scanBlocks].
  destruct (scanBlock cb blk tt) as [blk' []].
  by destruct (scanBlocks cb blocks tt).
Qed.

Lemma processButtons_all {S} (cb : Button → S → Button * S * bool) msg s :
  processButtons cb (Z.of_nat (length msg)) msg s
  = (take 2 msg ++ (scanBlocks cb (drop 2 msg) s).1,
     (scanBlocks cb (drop 2 msg) s).2).
Proof.
  unfold processButtons. rewrite Nat2Z.id, firstn_all.
  destruct (scanBlocks cb (drop 2 msg) s) as [scanned s'].
  rewrite (drop_ge msg) by lia. by rewrite app_nil_r.
Qed.

(** ** The divider *)

Lemma block_type_divider b :
  String.eqb (block_type b) "divider" = true ↔ b = DividerBlock.
Proof. by destruct b. Qed.

Lemma lastDivider_none i msg : no_divider msg → lastDivider i msg = -1.
Proof.
  intros H. revert i. induction H as [|b msg Hb _ IH]; intros i; [done|].
  simpl. rewrite IH. simpl. by destruct b.
Qed.

Lemma lastDivider_at i pre post :
  0 ≤ i → no_divider post →
  lastDivider i (pre ++ DividerBlock :: post) = i + Z.of_nat (length pre).
Proof.
  intros Hi Hpost. revert i Hi.
  induction pre as [|b pre IH]; intros i Hi; simpl.
  - rewrite lastDivider_none by done. simpl. lia.
  - rewrite IH by lia.
    destruct (Z.eqb_spec (i + 1 + Z.of_nat (length pre)) (-1)); lia.
Qed.

Lemma getDividerId_none msg : no_divider msg → getDividerId msg = -1.
Proof. apply lastDivider_none. Qed.

Lemma getDividerId_at pre post :
  no_divider post →
  getDividerId (pre ++ DividerBlock :: post) = Z.of_nat (length pre).
Proof. intros. unfold getDividerId. rewrite lastDivider_at; [lia|lia|done]. Qed.

(** Every message either has no divider or splits at its last one. *)
Lemma divider_cases msg :
  no_divider msg ∨
  ∃ pre post, msg = pre ++ DividerBlock :: post ∧ no_divider post.
Proof.
  induction msg as [|b msg IH]; [left; constructor|].
  destruct IH as [Hno|(pre & post & -> & Hpost)].
  - destruct (decide (b = DividerBlock)) as [->|Hb].
    + right. by exists [], msg.
    + left. by constructor.
  - right. by exists (b :: pre), post.
Qed.

Lemma slice_prefix {A} (n : Z) (l : list A) :
  0 ≤ n → JS.slice 0 n l = take (Z.to_nat n) l.
Proof.
  intros Hn. unfold JS.slice, JS.clamp.
  destruct (Z.ltb_spec n 0) as [|_]; [lia|]. simpl.
  replace (0 `min` Z.of_nat (length l)) with 0 by lia.
  rewrite Z.sub_0_r. change (Z.to_nat 0) with 0%nat. rewrite drop_0.
  destruct (Z.min_spec n (Z.of_nat (length l))) as [[_ ->]|[Hle ->]]; [done|].
  rewrite Nat2Z.id, !take_ge; [done|lia|lia].
Qed.

Lemma option_blocks_at pre post :
  no_divider post →
  option_blocks (pre ++ DividerBlock :: post) = drop 2 pre.
Proof.
  intros H. unfold option_blocks. rewrite getDividerId_at, Nat2Z.id by done.
  by rewrite take_app_length.
Qed.

Lemma option_blocks_none msg : no_divider msg → option_blocks msg = [].
Proof.
  intros H. unfold option_blocks. by rewrite getDividerId_none.
Qed.

(** ** The tally object *)

Lemma collectVotes_options p : collectVotes p = foldl tally_put [] (options p).
Proof.
  unfold collectVotes, processButtons, options, option_blocks.
  by rewrite (scanBlocks_nostop _ id tally_put).
Qed.

Section Objects.
Implicit Types (o : JS.obj) (k v : string).

Lemma obj_put_keys_fresh k v o :
  k ∉ o.*1 → JS.obj_put k v o = o ++ [(k, v)].
Proof.
  induction o as [|[k' v'] o IH]; simpl; [done|].
  rewrite not_elem_of_cons. intros [Hne Hk].
  destruct (String.eqb_spec k' k); [congruence|]. by rewrite IH.
Qed.



Lemma obj_get_put k k' v o :
  JS.obj_get k (JS.obj_put k' v o)
  = if decide (k' = k) then Some v else JS.obj_get k o.
Proof.
  induction o as [|[k0 v0] o IH]; simpl.
  - destruct (String.eqb_spec k' k); by case_decide.
  - destruct (String.eqb_spec k0 k') as [->|Hne]; simpl.
    + destruct (String.eqb_spec k' k); by case_decide.
    + rewrite IH.
      destruct (String.eqb_spec k0 k) as [->|]; [|done].
      by case_decide.
Qed.

Lemma obj_get_keys k o : is_Some (JS.obj_get k o) ↔ k ∈ o.*1.
Proof.
  induction o as [|[k' v'] o IH]; simpl.
  - rewrite elem_of_nil. split; [by intros [? ?]|done].
  - rewrite elem_of_cons.
    destruct (String.eqb_spec k' k) as [->|Hne]; [by split; eauto|].
    rewrite IH. naive_solver.
Qed.




Lemma tally_put_get k o b :
  JS.obj_get k (tally_put o b)
  = if decide (b_text b = k ∧ k ≠ "__proto__")
    then Some (b_value b) else JS.obj_get k o.
Proof.
  unfold tally_put, JS.obj_set.
  destruct (String.eqb_spec (b_text b) "__proto__") as [Hp|Hp].
  - case_decide as H; [|done]. destruct H; congruence.
  - rewrite obj_get_put. repeat case_decide; naive_solver.
Qed.

(** Later options with another label leave the entry alone. *)
Lemma tally_get_other k bs o :
  Forall (fun b => b_text b ≠ k) bs →
  JS.obj_get k (foldl tally_put o bs) = JS.obj_get k o.
Proof.
  intros H. revert o. induction H as [|b bs Hb _ IH]; intros o; [done|].
  simpl. rewrite IH, tally_put_get. case_decide; naive_solver.
Qed.

(** The entry of a label is the votes string of the last option that
    carries it. *)
Lemma tally_get_last front b back o :
  b_text b ≠ "__proto__" →
  Forall (fun b' => b_text b' ≠ b_text b) back →
  JS.obj_get (b_text b) (foldl tally_put o (front ++ b :: back))
  = Some (b_value b).
Proof.
  intros Hp Hback. rewrite foldl_app. simpl.
  rewrite tally_get_other, tally_put_get by done. by rewrite decide_True.
Qed.

Lemma tally_get_proto bs :
  JS.obj_get "__proto__" (foldl tally_put [] bs) = None.
Proof.
  assert (∀ o, JS.obj_get "__proto__" o = None →
               JS.obj_get "__proto__" (foldl tally_put o bs) = None) as H.
  { induction bs as [|b bs IH]; intros o Ho; [done|].
    simpl. apply IH. rewrite tally_put_get. case_decide; naive_solver. }
  by apply H.
Qed.

(** With pairwise distinct labels the object lists the options in scan
    order. *)
Lemma tally_distinct bs o :
  NoDup ((b_text <$> bs) ++ o.*1) →
  Forall (fun b => b_text b ≠ "__proto__") bs →
  foldl tally_put o bs
  = o ++ ((fun b => (b_text b, b_value b)) <$> bs).
Proof.
  intros Hnd Hp. revert o Hnd.
  induction Hp as [|b bs Hb _ IH]; intros o Hnd; simpl.
  - by rewrite app_nil_r.
  - simpl in Hnd. apply NoDup_cons in Hnd as [Hnotin Hnd].
    rewrite not_elem_of_app in Hnotin. destruct Hnotin as [Hbs Ho].
    assert (tally_put o b = o ++ [(b_text b, b_value b)]) as ->.
    { unfold tally_put, JS.obj_set.
      destruct (String.eqb_spec (b_text b) "__proto__"); [done|].
      by apply obj_put_keys_fresh. }
    rewrite IH.
    + by rewrite <- app_assoc.
    + rewrite fmap_app. simpl.
      apply NoDup_app in Hnd as (H1 & H2 & H3).
      apply NoDup_app. repeat split; [done| |].
      * intros x Hx. rewrite elem_of_app, list_elem_of_singleton.
        intros [Hxo| ->]; [by eapply H2|done].
      * apply NoDup_app. repeat split; [done| |apply NoDup_singleton].
        by intros x Hx ->%list_elem_of_singleton.
Qed.

End Objects.

(** ** The order of the keys *)

Section Keys.
Implicit Types (ks : list string) (o : JS.obj).

Lemma insert_index_perm x l : JS.insert_index x l ≡ₚ x :: l.
Proof.
  induction l as [|y l IH]; simpl; [done|].
  destruct (x.1 <=? y.1)%N; [done|]. rewrite IH. apply Permutation_swap.
Qed.

Lemma keys_perm ks : (JS.index_keys ks).*2 ++ JS.other_keys ks ≡ₚ ks.
Proof.
  unfold JS.index_keys, JS.other_keys.
  induction ks as [|k ks IH]; [done|].
  destruct (JS.array_index k) as [n|] eqn:Hk.
  - rewrite filter_cons_False by (by rewrite Hk).
    cbn [omap list_omap]. rewrite Hk. cbn [fmap option_fmap option_map foldr].
    rewrite insert_index_perm. simpl. by rewrite IH.
  - rewrite filter_cons_True by done.
    cbn [omap list_omap]. rewrite Hk. cbn [fmap option_fmap option_map].
    rewrite <- Permutation_middle. by rewrite IH.
Qed.

Lemma obj_keys_perm o : JS.obj_keys o ≡ₚ o.*1.
Proof. apply keys_perm. Qed.

Lemma obj_keys_elem k o : k ∈ JS.obj_keys o ↔ k ∈ o.*1.
Proof. by rewrite obj_keys_perm. Qed.


Lemma obj_get_NoDup k v o :
  NoDup o.*1 → (k, v) ∈ o → JS.obj_get k o = Some v.
Proof.
  induction o as [|[k' v'] o IH]; simpl; [by rewrite elem_of_nil|].
  rewrite NoDup_cons, elem_of_cons. intros [Hk' Hnd] [Heq|Hin].
  - inversion Heq; subst. by rewrite String.eqb_refl.
  - destruct (String.eqb_spec k' k) as [->|]; [|by apply IH].
    destruct Hk'. apply list_elem_of_fmap. by exists (k, v).
Qed.
End Keys.

(** ** The result section *)

Lemma buildVoteTally_line anon reveal votes k v :
  JS.obj_get k votes = Some v →
  buildVoteTally anon reveal votes k = option_line anon reveal (mkButton k v).
Proof.
  intros Hget. unfold buildVoteTally, option_line, voters, entries.
  rewrite Hget. simpl. by destruct (drop 1 (JS.split "," v)).
Qed.

Lemma generateResults_unfold reveal p :
  generateResults reveal p
  = lock_line p
      ++ omap (buildVoteTally (anonymous p) reveal (collectVotes p))
              (JS.obj_keys (collectVotes p)).
Proof. done. Qed.

(** Every block of the result section is a section with a text. *)
Lemma generateResults_sections reveal p :
  Forall (fun b => ∃ t, b = SectionBlock (Some t)) (generateResults reveal p).
Proof.
  rewrite generateResults_unfold. apply Forall_app. split.
  - unfold lock_line. destruct (isLocked p); repeat constructor. by eexists.
  - apply Forall_forall. intros b [k [_ Hb]]%list_elem_of_omap.
    unfold buildVoteTally in Hb. destruct (JS.obj_get _ _); [|done].
    destruct (_ =? _)%nat; [done|]. inversion Hb. by eexists.
Qed.

Lemma generateResults_no_divider reveal p :
  no_divider (generateResults reveal p).
Proof.
  eapply Forall_impl; [apply generateResults_sections|].
  by intros b [t ->].
Qed.

(** The results only depend on the flags and on the options. *)
Lemma generateResults_ext reveal p q :
  anonymous p = anonymous q → isLocked p = isLocked q →
  options p = options q →
  generateResults reveal p = generateResults reveal q.
Proof.
  intros Ha Hl Ho. rewrite !generateResults_unfold, !collectVotes_options.
  unfold lock_line. by rewrite Ha, Hl, Ho.
Qed.

(** ** Votes strings *)

Section Entries.
Implicit Types (u x : string) (l : list string).

Lemma indexOf_range x l : -1 ≤ JS.indexOf x l < Z.of_nat (length l).
Proof.
  induction l as [|y l IH]; simpl; [lia|].
  destruct (String.eqb y x); [lia|].
  destruct (Z.eqb_spec (JS.indexOf x l) (-1)); lia.
Qed.

Lemma indexOf_none x l : JS.indexOf x l = -1 ↔ x ∉ l.
Proof.
  induction l as [|y l IH]; simpl;
    [by split; [intros _; apply not_elem_of_nil|]|].
  rewrite not_elem_of_cons. pose proof (indexOf_range x l).
  destruct (String.eqb_spec y x) as [->|Hne].
  - split; [lia|naive_solver].
  - destruct (Z.eqb_spec (JS.indexOf x l) (-1)) as [Heq|Hneq].
    + rewrite Heq in IH. naive_solver.
    + split; [lia|]. intros [_ Hx]. apply IH in Hx. lia.
Qed.

Lemma splice_indexOf x l :
  x ∈ l → JS.splice1 (JS.indexOf x l) l = remove_first x l.
Proof.
  unfold JS.splice1. induction l as [|y l IH]; [by rewrite elem_of_nil|].
  rewrite elem_of_cons. intros Hx. simpl.
  destruct (String.eqb_spec y x) as [->|Hne]; [done|].
  destruct Hx as [->|Hx]; [done|]. pose proof (indexOf_range x l).
  destruct (Z.eqb_spec (JS.indexOf x l) (-1)) as [Heq|Hneq].
  - apply indexOf_none in Heq. done.
  - replace (Z.to_nat (JS.indexOf x l + 1))
      with (Datatypes.S (Z.to_nat (JS.indexOf x l))) by lia.
    simpl. by rewrite IH.
Qed.

Lemma occurrences_cons x y l :
  occurrences x (y :: l)
  = ((if decide (y = x) then 1 else 0) + occurrences x l)%nat.
Proof.
  unfold occurrences. rewrite filter_cons. by case_decide.
Qed.

Lemma occurrences_app x l1 l2 :
  occurrences x (l1 ++ l2) = (occurrences x l1 + occurrences x l2)%nat.
Proof. unfold occurrences. by rewrite filter_app, length_app. Qed.

Lemma occurrences_zero x l : occurrences x l = 0%nat ↔ x ∉ l.
Proof.
  induction l as [|y l IH];
    [by split; [intros _; apply not_elem_of_nil|]|].
  rewrite occurrences_cons, not_elem_of_cons.
  case_decide; [|naive_solver lia]. subst. split; [lia|naive_solver].
Qed.

Lemma occurrences_remove_first x l :
  occurrences x (remove_first x l) = pred (occurrences x l).
Proof.
  induction l as [|y l IH]; [done|]. simpl. rewrite occurrences_cons.
  destruct (String.eqb_spec y x) as [->|Hne].
  - by rewrite decide_True.
  - rewrite occurrences_cons, decide_False, IH by done. done.
Qed.

Lemma remove_first_once x l :
  (occurrences x l ≤ 1)%nat → x ∉ remove_first x l.
Proof.
  intros H. apply occurrences_zero. rewrite occurrences_remove_first. lia.
Qed.

Lemma remove_first_other x y l :
  y ≠ x → y ∈ remove_first x l ↔ y ∈ l.
Proof.
  intros Hne. induction l as [|z l IH]; [done|]. simpl.
  destruct (String.eqb_spec z x) as [->|Hz].
  - rewrite elem_of_cons. naive_solver.
  - rewrite !elem_of_cons, IH. done.
Qed.

Lemma occurrences_drop x n l : (occurrences x (drop n l) ≤ occurrences x l)%nat.
Proof.
  rewrite <- (take_drop n l) at 2. rewrite occurrences_app. lia.
Qed.

Lemma remove_first_char_free c x l :
  Forall (fun w => has_char c w = false) l →
  Forall (fun w => has_char c w = false) (remove_first x l).
Proof.
  induction 1 as [|y l Hy Hl IH]; simpl; [done|].
  destruct (String.eqb y x); [done|]. by constructor.
Qed.

(** Reading back a votes string that was just written. *)
Lemma entries_join l :
  l ≠ [] → Forall (fun w => has_char "," w = false) l →
  JS.split "," (JS.join "," l) = l.
Proof. apply split_join. Qed.

End Entries.

(** ** Regenerating the result section *)

Lemma take_past {A} (pre post : list A) x :
  take (Z.to_nat (Z.of_nat (length pre) + 1)) (pre ++ x :: post) = pre ++ [x].
Proof.
  replace (Z.to_nat (Z.of_nat (length pre) + 1))
    with (length (pre ++ [x])) by (rewrite length_app; simpl; lia).
  rewrite (cons_middle x pre post), app_assoc. apply take_app_length.
Qed.

Lemma drop_past {A} (pre post : list A) x :
  drop (Z.to_nat (Z.of_nat (length pre) + 1)) (pre ++ x :: post) = post.
Proof.
  replace (Z.to_nat (Z.of_nat (length pre) + 1))
    with (length (pre ++ [x])) by (rewrite length_app; simpl; lia).
  rewrite (cons_middle x pre post), app_assoc. apply drop_app_length.
Qed.

Section Regenerate.
Implicit Types (p : Poll) (pre post : list KnownBlock).

Lemma generateVoteResults_at p pre post :
  message p = pre ++ DividerBlock :: post → no_divider post →
  message (generateVoteResults p)
  = pre ++ DividerBlock :: generateResults false p.
Proof.
  intros Hm Hpost. unfold generateVoteResults. simpl.
  rewrite slice_prefix; rewrite Hm, getDividerId_at by done; [|lia].
  by rewrite take_past, <- app_assoc.
Qed.

Lemma generateVoteResults_none p :
  no_divider (message p) →
  message (generateVoteResults p) = generateResults false p.
Proof.
  intros Hm. unfold generateVoteResults. simpl.
  rewrite getDividerId_none by done. by rewrite slice_prefix.
Qed.

Lemma generateVoteResults_blocks p :
  option_blocks (message (generateVoteResults p)) = option_blocks (message p).
Proof.
  destruct (divider_cases (message p)) as [Hno|(pre & post & Hm & Hpost)].
  - rewrite generateVoteResults_none, !option_blocks_none; try done.
    apply generateResults_no_divider.
  - erewrite generateVoteResults_at by done.
    rewrite Hm, !option_blocks_at; try done.
    apply generateResults_no_divider.
Qed.

Lemma generateVoteResults_options p :
  options (generateVoteResults p) = options p.
Proof. unfold options. by rewrite generateVoteResults_blocks. Qed.

Lemma generateVoteResults_groups p :
  option_groups (generateVoteResults p) = option_groups p.
Proof. unfold option_groups. by rewrite generateVoteResults_blocks. Qed.

Lemma generateVoteResults_results reveal p :
  generateResults reveal (generateVoteResults p) = generateResults reveal p.
Proof.
  apply generateResults_ext; try done. apply generateVoteResults_options.
Qed.

(** After a regeneration the blocks behind the divider are the results
    of the poll as it stands. *)
Lemma generateVoteResults_section p :
  result_section (message (generateVoteResults p))
  = generateResults false (generateVoteResults p).
Proof.
  rewrite generateVoteResults_results. unfold result_section.
  destruct (divider_cases (message p)) as [Hno|(pre & post & Hm & Hpost)].
  - rewrite generateVoteResults_none by done.
    rewrite getDividerId_none by apply generateResults_no_divider. done.
  - erewrite generateVoteResults_at by done.
    rewrite getDividerId_at by apply generateResults_no_divider.
    apply drop_past.
Qed.

Lemma generateVoteResults_idem p :
  generateVoteResults (generateVoteResults p) = generateVoteResults p.
Proof.
  assert (message (generateVoteResults (generateVoteResults p))
          = message (generateVoteResults p)) as Hmsg.
  { destruct (divider_cases (message p)) as [Hno|(pre & post & Hm & Hpost)].
    - rewrite (generateVoteResults_none (generateVoteResults p)).
      + rewrite generateVoteResults_results.
        by rewrite generateVoteResults_none.
      + rewrite generateVoteResults_none by done.
        apply generateResults_no_divider.
    - erewrite (generateVoteResults_at (generateVoteResults p)).
      + rewrite generateVoteResults_results.
        by erewrite generateVoteResults_at.
      + by erewrite generateVoteResults_at.
      + apply generateResults_no_divider. }
  destruct p as [m mu an lo]. unfold generateVoteResults in *.
  simpl in *. unfold with_message in *. simpl in *. by rewrite Hmsg.
Qed.
End Regenerate.

(** ** Commands that rewrite the option groups *)

Section Rewrite.
Variable F : KnownBlock → KnownBlock.
Variable G : list Button → list Button.
Hypothesis F_keeps : ∀ blk, (∀ els, blk ≠ ActionsBlock els) → F blk = blk.
Hypothesis F_actions : ∀ els, ∃ els', F (ActionsBlock els) = ActionsBlock els'.
Hypothesis F_buttons : ∀ blk, block_buttons (F blk) = G (block_buttons blk).

Lemma F_divider : F DividerBlock = DividerBlock.
Proof. by apply F_keeps. Qed.

Lemma F_not_divider blk : blk ≠ DividerBlock → F blk ≠ DividerBlock.
Proof.
  intros Hb. destruct blk as [t|es|els| |i a]; try (by rewrite F_keeps).
  by destruct (F_actions els) as [els' ->].
Qed.

Lemma F_no_divider msg : no_divider msg → no_divider (F <$> msg).
Proof.
  intros H. apply Forall_fmap. eapply Forall_impl; [done|].
  intros blk. apply F_not_divider.
Qed.

Lemma drop2_rewrite msg : drop 2 (rewrite_from2 F msg) = F <$> drop 2 msg.
Proof. by destruct msg as [|a [|b msg]]. Qed.

Lemma rewrite_no_divider msg :
  no_divider msg → no_divider (rewrite_from2 F msg).
Proof.
  intros H. apply Forall_app. split.
  - by apply Forall_take.
  - by apply F_no_divider, Forall_drop.
Qed.

Lemma rewrite_at pre post :
  no_divider post →
  ∃ post', rewrite_from2 F (pre ++ DividerBlock :: post)
           = rewrite_from2 F pre ++ DividerBlock :: post'
           ∧ no_divider post'.
Proof.
  intros Hpost. destruct pre as [|a [|b pre]].
  - exists (take 1 post ++ (F <$> drop 1 post)). split; [done|].
    apply Forall_app. split; [by apply Forall_take|].
    by apply F_no_divider, Forall_drop.
  - exists (F <$> post). split; [done|]. by apply F_no_divider.
  - exists (F <$> post). split; [|by apply F_no_divider].
    unfold rewrite_from2. simpl. rewrite !drop_0.
    by rewrite fmap_app, fmap_cons, F_divider.
Qed.

Lemma rewrite_blocks msg :
  option_blocks (rewrite_from2 F msg) = F <$> option_blocks msg.
Proof.
  destruct (divider_cases msg) as [Hno|(pre & post & -> & Hpost)].
  - rewrite !option_blocks_none; [done|done|by apply rewrite_no_divider].
  - destruct (rewrite_at pre post Hpost) as (post' & -> & Hpost').
    rewrite !option_blocks_at by done. apply drop2_rewrite.
Qed.

Lemma rewrite_groups p :
  option_groups (with_message p (rewrite_from2 F (message p)))
  = G <$> option_groups p.
Proof.
  unfold option_groups. simpl. rewrite rewrite_blocks, <- !list_fmap_compose.
  apply list_fmap_ext. intros _ blk _. apply F_buttons.
Qed.

Lemma rewrite_options p :
  options (with_message p (rewrite_from2 F (message p)))
  = option_groups p ≫= G.
Proof.
  unfold options, option_groups. simpl. rewrite rewrite_blocks.
  induction (option_blocks (message p)) as [|blk l IH]; [done|].
  rewrite !fmap_cons, !bind_cons, IH. by rewrite F_buttons.
Qed.

Lemma rewrite_fix msg :
  Forall (fun blk => F blk = blk) (drop 2 msg) → rewrite_from2 F msg = msg.
Proof.
  intros H. unfold rewrite_from2. rewrite <- (take_drop 2 msg) at 3.
  f_equal. induction H as [|blk l Hb _ IH]; [done|].
  by rewrite fmap_cons, Hb, IH.
Qed.

(** Applying the command a second time changes nothing when the
    rewriting is idempotent on the option blocks. *)
Lemma rewrite_idem p :
  Forall (fun blk => F (F blk) = F blk) (option_blocks (message p)) →
  let p1 := generateVoteResults (with_message p (rewrite_from2 F (message p))) in
  generateVoteResults (with_message p1 (rewrite_from2 F (message p1))) = p1.
Proof.
  intros Hidem p1.
  assert (Forall (fun blk => F blk = blk) (generateResults false p1)) as Hres.
  { eapply Forall_impl; [apply generateResults_sections|].
    intros blk [t ->]. by apply F_keeps. }
  assert (rewrite_from2 F (message p1) = message p1) as Hfix.
  { apply rewrite_fix. subst p1.
    rewrite generateVoteResults_results in Hres.
    destruct (divider_cases (message p)) as [Hno|(pre & post & Hm & Hpost)].
    - rewrite generateVoteResults_none
        by (simpl; by apply rewrite_no_divider).
      by apply Forall_drop.
    - destruct (rewrite_at pre post Hpost) as (post' & Hrw & Hpost').
      erewrite generateVoteResults_at; [|simpl; rewrite Hm; apply Hrw|done].
      rewrite Hm, option_blocks_at in Hidem by done.
      rewrite drop_app, drop2_rewrite. apply Forall_app. split.
      + by apply Forall_fmap.
      + apply Forall_drop. constructor; [apply F_divider|done]. }
  rewrite Hfix.
  replace (with_message p1 (message p1)) with p1 by (by destruct p1).
  apply generateVoteResults_idem.
Qed.
End Rewrite.

(** ** [vote] and [resetVote] as rewritings of the option groups *)

Section Commands.
Implicit Types (p : Poll) (b : Button) (l u : string) (m : bool).

Lemma vote_callback_spec m l u b s :
  vote_callback m l u b s = (vote_button m l u b, s, false).
Proof.
  unfold vote_button, vote_callback. by destruct (getVotesAndUserIndex b u).
Qed.

Lemma vote_unlocked p l u :
  isLocked p = false →
  vote p l u
  = generateVoteResults
      (with_message p
         (rewrite_from2 (map_block (vote_button (multiple p) l u)) (message p))).
Proof.
  intros Hl. unfold vote. rewrite Hl, processButtons_all.
  by rewrite (scanBlocks_nostop _ (vote_button (multiple p) l u) (fun s _ => s))
    by (intros; apply vote_callback_spec).
Qed.

Lemma resetVote_unfold p u :
  resetVote p u
  = generateVoteResults
      (with_message p (rewrite_from2 (reset_block (multiple p) u) (message p))).
Proof.
  unfold resetVote. by rewrite processButtons_all, scanBlocks_unit.
Qed.

Lemma entries_not_nil b : entries b ≠ [].
Proof. apply split_not_nil. Qed.

Lemma join_entries b : JS.join "," (entries b) = b_value b.
Proof. apply (join_split ","%char). Qed.

Lemma vote_button_text m l u b : b_text (vote_button m l u b) = b_text b.
Proof. done. Qed.

(** The three cases of the callback of [vote]. *)
Lemma vote_button_move l u b :
  u ∈ entries b → b_text b ≠ l → vote_button false l u b = remove_vote u b.
Proof.
  intros Hu Hl. unfold vote_button, vote_callback, getVotesAndUserIndex.
  fold (entries b). simpl.
  assert (JS.indexOf u (entries b) ≠ -1) as Hi.
  { rewrite indexOf_none. by intros []. }
  pose proof (indexOf_range u (entries b)).
  destruct (Z.gtb_spec (JS.indexOf u (entries b)) (-1)); [|lia].
  destruct (String.eqb_spec (b_text b) l); [done|]. simpl.
  by rewrite splice_indexOf.
Qed.

Lemma vote_button_add m l u b :
  u ∉ entries b → b_text b = l →
  vote_button m l u b = mkButton l (b_value b +:+ "," +:+ u).
Proof.
  intros Hu Hl. unfold vote_button, vote_callback, getVotesAndUserIndex.
  fold (entries b). simpl. apply indexOf_none in Hu. rewrite Hu, Hl.
  rewrite String.eqb_refl, andb_false_r. simpl.
  by rewrite (join_snoc ","%char), join_entries by apply entries_not_nil.
Qed.

Lemma vote_button_keep m l u b :
  (m = true ∨ u ∉ entries b ∨ b_text b = l) →
  (u ∈ entries b ∨ b_text b ≠ l) →
  vote_button m l u b = b.
Proof.
  intros H1 H2. unfold vote_button, vote_callback, getVotesAndUserIndex.
  fold (entries b). simpl. pose proof (indexOf_range u (entries b)).
  pose proof (indexOf_none u (entries b)) as Hnone.
  destruct b as [t v]. simpl in *.
  destruct m, (Z.gtb_spec (JS.indexOf u (entries (mkButton t v))) (-1)),
    (String.eqb_spec t l),
    (Z.eqb_spec (JS.indexOf u (entries (mkButton t v))) (-1));
    simpl; rewrite ?join_entries; try done; try lia; naive_solver.
Qed.

Lemma block_buttons_map (f : Button → Button) blk :
  block_buttons (map_block f blk) = f <$> block_buttons blk.
Proof.
  destruct blk as [| |els| |]; try done. simpl.
  induction els as [|[b|ph os] els IH]; csimpl; [done| |done].
  by rewrite IH.
Qed.

Lemma bind_fmap_groups (f : Button → Button) (gs : list (list Button)) :
  gs ≫= fmap f = f <$> (gs ≫= id).
Proof.
  induction gs as [|g gs IH]; [done|].
  by rewrite !bind_cons, fmap_app, IH.
Qed.

Lemma options_groups p : options p = option_groups p ≫= id.
Proof.
  unfold options, option_groups.
  induction (option_blocks (message p)) as [|blk bl IH]; [done|].
  by rewrite fmap_cons, !bind_cons, IH.
Qed.

Lemma vote_options p l u :
  isLocked p = false →
  options (vote p l u) = vote_button (multiple p) l u <$> options p.
Proof.
  intros Hl. rewrite vote_unlocked, generateVoteResults_options by done.
  rewrite (rewrite_options _ (fmap (vote_button (multiple p) l u))).
  - by rewrite bind_fmap_groups, options_groups.
  - by intros [] H; try done; destruct (H elements).
  - intros els. by eexists.
  - apply block_buttons_map.
Qed.
End Commands.

(** ** Decoding *)

Lemma Poll_new_message msg p : Poll_new msg = Some p → message p = msg.
Proof.
  unfold Poll_new. intros H.
  destruct (checkIfMsgContains msg "(Multiple Answers)"); [|done].
  destruct (checkIfMsgContains msg "(Anonymous)"); [|done]. simpl in H.
  destruct (_ =? _); [by inversion H|].
  destruct (JS.at_ _ _ ≫= block_text); [|done]. by inversion H.
Qed.

Lemma Poll_new_flags msg p :
  Poll_new msg = Some p →
  ∃ title, getTitleFromMsg msg = Some title
           ∧ multiple p = JS.includes "(Multiple Answers)" title
           ∧ anonymous p = JS.includes "(Anonymous)" title.
Proof.
  unfold Poll_new, checkIfMsgContains. intros H.
  destruct (getTitleFromMsg msg) as [title|]; [|done]. exists title.
  simpl in H. destruct (_ =? _); [by inversion H|].
  destruct (JS.at_ _ _ ≫= block_text); [|done]. by inversion H.
Qed.

(** A message that ends with its divider decodes as an unlocked poll. *)
Lemma Poll_new_fresh title rest :
  Poll_new (SectionBlock (Some title) :: rest ++ [DividerBlock])
  = Some (mkPoll (SectionBlock (Some title) :: rest ++ [DividerBlock])
                 (JS.includes "(Multiple Answers)" title)
                 (JS.includes "(Anonymous)" title) false).
Proof.
  pose proof (getDividerId_at (SectionBlock (Some title) :: rest) []
                (Forall_nil_2 _)) as Hd.
  rewrite <- app_comm_cons in Hd.
  unfold Poll_new, checkIfMsgContains, getTitleFromMsg. rewrite Hd.
  cbn [lookup list_lookup mbind option_bind block_text fmap option_fmap
       option_map].
  cbn [length]. rewrite length_app. cbn [length].
  destruct (Z.eqb_spec (Z.of_nat (S (length rest + 1)) - 1)
                       (Z.of_nat (S (length rest)))); [done|lia].
Qed.

Lemma vote_locked p l u : isLocked p = true → vote p l u = p.
Proof. intros H. unfold vote. by rewrite H. Qed.

Lemma applyVote_locked msg p l u :
  Poll_new msg = Some p → isLocked p = true → applyVote msg l u = Some msg.
Proof.
  intros Hnew Hlocked. unfold applyVote. rewrite Hnew. simpl.
  rewrite vote_locked by done. unfold getBlocks.
  by rewrite (Poll_new_message msg p).
Qed.

(** C3. A locked poll accepts no vote: for every block sequence that
    decodes to a poll whose locked flag is set, [vote] with any option
    label and any user returns the poll as it is, so the block sequence
    handed back is the one received: no votes string is rewritten and the
    result section is not regenerated. *)
Theorem vote_locked_unchanged msg p l u :
  Poll_new msg = Some p → isLocked p = true →
  vote p l u = p ∧ getBlocks (vote p l u) = msg ∧ applyVote msg l u = Some msg.
Proof.
  intros Hnew Hlocked. rewrite vote_locked by done.
  split; [done|]. split; [|by apply (applyVote_locked msg p)].
  unfold getBlocks. by apply Poll_new_message.
Qed.

Lemma vote_locked_unchanged_witness :
  let msg :=
    layout "Lunch?" "Asked by: <@U1>"
      [[EButton (mkButton "Pizza" " ,U2"); EButton (mkButton "Tacos" " ")]]
      (EStaticSelect "Poll Options" []) [":lock:"; "*1* Pizza » <@U2>"] in
  let p := mkPoll msg false false true in
  Poll_new msg = Some p ∧ isLocked p = true ∧
  vote p "Tacos" "U3" = p ∧ getBlocks (vote p "Tacos" "U3") = msg
  ∧ applyVote msg "Tacos" "U3" = Some msg.
Proof.
  intros msg p. split; [reflexivity|]. split; [reflexivity|].
  apply (vote_locked_unchanged msg p "Tacos" "U3"); reflexivity.
Defined.

(** C5, as the code has it.  The lunch scenario: for
    [createPoll("<@U1>", ["multiple", "Lunch?", "Pizza", "Tacos"])] the
    title text is ["Lunch? *(Multiple Answers)* "], there are exactly two
    vote buttons, "Pizza" and "Tacos", with no voter, and after
    [vote("Pizza","U2")] and [vote("Tacos","U2")] the user holds a vote
    on both options and the result section consists of the two lines
    ["*1* Pizza » <@U2>"] and ["*1* Tacos » <@U2>"]: the count is written
    between asterisks. *)
Theorem lunch_scenario :
  createPoll "<@U1>" ["multiple"; "Lunch?"; "Pizza"; "Tacos"]
  = Some (lunch_blocks " " " " [])
  ∧ getTitleFromMsg (lunch_blocks " " " " [])
    = Some "Lunch? *(Multiple Answers)* "
  ∧ message_buttons (lunch_blocks " " " " [])
    = [mkButton "Pizza" " "; mkButton "Tacos" " "]
  ∧ (voters <$> message_buttons (lunch_blocks " " " " [])) = [[]; []]
  ∧ applyVote (lunch_blocks " " " " []) "Pizza" "U2"
    = Some (lunch_blocks " ,U2" " " ["*1* Pizza » <@U2>"])
  ∧ applyVote (lunch_blocks " ,U2" " " ["*1* Pizza » <@U2>"]) "Tacos" "U2"
    = Some (lunch_blocks " ,U2" " ,U2"
              ["*1* Pizza » <@U2>"; "*1* Tacos » <@U2>"])
  ∧ (voters <$> message_buttons
                  (lunch_blocks " ,U2" " ,U2"
                     ["*1* Pizza » <@U2>"; "*1* Tacos » <@U2>"]))
    = [["U2"]; ["U2"]]
  ∧ result_texts (lunch_blocks " ,U2" " ,U2"
                    ["*1* Pizza » <@U2>"; "*1* Tacos » <@U2>"])
    = ["*1* Pizza » <@U2>"; "*1* Tacos » <@U2>"].
Proof. repeat split; vm_compute; reflexivity. Qed.

(** C5 as stated fails: after the two votes no line of the result section
    is, or contains, the text ["1 Pizza » <@U2>"]. *)
Lemma lunch_scenario_counterexample :
  ∃ b0 b1 b2,
    createPoll "<@U1>" ["multiple"; "Lunch?"; "Pizza"; "Tacos"] = Some b0
    ∧ applyVote b0 "Pizza" "U2" = Some b1
    ∧ applyVote b1 "Tacos" "U2" = Some b2
    ∧ ("1 Pizza » <@U2>" ∉ result_texts b2)
    ∧ Forall (fun t => JS.includes "1 Pizza » <@U2>" t = false)
             (result_texts b2).
Proof.
  exists (lunch_blocks " " " " []),
         (lunch_blocks " ,U2" " " ["*1* Pizza » <@U2>"]),
         (lunch_blocks " ,U2" " ,U2" ["*1* Pizza » <@U2>"; "*1* Tacos » <@U2>"]).
  split; [vm_compute; reflexivity|]. split; [vm_compute; reflexivity|].
  split; [vm_compute; reflexivity|].
  assert (result_texts (lunch_blocks " ,U2" " ,U2"
                          ["*1* Pizza » <@U2>"; "*1* Tacos » <@U2>"])
          = ["*1* Pizza » <@U2>"; "*1* Tacos » <@U2>"]) as ->
      by (vm_compute; reflexivity).
  split.
  - intros H. apply elem_of_cons in H as [H|H]; [discriminate H|].
    apply elem_of_cons in H as [H|H]; [discriminate H|].
    by apply elem_of_nil in H.
  - repeat constructor.
Qed.
Lemma divider_split_unique pre post pre' post' :
  no_divider post → no_divider post' →
  pre ++ DividerBlock :: post = pre' ++ DividerBlock :: post' →
  pre = pre' ∧ post = post'.
Proof.
  intros Hpost Hpost' Heq.
  assert (length pre = length pre') as Hlen.
  { apply Nat2Z.inj. rewrite <- (getDividerId_at pre post) by done.
    rewrite Heq. by apply getDividerId_at. }
  apply app_inj_1 in Heq as [-> Heq]; [|done]. by inversion Heq.
Qed.

Lemma at_after_divider pre b post :
  JS.at_ (pre ++ DividerBlock :: b :: post) (Z.of_nat (length pre) + 1)
  = Some b.
Proof.
  unfold JS.at_. destruct (Z.ltb_spec (Z.of_nat (length pre) + 1) 0); [lia|].
  replace (Z.to_nat (Z.of_nat (length pre) + 1))
    with (length pre + 1)%nat by lia.
  rewrite lookup_app_r by lia.
  by replace (length pre + 1 - length pre)%nat with 1%nat by lia.
Qed.

Lemma Poll_new_none msg :
  Poll_new msg = None ↔
  getTitleFromMsg msg = None
  ∨ ∃ pre b post, msg = pre ++ DividerBlock :: b :: post
                  ∧ no_divider (b :: post) ∧ block_text b = None.
Proof.
  unfold Poll_new, checkIfMsgContains.
  destruct (getTitleFromMsg msg) as [title|] eqn:Htitle; simpl;
    [|by split; [left|]].
  destruct (divider_cases msg) as [Hno|(pre & post & -> & Hpost)].
  - rewrite getDividerId_none by done.
    destruct msg as [|b0 msg]; [done|].
    destruct (Z.eqb_spec (Z.of_nat (length (b0 :: msg)) - 1) (-1));
      [simpl in *; lia|].
    change (JS.at_ (b0 :: msg) (-1 + 1)) with (Some b0).
    unfold getTitleFromMsg in Htitle. simpl in *. rewrite Htitle. simpl.
    split; [done|]. intros [?|(pre & b & post & Heq & _)]; [done|].
    rewrite Heq in Hno.
    apply Forall_app in Hno as [_ Hno]. by inversion Hno.
  - rewrite getDividerId_at by done.
    destruct post as [|b post].
    + destruct (Z.eqb_spec (Z.of_nat (length (pre ++ [DividerBlock])) - 1)
                           (Z.of_nat (length pre)));
        [|rewrite length_app in *; simpl in *; lia].
      split; [done|]. intros [?|(pre' & b & post' & Heq & Hno' & _)]; [done|].
      by apply divider_split_unique in Heq as [_ ?].
    + destruct (Z.eqb_spec
                  (Z.of_nat (length (pre ++ DividerBlock :: b :: post)) - 1)
                  (Z.of_nat (length pre)));
        [rewrite length_app in *; simpl in *; lia|].
      rewrite at_after_divider. simpl.
      destruct (block_text b) as [t|] eqn:Hb; simpl.
      * split; [done|].
        intros [?|(pre' & b' & post' & Heq & Hno' & Hb')]; [done|].
        apply divider_split_unique in Heq as [_ Heq]; [|done..].
        inversion Heq; subst. congruence.
      * split; [|done]. intros _. right. by exists pre, b, post.
Qed.

Lemma layout_split title author groups menu results :
  layout title author groups menu results
  = (SectionBlock (Some title) :: ContextBlock [author]
       :: (ActionsBlock <$> groups) ++ [ActionsBlock [menu]])
      ++ DividerBlock :: ((fun t => SectionBlock (Some t)) <$> results).
Proof. unfold layout. simpl. by rewrite <- app_assoc. Qed.

Lemma sections_no_divider (results : list string) :
  no_divider ((fun t => SectionBlock (Some t)) <$> results).
Proof. apply Forall_fmap, Forall_forall. by intros. Qed.

(** C9, as the code has it.  The constructor defines no error of its own
    and checks neither the author context nor the presence of a divider.
    Decoding fails (with the error of reading a property of [undefined])
    exactly when block 0 carries no text, or when the block that follows
    the last divider carries no text; a message of the fixed layout always
    decodes. *)
Theorem Poll_new_fails msg title author groups menu results :
  (Poll_new msg = None ↔
     getTitleFromMsg msg = None
     ∨ ∃ pre b post, msg = pre ++ DividerBlock :: b :: post
                     ∧ no_divider (b :: post) ∧ block_text b = None)
  ∧ is_Some (Poll_new (layout title author groups menu results)).
Proof.
  split; [apply Poll_new_none|].
  destruct (Poll_new (layout title author groups menu results)) eqn:H;
    [done|].
  apply Poll_new_none in H as [H|(pre & b & post & Heq & Hno & Hb)]; [done|].
  rewrite layout_split in Heq.
  apply divider_split_unique in Heq as [_ Heq];
    [|apply sections_no_divider|done].
  destruct results as [|t results]; [done|]. inversion Heq; by subst.
Qed.

(** C9 as stated fails in both directions: a message whose block 1 is not
    an author context and that has no divider decodes, and a message with
    a title, an author context and a divider does not decode when an
    image follows the divider. *)
Lemma Poll_new_fails_counterexample :
  let bad := [SectionBlock (Some "Lunch?"); ImageBlock "pizza.png" "pizza"] in
  let good := [SectionBlock (Some "Lunch?"); ContextBlock ["Asked by: <@U1>"];
               DividerBlock; ImageBlock "pizza.png" "pizza"] in
  (author_shaped bad = false ∧ has_divider bad = false
   ∧ Poll_new bad = Some (mkPoll bad false false false))
  ∧ (title_shaped good = true ∧ author_shaped good = true
     ∧ has_divider good = true ∧ Poll_new good = None).
Proof. by vm_compute. Qed.

(** ** Substrings *)

Section Includes.
Implicit Types (m q s : string).

Lemma prefix_nil_r m : JS.starts_with m "" = true → m = "".
Proof. by destruct m. Qed.

Lemma prefix_app_l m q s :
  JS.starts_with m q = true → JS.starts_with m (q +:+ s) = true.
Proof.
  revert q. induction m as [|a m IH]; intros q; [by simpl|].
  destruct q as [|b q]; [by simpl|].
  change (String b q +:+ s) with (String b (q +:+ s)). simpl.
  destruct (Ascii.eqb a b); [apply IH|done].
Qed.

Lemma prefix_app_r m q s :
  JS.starts_with m (q +:+ s) = true → JS.starts_with m q = false →
  (String.length q < String.length m)%nat
  ∧ JS.starts_with (JS.drop_chars (String.length q) m) s = true.
Proof.
  revert m. induction q as [|b q IH]; intros m.
  - destruct m; [by simpl|]. simpl. intros H _. split; [lia|done].
  - destruct m as [|a m]; [by simpl|].
    change (String b q +:+ s) with (String b (q +:+ s)). simpl.
    destruct (Ascii.eqb a b); [|done]. intros H1 H2.
    destruct (IH m H1 H2). split; [lia|done].
Qed.

Lemma nostraddle_spec m s k :
  nostraddle m s = true → (0 < k < String.length m)%nat →
  JS.starts_with (JS.drop_chars k m) s = false.
Proof.
  unfold nostraddle. rewrite forallb_forall. intros H Hk.
  apply negb_true_iff, H, in_seq. lia.
Qed.

Lemma includes_app m q s :
  nostraddle m s = true →
  JS.includes m (q +:+ s) = JS.includes m q || JS.includes m s.
Proof.
  intros Hns. induction q as [|b q IH].
  - change ("" +:+ s) with s. simpl. rewrite orb_false_r.
    destruct (JS.starts_with m "") eqn:Hm; [|done].
    apply prefix_nil_r in Hm as ->. by destruct s.
  - change (String b q +:+ s) with (String b (q +:+ s)).
    cbn [JS.includes]. rewrite IH.
    change (String b (q +:+ s)) with (String b q +:+ s).
    destruct (JS.starts_with m (String b q)) eqn:Hq.
    + by rewrite prefix_app_l.
    + destruct (JS.starts_with m (String b q +:+ s)) eqn:Hqs; [|done].
      destruct (prefix_app_r _ _ _ Hqs Hq) as [Hlen Hpre].
      assert (JS.starts_with (JS.drop_chars (String.length (String b q)) m) s
              = false) as Hno.
      { apply nostraddle_spec; [done|]. simpl in *. lia. }
      congruence.
Qed.
End Includes.

(** ** Creating a poll *)

Lemma flag_tokens_two line0 : ∃ t0 t1 ts, flag_tokens line0 = t0 :: t1 :: ts.
Proof.
  unfold flag_tokens. pose proof (split_not_nil " " line0) as H.
  destruct (JS.split " " line0) as [|t0 [|t1 ts]]; [done| |]; simpl; eauto.
Qed.

(** [slashCreate] decodes a message made of the title, the author
    context, the option groups, the control menu and the divider. *)
Lemma slashCreate_blocks author line0 rest :
  ∃ start,
    slashCreate author (line0 :: rest)
    = Poll_new (SectionBlock (Some (title_text line0 rest))
                  :: (ContextBlock ["Asked by: " +:+ author]
                        :: PollHelpers.buildVoteOptions (line0 :: rest) start
                        ++ [poll_menu])
                  ++ [DividerBlock]).
Proof.
  unfold slashCreate. set (decode := Poll_new).
  unfold title_text, marker, question_text, flag_given, flags_line,
    PollHelpers.appendIfMatching.
  cbn [lookup list_lookup mbind option_bind].
  fold (flag_tokens line0).
  destruct (flag_tokens_two line0) as (t0 & t1 & ts & ->).
  cbn [lookup list_lookup mbind option_bind token_is].
  destruct (String.eqb (JS.toLowerCase t0) "multiple"
            || String.eqb (JS.toLowerCase t0) "anon") eqn:Hflags;
    cbn [mbind option_bind andb].
  - eexists. reflexivity.
  - change ("" +:+ "") with "". rewrite append_nil_r.
    eexists. reflexivity.
Qed.

Lemma marker_includes needle line0 :
  let s := marker "multiple" " *(Multiple Answers)* " line0
           +:+ marker "anon" " *(Anonymous)* " line0 in
  (needle = "(Multiple Answers)" →
   nostraddle needle s = true
   ∧ JS.includes needle s = flag_given "multiple" line0)
  ∧ (needle = "(Anonymous)" →
     nostraddle needle s = true
     ∧ JS.includes needle s = flag_given "anon" line0).
Proof.
  unfold marker.
  destruct (flag_given "multiple" line0), (flag_given "anon" line0);
    split; intros ->; split; vm_compute; reflexivity.
Qed.

(** C1, as the code has it.  For every author and every non-empty list of
    parameter lines [slashCreate] yields a poll whose blocks decode to the
    same poll, with [locked = false]; the decoded [multiple] flag is set
    exactly when the flag token was given among the first two tokens of a
    flag line or the question text itself contains the marker
    ["(Multiple Answers)"], and likewise for [anonymous] and the marker
    ["(Anonymous)"]. *)
Theorem slashCreate_flags author line0 rest :
  ∃ p, slashCreate author (line0 :: rest) = Some p
       ∧ Poll_new (getBlocks p) = Some p
       ∧ multiple p
         = flag_given "multiple" line0
           || JS.includes "(Multiple Answers)" (question_text line0 rest)
       ∧ anonymous p
         = flag_given "anon" line0
           || JS.includes "(Anonymous)" (question_text line0 rest)
       ∧ isLocked p = false.
Proof.
  destruct (slashCreate_blocks author line0 rest) as [start Hcreate].
  rewrite Poll_new_fresh in Hcreate. eexists. split; [exact Hcreate|].
  split; [apply Poll_new_fresh|]. cbn [multiple anonymous isLocked].
  unfold title_text.
  destruct (marker_includes "(Multiple Answers)" line0) as [[Hn1 Hi1] _];
    [done|].
  destruct (marker_includes "(Anonymous)" line0) as [_ [Hn2 Hi2]]; [done|].
  rewrite (includes_app "(Multiple Answers)"), Hi1 by done.
  rewrite (includes_app "(Anonymous)"), Hi2 by done.
  split; [apply orb_comm|]. split; [apply orb_comm|done].
Qed.

(** C1 as stated fails: line 0 carries no flag token, yet the decoded
    poll is anonymous, because the question contains the marker. *)
Lemma slashCreate_flags_counterexample :
  let line0 := "Is this poll (Anonymous)?" in
  let blocks :=
    [SectionBlock (Some line0); ContextBlock ["Asked by: <@U1>"];
     ActionsBlock [EButton (mkButton "Yes" " "); EButton (mkButton "No" " ")];
     poll_menu; DividerBlock] in
  createPoll "<@U1>" [line0; "Yes"; "No"] = Some blocks
  ∧ Poll_new blocks = Some (mkPoll blocks false true false)
  ∧ Forall (fun t => JS.toLowerCase t ≠ "anon") (JS.split " " line0)
  ∧ flag_given "anon" line0 = false.
Proof.
  intros line0 blocks. split; [vm_compute; reflexivity|].
  split; [vm_compute; reflexivity|]. split; [|vm_compute; reflexivity].
  vm_compute. repeat constructor; discriminate.
Qed.

(** ** The lines of the result section *)

Lemma omap_fmap {A B C} (f : B → option C) (g : A → B) (l : list A) :
  omap f (g <$> l) = omap (f ∘ g) l.
Proof.
  induction l as [|x l IH]; [done|]. csimpl. rewrite IH. done.
Qed.

Lemma omap_ext_Forall {A B} (f g : A → option B) (l : list A) :
  Forall (fun x => f x = g x) l → omap f l = omap g l.
Proof.
  induction 1 as [|x l Hx _ IH]; [done|]. csimpl. by rewrite Hx, IH.
Qed.

Lemma vote_flags p l u :
  multiple (vote p l u) = multiple p
  ∧ anonymous (vote p l u) = anonymous p
  ∧ isLocked (vote p l u) = isLocked p.
Proof. unfold vote. by destruct (isLocked p) eqn:Hl. Qed.

Lemma resetVote_flags p u :
  multiple (resetVote p u) = multiple p
  ∧ anonymous (resetVote p u) = anonymous p
  ∧ isLocked (resetVote p u) = isLocked p.
Proof. done. Qed.

(** With pairwise distinct labels the tally has one line per option that
    has a voter, and no other line. *)
Lemma results_of_distinct reveal p :
  NoDup (b_text <$> options p) →
  Forall (fun b => b_text b ≠ "__proto__") (options p) →
  omap (buildVoteTally (anonymous p) reveal (collectVotes p))
       (JS.obj_keys (collectVotes p))
  ≡ₚ omap (option_line (anonymous p) reveal) (options p).
Proof.
  intros Hnd Hproto. rewrite collectVotes_options.
  rewrite (tally_distinct _ []) by (by rewrite ?app_nil_r).
  rewrite app_nil_l. set (votes := _ <$> options p).
  assert (votes.*1 = b_text <$> options p) as Hkeys.
  { unfold votes. rewrite <- list_fmap_compose. done. }
  rewrite obj_keys_perm, Hkeys, omap_fmap.
  rewrite (omap_ext_Forall _ (option_line (anonymous p) reveal)); [done|].
  apply Forall_forall. intros [t v] Hb. simpl.
  apply buildVoteTally_line, obj_get_NoDup; [by rewrite Hkeys|].
  unfold votes. apply list_elem_of_fmap. by exists (mkButton t v).
Qed.

(** C7, as the code has it.  The tally is keyed by label.  For a poll
    whose options carry pairwise distinct labels, none of them
    [__proto__], result generation emits the lock line of a locked poll
    and then, in some order, no line for an option without voters and
    exactly one line for each option with at least one voter; the text of
    that line is ["*<count>* <label> » <names>"], where the names are the
    voter identifiers, each written [<@id>], joined with commas when the
    poll is not anonymous or identities are revealed, and the redaction
    token [~HIDDEN~] otherwise. *)
Theorem generateResults_lines reveal p :
  NoDup (b_text <$> options p) →
  Forall (fun b => b_text b ≠ "__proto__") (options p) →
  ∃ lines,
    generateResults reveal p = lock_line p ++ lines
    ∧ lines ≡ₚ omap (option_line (anonymous p) reveal) (options p)
    ∧ ∀ b, option_line (anonymous p) reveal b
           = match voters b with
             | [] => None
             | users =>
                 Some (SectionBlock
                         (Some ("*" +:+ JS.of_nat (length users) +:+ "* "
                                +:+ b_text b +:+ " » "
                                +:+ (if negb (anonymous p) || reveal
                                     then JS.join "," (mention <$> users)
                                     else "~HIDDEN~"))))
             end.
Proof.
  intros Hnd Hproto. eexists. split; [apply generateResults_unfold|].
  split; [by apply results_of_distinct|done].
Qed.

Lemma voters_after_add t b u :
  voters (mkButton t (b_value b +:+ "," +:+ u)) = voters b ++ JS.split "," u.
Proof.
  unfold voters, entries. simpl.
  change (b_value b +:+ "," +:+ u) with (b_value b +:+ String "," u).
  rewrite split_app. pose proof (split_not_nil "," (b_value b)) as H.
  by destruct (JS.split "," (b_value b)).
Qed.

Lemma option_line_some anon reveal b :
  voters b ≠ [] →
  option_line anon reveal b
  = Some (SectionBlock (Some (result_text anon reveal (b_text b) (voters b)))).
Proof. unfold option_line. by destruct (voters b). Qed.


Lemma generateResults_lines_witness :
  let p := mkPoll (lunch_blocks " ,U2,U3" " " ["*2* Pizza » <@U2>,<@U3>"])
                  true false false in
  NoDup (b_text <$> options p)
  ∧ Forall (fun b => b_text b ≠ "__proto__") (options p)
  ∧ ∃ lines,
      generateResults true p = lock_line p ++ lines
      ∧ lines ≡ₚ omap (option_line (anonymous p) true) (options p)
      ∧ ∀ b, option_line (anonymous p) true b
             = match voters b with
               | [] => None
               | users =>
                   Some (SectionBlock
                           (Some ("*" +:+ JS.of_nat (length users) +:+ "* "
                                  +:+ b_text b +:+ " » "
                                  +:+ (if negb (anonymous p) || true
                                       then JS.join "," (mention <$> users)
                                       else "~HIDDEN~"))))
               end.
Proof.
  intros p.
  assert (NoDup (b_text <$> options p)) as H1 by by_evaluation.
  assert (Forall (fun b => b_text b ≠ "__proto__") (options p)) as H2
      by by_evaluation.
  split; [exact H1|]. split; [exact H2|].
  exact (generateResults_lines true p H1 H2).
Defined.

(** C7 as stated fails.  In the poll created from the lines "Lunch?",
    "Pizza", "Pizza", after U1 and U2 voted for "Pizza" and U1 reset the
    vote, both options have a voter (U2 on the first, U1 and U2 on the
    second), yet the result section has one line only, and the line of
    the first option is missing. *)
Lemma generateResults_lines_counterexample :
  let b3 := twin_blocks " ,U2" " ,U1,U2" ["*2* Pizza » <@U1>,<@U2>"] in
  createPoll "<@U1>" ["Lunch?"; "Pizza"; "Pizza"] = Some (twin_blocks " " " " [])
  ∧ applyVote (twin_blocks " " " " []) "Pizza" "U1"
    = Some (twin_blocks " ,U1" " ,U1" ["*1* Pizza » <@U1>"])
  ∧ applyVote (twin_blocks " ,U1" " ,U1" ["*1* Pizza » <@U1>"]) "Pizza" "U2"
    = Some (twin_blocks " ,U1,U2" " ,U1,U2" ["*2* Pizza » <@U1>,<@U2>"])
  ∧ applyReset (twin_blocks " ,U1,U2" " ,U1,U2" ["*2* Pizza » <@U1>,<@U2>"])
               "U1"
    = Some b3
  ∧ (voters <$> message_buttons b3) = [["U2"]; ["U1"; "U2"]]
  ∧ result_texts b3 = ["*2* Pizza » <@U1>,<@U2>"]
  ∧ omap (option_line false false) (message_buttons b3)
    = [SectionBlock (Some "*1* Pizza » <@U2>");
       SectionBlock (Some "*2* Pizza » <@U1>,<@U2>")]
  ∧ ¬ (result_section b3
       ≡ₚ omap (option_line false false) (message_buttons b3)).
Proof.
  intros b3. repeat (split; [vm_compute; reflexivity|]).
  intros H%Permutation_length. vm_compute in H. discriminate H.
Qed.



(** ** Anonymity *)

Section Anonymity.
Implicit Types (o : JS.obj) (b : Button) (s t x : string).

Lemma starts_with_app x t : JS.starts_with x (x +:+ t) = true.
Proof.
  induction x as [|a x IH]; [done|].
  change (String a x +:+ t) with (String a (x +:+ t)). simpl.
  by rewrite Ascii.eqb_refl.
Qed.

Lemma includes_infix x s t : JS.includes x (s +:+ x +:+ t) = true.
Proof.
  induction s as [|a s IH].
  - change ("" +:+ x +:+ t) with (x +:+ t).
    destruct (x +:+ t) eqn:E; simpl; rewrite <- E, starts_with_app; done.
  - change (String a s +:+ x +:+ t) with (String a (s +:+ x +:+ t)).
    cbn [JS.includes]. rewrite IH. apply orb_true_r.
Qed.

Lemma includes_prepend x s t :
  JS.includes x t = true → JS.includes x (s +:+ t) = true.
Proof.
  intros H. induction s as [|a s IH]; [done|].
  change (String a s +:+ t) with (String a (s +:+ t)).
  cbn [JS.includes]. rewrite IH. apply orb_true_r.
Qed.

Lemma join_elem sep x (l : list string) :
  x ∈ l → ∃ s t, JS.join sep l = s +:+ x +:+ t.
Proof.
  induction l as [|y l IH]; [by intros ?%elem_of_nil|].
  intros [->|Hx]%elem_of_cons.
  - destruct l as [|z l].
    + exists "", "". simpl. by rewrite append_nil_r.
    + exists "", (sep +:+ JS.join sep (z :: l)). by rewrite join_cons.
  - destruct (IH Hx) as (s & t & Hst). destruct l as [|z l]; [by inversion Hx|].
    exists (y +:+ sep +:+ s), t.
    rewrite join_cons, Hst by done. by rewrite !append_assoc.
Qed.

(** The line of an option with a voter names the voter when identities
    are shown. *)
Lemma result_text_mentions anon reveal label users u :
  negb anon || reveal = true → u ∈ users →
  JS.includes (mention u) (result_text anon reveal label users) = true
  ∧ JS.includes u (result_text anon reveal label users) = true.
Proof.
  intros Hshow Hu. unfold result_text, names_of. rewrite Hshow.
  destruct (join_elem "," (mention u) (mention <$> users)) as (s & t & ->).
  { apply list_elem_of_fmap. by exists u. }
  split.
  - do 5 apply includes_prepend. apply includes_infix.
  - do 5 apply includes_prepend. unfold mention.
    rewrite !append_assoc. apply includes_prepend.
    apply (includes_infix u "<@").
Qed.

Lemma obj_alike_keys o o' : obj_alike o o' → o.*1 = o'.*1.
Proof.
  induction 1 as [|[k v] [k' v'] o o' [Hk _] _ IH]; [done|].
  rewrite !fmap_cons. simpl in Hk. by rewrite Hk, IH.
Qed.

Lemma obj_alike_put k v v' o o' :
  length (JS.split "," v) = length (JS.split "," v') →
  obj_alike o o' → obj_alike (JS.obj_put k v o) (JS.obj_put k v' o').
Proof.
  intros Hv. induction 1 as [|[k0 v0] [k0' v0'] o o' [Hk Hl] Ho IH]; simpl.
  - by repeat constructor.
  - simpl in Hk. subst k0'.
    destruct (String.eqb k0 k); by repeat constructor.
Qed.

Lemma entries_length b : length (entries b) = S (length (voters b)).
Proof.
  unfold voters. pose proof (entries_not_nil b).
  destruct (entries b); [done|]. simpl. by rewrite drop_0.
Qed.

Lemma obj_alike_tally bs bs' o o' :
  Forall2 same_count bs bs' → obj_alike o o' →
  obj_alike (foldl tally_put o bs) (foldl tally_put o' bs').
Proof.
  intros H. revert o o'.
  induction H as [|b b' bs bs' [Ht Hc] _ IH]; intros o o' Ho; [done|].
  simpl. apply IH. unfold tally_put, JS.obj_set. rewrite <- Ht.
  destruct (String.eqb (b_text b) "__proto__"); [done|].
  apply obj_alike_put; [|done].
  fold (entries b) (entries b'). rewrite !entries_length. by rewrite Hc.
Qed.

Lemma obj_alike_get k o o' :
  obj_alike o o' →
  match JS.obj_get k o, JS.obj_get k o' with
  | Some v, Some v' => length (JS.split "," v) = length (JS.split "," v')
  | None, None => True
  | _, _ => False
  end.
Proof.
  induction 1 as [|[k0 v0] [k0' v0'] o o' [Hk Hl] _ IH]; [done|].
  simpl in *. subst k0'. by destruct (String.eqb k0 k).
Qed.

(** A hidden line only depends on the label and on the number of
    voters. *)
Lemma hidden_tally k o o' :
  obj_alike o o' →
  buildVoteTally true false o k = buildVoteTally true false o' k.
Proof.
  intros H. pose proof (obj_alike_get k o o' H) as Hget.
  unfold buildVoteTally.
  destruct (JS.obj_get k o) as [v|], (JS.obj_get k o') as [v'|];
    try done.
  rewrite !length_drop, Hget. done.
Qed.

Lemma hidden_results p q :
  anonymous p = true → anonymous q = true → isLocked q = isLocked p →
  Forall2 same_count (options p) (options q) →
  generateResults false q = generateResults false p.
Proof.
  intros Hp Hq Hl Hopts. rewrite !generateResults_unfold.
  unfold lock_line. rewrite Hl, Hp, Hq. f_equal.
  rewrite !collectVotes_options.
  assert (obj_alike (foldl tally_put [] (options p))
                    (foldl tally_put [] (options q))) as Halike
      by (apply obj_alike_tally; [done|constructor]).
  unfold JS.obj_keys. rewrite (obj_alike_keys _ _ Halike).
  apply omap_ext_Forall, Forall_forall. intros k _.
  symmetry. by apply hidden_tally.
Qed.

(** Every line of the public results of an anonymous poll is the lock
    line or a count, a label and the redaction token. *)
Lemma hidden_lines p :
  anonymous p = true →
  Forall (fun blk => blk = SectionBlock (Some ":lock:") ∨ hidden_line blk)
         (generateResults false p).
Proof.
  intros Hp. rewrite generateResults_unfold. apply Forall_app. split.
  - unfold lock_line. destruct (isLocked p); repeat constructor.
  - apply Forall_forall. intros blk (k & _ & Hk)%list_elem_of_omap.
    unfold buildVoteTally in Hk. rewrite Hp in Hk.
    destruct (JS.obj_get k _); [|done]. destruct (_ =? _)%nat; [done|].
    inversion Hk. right. by eexists _, _.
Qed.
End Anonymity.

(** C6, as the code has it.  In the public results of an anonymous poll
    the names are replaced by the redaction token: every line is the lock
    line or ["*<count>* <label> » ~HIDDEN~"], and the whole section is
    the same for any two anonymous polls whose options agree on the
    labels and on the number of voters, whoever the voters are.  With the
    identities revealed, the line of an option that is the last with its
    label (the label not being [__proto__]) contains [<@id>], hence the
    identifier, of every voter of the option. *)
Theorem anonymous_results p :
  anonymous p = true →
  Forall (fun blk => blk = SectionBlock (Some ":lock:") ∨ hidden_line blk)
         (generateResults false p)
  ∧ (∀ q, anonymous q = true → isLocked q = isLocked p →
          Forall2 same_count (options p) (options q) →
          generateResults false q = generateResults false p)
  ∧ (∀ front b back u,
        options p = front ++ b :: back →
        Forall (fun b' => b_text b' ≠ b_text b) back →
        b_text b ≠ "__proto__" → u ∈ voters b →
        ∃ line, SectionBlock (Some line) ∈ generateResults true p
                ∧ JS.includes (mention u) line = true
                ∧ JS.includes u line = true).
Proof.
  intros Hanon. split; [by apply hidden_lines|].
  split; [intros q Hq Hl Ho; by apply hidden_results|].
  intros front b back u Hopts Hback Hproto Hu.
  exists (result_text (anonymous p) true (b_text b) (voters b)).
  split; [|by apply result_text_mentions; [apply orb_true_r|]].
  rewrite generateResults_unfold. apply elem_of_app. right.
  apply list_elem_of_omap. exists (b_text b).
  assert (JS.obj_get (b_text b) (collectVotes p) = Some (b_value b)) as Hget.
  { rewrite collectVotes_options, Hopts. by apply tally_get_last. }
  split.
  - apply obj_keys_elem, obj_get_keys. by rewrite Hget.
  - rewrite (buildVoteTally_line _ _ _ _ _ Hget).
    destruct b as [t v]. apply option_line_some. simpl in *.
    by destruct (voters (mkButton t v)); [apply elem_of_nil in Hu|].
Qed.

Lemma anonymous_results_witness :
  let p := mkPoll (mention_blocks " ,U2,U4" ["*2* <@U2> » ~HIDDEN~"])
                  false true false in
  anonymous p = true
  ∧ Forall (fun blk => blk = SectionBlock (Some ":lock:") ∨ hidden_line blk)
           (generateResults false p)
  ∧ (∀ q, anonymous q = true → isLocked q = isLocked p →
          Forall2 same_count (options p) (options q) →
          generateResults false q = generateResults false p)
  ∧ (∀ front b back u,
        options p = front ++ b :: back →
        Forall (fun b' => b_text b' ≠ b_text b) back →
        b_text b ≠ "__proto__" → u ∈ voters b →
        ∃ line, SectionBlock (Some line) ∈ generateResults true p
                ∧ JS.includes (mention u) line = true
                ∧ JS.includes u line = true).
Proof.
  intros p. split; [reflexivity|]. apply (anonymous_results p). reflexivity.
Defined.

(** C6 as stated fails.  Option labels are free text and can mention a
    user: in the anonymous poll created from the lines "anon",
    "Who brings lunch?", "<@U2>", "<@U3>", once U2 voted for the first
    option, the public result line contains the identifier of its only
    voter. *)
Lemma anonymous_results_counterexample :
  let b1 := mention_blocks " ,U2" ["*1* <@U2> » ~HIDDEN~"] in
  createPoll "<@U1>" ["anon"; "Who brings lunch?"; "<@U2>"; "<@U3>"]
  = Some (mention_blocks " " [])
  ∧ applyVote (mention_blocks " " []) "<@U2>" "U2" = Some b1
  ∧ Poll_new b1 = Some (mkPoll b1 false true false)
  ∧ (voters <$> options (mkPoll b1 false true false)) = [["U2"]; []]
  ∧ generateResults false (mkPoll b1 false true false)
    = [SectionBlock (Some "*1* <@U2> » ~HIDDEN~")]
  ∧ JS.includes "U2" "*1* <@U2> » ~HIDDEN~" = true.
Proof. intros b1. repeat split; vm_compute; reflexivity. Qed.

(** A label [__proto__] never reaches the tally: the assignment to that
    key of a plain object is dropped, so the option gets no result line
    even when it has a voter. *)
Example proto_label_has_no_line :
  let blocks v := poll_blocks "Lunch?" [[mkButton "__proto__" v]] [] in
  createPoll "<@U1>" ["Lunch?"; "__proto__"] = Some (blocks " ")
  ∧ applyVote (blocks " ") "__proto__" "U2" = Some (blocks " ,U2")
  ∧ (voters <$> message_buttons (blocks " ,U2")) = [["U2"]]
  ∧ result_texts (blocks " ,U2") = [].
Proof. intros blocks. repeat split; vm_compute; reflexivity. Qed.

(** ** Voting twice *)

Section VoteTwice.
Implicit Types (b : Button) (u l : string).

Lemma voters_entries u b : u ∈ voters b → u ∈ entries b.
Proof. unfold voters. apply subseteq_drop. Qed.

Lemma entries_char_free b :
  Forall (fun w => has_char "," w = false) (entries b).
Proof. apply split_char_free. Qed.

Lemma entries_remove_vote u b :
  remove_first u (entries b) ≠ [] →
  entries (remove_vote u b) = remove_first u (entries b).
Proof.
  intros H. unfold remove_vote, entries at 1. simpl.
  apply entries_join; [done|]. apply remove_first_char_free, entries_char_free.
Qed.

(** Once a vote is taken out, the user is no longer among the voters. *)
Lemma remove_vote_voters u b :
  (occurrences u (entries b) ≤ 1)%nat → u ∉ voters (remove_vote u b).
Proof.
  intros Honce Hu. apply voters_entries in Hu as Hin.
  destruct (remove_first u (entries b)) as [|w ws] eqn:Hrem.
  - unfold voters, entries, remove_vote in Hu. fold (entries b) in Hu.
    rewrite Hrem in Hu. simpl in Hu. by apply elem_of_nil in Hu.
  - rewrite entries_remove_vote in Hin by (by rewrite Hrem).
    by apply remove_first_once in Hin.
Qed.

Lemma entries_add t u b :
  comma_free u →
  entries (mkButton t (b_value b +:+ "," +:+ u)) = entries b ++ [u].
Proof.
  intros Hu. unfold entries. simpl.
  change (b_value b +:+ "," +:+ u) with (b_value b +:+ String "," u).
  by rewrite split_app, (split_char_free_id _ u).
Qed.

Lemma remove_vote_empty u b :
  remove_first u (entries b) = [] → remove_vote u b = mkButton (b_text b) "".
Proof. unfold remove_vote. by intros ->. Qed.

(** The callback of [vote] changes nothing when it meets a button a
    second time. *)
Lemma vote_button_idem m l u b :
  comma_free u → (m = false → (occurrences u (entries b) ≤ 1)%nat) →
  vote_button m l u (vote_button m l u b) = vote_button m l u b.
Proof.
  intros Hu Honce.
  destruct (decide (u ∈ entries b)) as [Hin|Hin].
  - assert (m = true ∨ b_text b = l → vote_button m l u b = b) as Hkeep.
    { intros H. apply vote_button_keep; [|by left].
      destruct H; [by left|by right; right]. }
    destruct m; [by rewrite !Hkeep by (by left)|].
    destruct (decide (b_text b = l)) as [Hl|Hl];
      [by rewrite !Hkeep by (by right)|].
    clear Hkeep. rewrite (vote_button_move l u b) by done.
    destruct (remove_first u (entries b)) as [|w ws] eqn:Hrem.
    + rewrite remove_vote_empty by done.
      destruct (decide (u = "")) as [->|Hne].
      * by rewrite vote_button_move by (by repeat constructor).
      * apply vote_button_keep; [right; left|by right].
        by intros ->%list_elem_of_singleton.
    + apply vote_button_keep; [right; left|by right].
      rewrite entries_remove_vote by (by rewrite Hrem).
      by apply remove_first_once, Honce.
  - destruct (decide (b_text b = l)) as [Hl|Hl].
    + rewrite (vote_button_add m l u b) by done.
      apply vote_button_keep; [by right; right|left].
      rewrite entries_add by done. apply elem_of_app. right. by left.
    + assert (vote_button m l u b = b) as Hkeep
          by (apply vote_button_keep; [by right; left|by right]).
      by rewrite !Hkeep.
Qed.

Lemma map_block_idem (f : Button → Button) blk :
  Forall (fun b => f (f b) = f b) (block_buttons blk) →
  map_block f (map_block f blk) = map_block f blk.
Proof.
  destruct blk as [| |els| |]; try done. simpl. intros H. f_equal.
  induction els as [|[b|ph os] els IH]; [done| |].
  - inversion_clear H as [|? ? Hb Hels]. csimpl. by rewrite Hb, IH.
  - csimpl. by rewrite IH.
Qed.

Lemma option_blocks_buttons msg blk b :
  blk ∈ option_blocks msg → b ∈ block_buttons blk → b ∈ message_buttons msg.
Proof.
  intros Hblk Hb. unfold message_buttons. apply list_elem_of_bind. eauto.
Qed.
End VoteTwice.

(** A second [vote] with the same user and label changes nothing, in
    either mode, when the identifier has no comma and, in single-choice
    mode, occurs at most once in each votes string. *)
Lemma vote_twice p l u :
  isLocked p = false → comma_free u →
  (multiple p = false →
   Forall (fun b => (occurrences u (entries b) ≤ 1)%nat) (options p)) →
  vote (vote p l u) l u = vote p l u.
Proof.
  intros Hunlocked Hu Honce.
  destruct (vote_flags p l u) as (Hm & _ & Hl).
  rewrite (vote_unlocked (vote p l u)) by (by rewrite Hl).
  rewrite Hm, (vote_unlocked p) by done.
  apply (rewrite_idem (map_block (vote_button (multiple p) l u))).
  - intros [] H; try done. by destruct (H elements).
  - intros els. by eexists.
  - apply Forall_forall. intros blk Hblk. apply map_block_idem.
    apply Forall_forall. intros b Hb. apply vote_button_idem; [done|].
    intros Hsingle. specialize (Honce Hsingle).
    rewrite Forall_forall in Honce. apply Honce.
    by eapply option_blocks_buttons.
Qed.

(** C8.  Clicking again the option one has voted for changes nothing.  For
    every unlocked single-choice poll in which the user occurs at most
    once in the votes string of each option, and every user identifier
    without a comma, the poll after [vote] with a label is left as it is
    by a second [vote] with the same user and the same label: the block
    sequences after the first and after the second call are identical. *)
Theorem vote_idempotent p l u :
  multiple p = false → isLocked p = false → comma_free u →
  Forall (fun b => (occurrences u (entries b) ≤ 1)%nat) (options p) →
  vote (vote p l u) l u = vote p l u
  ∧ getBlocks (vote (vote p l u) l u) = getBlocks (vote p l u).
Proof.
  intros Hsingle Hunlocked Hu Honce.
  assert (vote (vote p l u) l u = vote p l u) as Hidem
      by (by apply vote_twice).
  by rewrite Hidem.
Qed.

Lemma vote_idempotent_witness :
  let p := mkPoll (twin_blocks " ,U2" " ,U3" ["*1* Pizza » <@U3>"])
                  false false false in
  multiple p = false ∧ isLocked p = false ∧ comma_free "U2"
  ∧ Forall (fun b => (occurrences "U2" (entries b) ≤ 1)%nat) (options p)
  ∧ vote (vote p "Pizza" "U2") "Pizza" "U2" = vote p "Pizza" "U2"
  ∧ getBlocks (vote (vote p "Pizza" "U2") "Pizza" "U2")
    = getBlocks (vote p "Pizza" "U2").
Proof.
  intros p.
  assert (Forall (fun b => (occurrences "U2" (entries b) ≤ 1)%nat) (options p))
    as Honce by by_evaluation.
  split; [reflexivity|]. split; [reflexivity|]. split; [reflexivity|].
  split; [exact Honce|].
  exact (vote_idempotent p "Pizza" "U2" eq_refl eq_refl eq_refl Honce).
Defined.

(** ** Changing one's vote *)

Section ChangeVote.
Implicit Types (b : Button) (u l : string) (p : Poll).

Lemma vote_labels m l u (bs : list Button) :
  b_text <$> (vote_button m l u <$> bs) = b_text <$> bs.
Proof. rewrite <- list_fmap_compose. by apply list_fmap_ext. Qed.

Lemma omap_delete_none {A B} (f : A → option B) (l : list A) i x :
  l !! i = Some x → f x = None → omap f (delete i l) = omap f l.
Proof.
  revert i. induction l as [|y l IH]; intros [|i] Hi Hx; try done.
  - simpl in Hi. inversion Hi; subst. csimpl. by rewrite Hx.
  - csimpl. by rewrite (IH i).
Qed.

(** The voters that remain once the user's vote is taken out, when the
    user is among the voters and occurs once in the votes string. *)
Lemma remove_vote_voters_eq u b :
  u ∈ voters b → (occurrences u (entries b) ≤ 1)%nat →
  voters (remove_vote u b) = remove_first u (voters b).
Proof.
  intros Hu Honce. unfold voters in *.
  destruct (entries b) as [|h vs] eqn:He; [by apply elem_of_nil in Hu|].
  simpl in Hu. rewrite drop_0 in Hu.
  assert (h ≠ u) as Hh.
  { intros ->. rewrite occurrences_cons, decide_True in Honce by done.
    apply occurrences_zero in Hu; [done|lia]. }
  rewrite entries_remove_vote; rewrite He; simpl;
    destruct (String.eqb_spec h u); done.
Qed.

(** In single-choice mode no option other than the one voted for keeps
    the user. *)
Lemma vote_button_clears l u b :
  comma_free u → (occurrences u (entries b) ≤ 1)%nat → b_text b ≠ l →
  u ∉ voters (vote_button false l u b).
Proof.
  intros Hu Honce Hl. destruct (decide (u ∈ entries b)) as [Hin|Hin].
  - rewrite vote_button_move by done. by apply remove_vote_voters.
  - rewrite vote_button_keep; [|by right; left|by right].
    intros H. by apply voters_entries in H.
Qed.
End ChangeVote.

(** C2, as the code has it.  In an unlocked single-choice poll whose
    options carry pairwise distinct labels (none of them [__proto__]) and
    hold the user at most once each, let the user, whose identifier has no
    comma, have a vote on option A and none on option B.  [vote] with the
    label of B takes the user out of the voters of A and appends the user
    to the voters of B; afterwards B is the only option the user has a
    vote on, and the user occurs there once.  The result section then has
    one line per option with a voter: the line of B, which names the user
    when the poll is not anonymous and shows the redaction token when it
    is, and no line for A when A had no other voter. *)
Theorem vote_changes_option p u i j A B :
  isLocked p = false → multiple p = false →
  NoDup (b_text <$> options p) →
  Forall (fun b => b_text b ≠ "__proto__") (options p) →
  comma_free u →
  Forall (fun b => (occurrences u (entries b) ≤ 1)%nat) (options p) →
  options p !! i = Some A → options p !! j = Some B → i ≠ j →
  u ∈ voters A → JS.indexOf u (entries B) = -1 →
  let p' := vote p (b_text B) u in
  let A' := remove_vote u A in
  let B' := mkButton (b_text B) (b_value B +:+ "," +:+ u) in
  let lineB := result_text (anonymous p) false (b_text B) (voters B ++ [u]) in
  options p' !! i = Some A' ∧ options p' !! j = Some B'
  ∧ voters A' = remove_first u (voters A) ∧ (u ∉ voters A')
  ∧ voters B' = voters B ++ [u]
  ∧ (∀ k b, options p' !! k = Some b → u ∈ voters b → k = j)
  ∧ occurrences u (voters B') = 1%nat
  ∧ result_section (message p')
    ≡ₚ omap (option_line (anonymous p) false) (options p')
  ∧ SectionBlock (Some lineB) ∈ result_section (message p')
  ∧ (anonymous p = false → JS.includes (mention u) lineB = true)
  ∧ (anonymous p = true → names_of (anonymous p) false (voters B ++ [u])
                          = "~HIDDEN~")
  ∧ (voters A = [u] →
     option_line (anonymous p) false A' = None
     ∧ result_section (message p')
       ≡ₚ omap (option_line (anonymous p) false) (delete i (options p'))).
Proof.
  intros Hunlocked Hsingle Hnd Hproto Hu Honce HA HB Hij HuA HuB
         p' A' B' lineB.
  apply indexOf_none in HuB.
  assert (b_text A ≠ b_text B) as Hlabels.
  { intros Heq. apply Hij. eapply NoDup_lookup; [exact Hnd| |].
    - by rewrite list_lookup_fmap, HA.
    - by rewrite list_lookup_fmap, HB, Heq. }
  assert (options p' = vote_button false (b_text B) u <$> options p) as Hopts.
  { subst p'. by rewrite vote_options, Hsingle. }
  assert (options p' !! i = Some A') as HA'.
  { rewrite Hopts, list_lookup_fmap, HA. simpl.
    by rewrite vote_button_move by (by try apply voters_entries). }
  assert (options p' !! j = Some B') as HB'.
  { rewrite Hopts, list_lookup_fmap, HB. simpl.
    by rewrite (vote_button_add false (b_text B) u B). }
  assert ((occurrences u (entries A) ≤ 1)%nat) as HonceA.
  { rewrite Forall_forall in Honce. by eapply Honce, list_elem_of_lookup_2. }
  assert (voters B' = voters B ++ [u]) as HvB.
  { subst B'. by rewrite voters_after_add, split_char_free_id. }
  assert (u ∉ voters B) as HnB by (by intros ?%voters_entries).
  split; [done|]. split; [done|].
  split; [by apply remove_vote_voters_eq|].
  split; [by apply remove_vote_voters|]. split; [done|].
  split.
  { intros k b Hk Hb. destruct (decide (k = j)) as [|Hkj]; [done|].
    exfalso. rewrite Hopts, list_lookup_fmap in Hk.
    destruct (options p !! k) as [b0|] eqn:Hk0; [|done].
    simpl in Hk. inversion Hk; subst b. revert Hb.
    apply vote_button_clears; [done| |].
    - rewrite Forall_forall in Honce. by eapply Honce, list_elem_of_lookup_2.
    - intros Heq. apply Hkj. eapply NoDup_lookup; [exact Hnd| |].
      + by rewrite list_lookup_fmap, Hk0.
      + by rewrite list_lookup_fmap, HB, Heq. }
  split.
  { rewrite HvB, occurrences_app. apply occurrences_zero in HnB.
    rewrite HnB, occurrences_cons, decide_True by done. done. }
  assert (result_section (message p')
          ≡ₚ omap (option_line (anonymous p) false) (options p')) as Hres.
  { subst p'. rewrite vote_unlocked at 1 by done.
    rewrite generateVoteResults_section, <- vote_unlocked by done.
    rewrite generateResults_unfold. unfold lock_line.
    destruct (vote_flags p (b_text B) u) as (_ & Ha & Hl).
    rewrite Hl, Hunlocked, <- Ha. apply results_of_distinct.
    - by rewrite Hopts, vote_labels.
    - rewrite Hopts. apply Forall_fmap.
      eapply Forall_impl; [exact Hproto|]. by intros b. }
  assert (option_line (anonymous p) false B' = Some (SectionBlock (Some lineB)))
    as HlineB.
  { rewrite option_line_some; rewrite HvB; [done|]. by destruct (voters B). }
  split; [done|]. split.
  { rewrite Hres. apply list_elem_of_omap. exists B'.
    split; [by eapply list_elem_of_lookup_2|done]. }
  split.
  { intros Ha. subst lineB. rewrite Ha.
    destruct (result_text_mentions false false (b_text B) (voters B ++ [u]) u)
      as [Hm _]; [done| |done].
    apply elem_of_app. right. by left. }
  split; [by intros ->|].
  intros HvA.
  assert (option_line (anonymous p) false A' = None) as HlineA.
  { unfold option_line, A'. rewrite remove_vote_voters_eq, HvA by done.
    simpl. by rewrite String.eqb_refl. }
  split; [done|]. rewrite Hres. by erewrite omap_delete_none.
Qed.

Lemma vote_changes_option_witness :
  let p := mkPoll (poll_blocks "Lunch?"
                     [[mkButton "Pizza" " ,U2"; mkButton "Tacos" " ,U3"]]
                     ["*1* Pizza » <@U2>"; "*1* Tacos » <@U3>"])
                  false false false in
  let A := mkButton "Pizza" " ,U2" in
  let B := mkButton "Tacos" " ,U3" in
  let p' := vote p "Tacos" "U2" in
  options p' !! 0%nat = Some (mkButton "Pizza" " ")
  ∧ options p' !! 1%nat = Some (mkButton "Tacos" " ,U3,U2")
  ∧ (∀ k b, options p' !! k = Some b → "U2" ∈ voters b → k = 1%nat)
  ∧ SectionBlock (Some "*2* Tacos » <@U3>,<@U2>") ∈ result_section (message p')
  ∧ result_section (message p')
    ≡ₚ omap (option_line false false) (delete 0%nat (options p')).
Proof.
  intros p A B p'.
  assert (NoDup (b_text <$> options p)) as H1 by by_evaluation.
  assert (Forall (fun b => b_text b ≠ "__proto__") (options p)) as H2
      by by_evaluation.
  assert (Forall (fun b => (occurrences "U2" (entries b) ≤ 1)%nat) (options p))
    as H3 by by_evaluation.
  assert ("U2" ∈ voters A) as H4 by by_evaluation.
  destruct (vote_changes_option p "U2" 0%nat 1%nat A B
              eq_refl eq_refl H1 H2 eq_refl H3 eq_refl eq_refl
              (O_S 0) H4 eq_refl)
    as (HA & HB & _ & _ & _ & Honly & _ & _ & Hline & _ & _ & Hgone).
  split; [exact HA|]. split; [exact HB|]. split; [exact Honly|].
  split; [exact Hline|]. exact (proj2 (Hgone eq_refl)).
Defined.

(** C2 as stated fails for anonymous polls: the poll created from the
    lines "anon", "Lunch?", "Pizza", "Tacos" is single-choice, and after
    U2 voted for "Pizza" and then for "Tacos" the only result line shows
    the redaction token and does not mention the user. *)
Lemma vote_changes_option_counterexample :
  let b2 := anon_lunch_blocks " " " ,U2" ["*1* Tacos » ~HIDDEN~"] in
  createPoll "<@U1>" ["anon"; "Lunch?"; "Pizza"; "Tacos"]
  = Some (anon_lunch_blocks " " " " [])
  ∧ applyVote (anon_lunch_blocks " " " " []) "Pizza" "U2"
    = Some (anon_lunch_blocks " ,U2" " " ["*1* Pizza » ~HIDDEN~"])
  ∧ Poll_new (anon_lunch_blocks " ,U2" " " ["*1* Pizza » ~HIDDEN~"])
    = Some (mkPoll (anon_lunch_blocks " ,U2" " " ["*1* Pizza » ~HIDDEN~"])
                   false true false)
  ∧ applyVote (anon_lunch_blocks " ,U2" " " ["*1* Pizza » ~HIDDEN~"])
              "Tacos" "U2"
    = Some b2
  ∧ (voters <$> message_buttons b2) = [[]; ["U2"]]
  ∧ result_texts b2 = ["*1* Tacos » ~HIDDEN~"]
  ∧ Forall (fun t => JS.includes "U2" t = false) (result_texts b2).
Proof.
  intros b2. repeat (split; [vm_compute; reflexivity|]).
  vm_compute. by repeat constructor.
Qed.

(** ** Resetting one's vote *)

Section Reset.
Implicit Types (b : Button) (u : string) (m : bool) (g : list Button).

Lemma reset_callback_spec m u b :
  reset_callback m u b tt
  = if decide (u ∈ entries b) then (remove_vote u b, tt, negb m)
    else (b, tt, false).
Proof.
  unfold reset_callback, getVotesAndUserIndex. fold (entries b).
  pose proof (indexOf_none u (entries b)) as Hnone.
  destruct (decide (u ∈ entries b)) as [Hin|Hin].
  - destruct (Z.eqb_spec (JS.indexOf u (entries b)) (-1)) as [Heq|_];
      [by apply Hnone in Heq|].
    unfold remove_vote. by rewrite splice_indexOf.
  - apply Hnone in Hin. by rewrite Hin.
Qed.

Lemma scanElements_reset m u els :
  omap element_button (scanElements (reset_callback m u) els tt).1
  = reset_group m u (omap element_button els).
Proof.
  induction els as [|[b|ph os] els IH]; [by destruct m| |].
  - cbn [scanElements]. rewrite reset_callback_spec.
    destruct (scanElements (reset_callback m u) els tt) as [els' []] eqn:Hscan.
    simpl in IH. unfold reset_group in *. csimpl.
    destruct m; simpl; case_decide; rewrite ?Hscan; csimpl; by rewrite ?IH.
  - cbn [scanElements].
    destruct (scanElements (reset_callback m u) els tt) as [els' []] eqn:Hscan.
    by csimpl.
Qed.

Lemma reset_block_buttons m u blk :
  block_buttons (reset_block m u blk) = reset_group m u (block_buttons blk).
Proof.
  unfold reset_block. destruct blk as [| |els| |]; try (by destruct m).
  simpl. rewrite <- scanElements_reset.
  by destruct (scanElements (reset_callback m u) els tt).
Qed.

Lemma reset_block_keeps m u blk :
  (∀ els, blk ≠ ActionsBlock els) → reset_block m u blk = blk.
Proof. intros H. destruct blk; try done. by destruct (H elements). Qed.

Lemma reset_block_actions m u els :
  ∃ els', reset_block m u (ActionsBlock els) = ActionsBlock els'.
Proof.
  unfold reset_block. simpl.
  destruct (scanElements (reset_callback m u) els tt). by eexists.
Qed.

(** What happens to one group in single-choice mode: nothing when no
    option of the group holds the user, else the first option that holds
    the user loses it and the others are kept. *)
Lemma reset_first_spec u g :
  (Forall (fun b => u ∉ entries b) g ∧ reset_first u g = g)
  ∨ ∃ front b back,
      g = front ++ b :: back
      ∧ Forall (fun b' => u ∉ entries b') front ∧ u ∈ entries b
      ∧ reset_first u g = front ++ remove_vote u b :: back.
Proof.
  induction g as [|b g IH]; [left; by split|].
  simpl. case_decide as Hb.
  - right. by exists [], b, g.
  - destruct IH as [[Hall Heq]|(front & b0 & back & -> & Hfront & Hb0 & Heq)].
    + left. split; [by constructor|by rewrite Heq].
    + right. exists (b :: front), b0, back.
      split; [done|]. split; [by constructor|]. split; [done|].
      by rewrite Heq.
Qed.

Lemma reset_all_voters u g b :
  Forall (fun b' => (occurrences u (entries b') ≤ 1)%nat) g →
  b ∈ reset_all u g → u ∉ voters b.
Proof.
  intros Honce (b0 & -> & Hb0)%list_elem_of_fmap.
  rewrite Forall_forall in Honce. case_decide as Hin.
  - by apply remove_vote_voters, Honce.
  - intros H. by apply voters_entries in H.
Qed.
End Reset.

(** What [resetVote] does as the code stands.  It treats the option
    groups one by one, in order.  In single-choice mode it removes the
    user from the first option of the group that holds the user and
    leaves the rest of that group alone, then goes on with the next
    group: the [break] only leaves the scan of the current group.  In
    multiple-choice mode it removes the user from every option that
    holds the user, so that no option has the user as a voter afterwards
    when each held the user at most once.  In both modes the result
    section is regenerated from the options as they stand, whether or
    not a vote was removed. *)
Theorem resetVote_groups p u :
  option_groups (resetVote p u) = reset_group (multiple p) u <$> option_groups p
  ∧ (multiple p = false →
     ∀ g, g ∈ option_groups p →
       (Forall (fun b => u ∉ entries b) g ∧ reset_group (multiple p) u g = g)
       ∨ ∃ front b back,
           g = front ++ b :: back
           ∧ Forall (fun b' => u ∉ entries b') front ∧ u ∈ entries b
           ∧ reset_group (multiple p) u g = front ++ remove_vote u b :: back)
  ∧ (multiple p = true →
     Forall (fun b => (occurrences u (entries b) ≤ 1)%nat) (options p) →
     Forall (fun b => u ∉ voters b) (options (resetVote p u)))
  ∧ result_section (message (resetVote p u))
    = generateResults false (resetVote p u).
Proof.
  assert (option_groups (resetVote p u)
          = reset_group (multiple p) u <$> option_groups p) as Hgroups.
  { rewrite resetVote_unfold, generateVoteResults_groups.
    apply rewrite_groups.
    - apply reset_block_keeps.
    - apply reset_block_actions.
    - apply reset_block_buttons. }
  split; [done|]. split; [|split].
  - intros -> g _. apply reset_first_spec.
  - intros Hm Honce. apply Forall_forall. intros b.
    rewrite options_groups, Hgroups, Hm.
    intros (g' & Hb & (g & -> & Hg)%list_elem_of_fmap)%list_elem_of_bind.
    simpl in Hb. eapply reset_all_voters; [|exact Hb].
    apply Forall_forall. intros b0 Hb0. rewrite Forall_forall in Honce.
    apply Honce. rewrite options_groups. apply list_elem_of_bind. eauto.
  - rewrite resetVote_unfold. apply generateVoteResults_section.
Qed.

(** C4.  The code does not do what the claim says, and what its own
    comment announces: in single-choice mode the callback of [resetVote]
    asks to stop at the first removal ("why search the rest if we know
    they only have one vote?"), but the [break] of [processButtons] only
    leaves the scan of the current actions block.  In the single-choice
    poll created from the lines "Lunch?", "Pizza", "Salad", "Soup",
    "Tacos", "Pizza" the two "Pizza" options sit in different blocks;
    after U2 voted for "Pizza" both hold U2, and one call of [resetVote]
    removes both votes, where the claim allows one removal per call. *)
Lemma resetVote_removes_two_votes :
  let b1 := wide_blocks " ,U2" " ,U2" ["*1* Pizza » <@U2>"] in
  createPoll "<@U1>" ["Lunch?"; "Pizza"; "Salad"; "Soup"; "Tacos"; "Pizza"]
  = Some (wide_blocks " " " " [])
  ∧ applyVote (wide_blocks " " " " []) "Pizza" "U2" = Some b1
  ∧ Poll_new b1 = Some (mkPoll b1 false false false)
  ∧ (voters <$> message_buttons b1) = [["U2"]; []; []; []; ["U2"]]
  ∧ applyReset b1 "U2" = Some (wide_blocks " " " " [])
  ∧ (voters <$> message_buttons (wide_blocks " " " " []))
    = [[]; []; []; []; []].
Proof. intros b1. repeat split; vm_compute; reflexivity. Qed.

(** ** Locking *)

Lemma slice_from_prefix {A} (pre post : list A) :
  JS.slice_from (Z.of_nat (length pre)) (pre ++ post) = post.
Proof.
  unfold JS.slice_from, JS.clamp.
  destruct (Z.ltb_spec (Z.of_nat (length pre)) 0); [lia|].
  rewrite length_app, Z.min_l by lia. rewrite Nat2Z.id.
  apply drop_app_length.
Qed.

(** The blocks of a poll once it is locked: the control menu in front of
    the divider is replaced by one that offers to unlock, and the result
    section starts with the lock line. *)
Lemma lockPoll_message p pre post :
  message p = pre ++ DividerBlock :: post → no_divider post →
  (1 ≤ length pre)%nat →
  message (lockPoll p)
  = take (length pre - 1) pre
      ++ getDynamicSelect (with_locked p true)
      ++ DividerBlock :: generateResults false (with_locked p true).
Proof.
  intros Hm Hpost Hlen. unfold lockPoll.
  set (p1 := generateVoteResults (with_locked p true)).
  assert (message p1
          = pre ++ DividerBlock :: generateResults false (with_locked p true))
    as Hm1 by (by eapply generateVoteResults_at).
  cbn [message with_message]. rewrite Hm1.
  rewrite getDividerId_at by apply generateResults_no_divider.
  rewrite slice_prefix by lia. rewrite slice_from_prefix.
  rewrite take_app_le by lia.
  replace (Z.to_nat (Z.of_nat (length pre) - 1)) with (length pre - 1)%nat
    by lia.
  done.
Qed.

(** Lock gating.  A poll whose message has its divider behind at least two
    blocks and a title decodes, once locked, as a locked poll, and a vote
    on the blocks of the locked poll hands them back unchanged. *)
Lemma lockPoll_gates p pre post title l u :
  message p = pre ++ DividerBlock :: post → no_divider post →
  (2 ≤ length pre)%nat → getTitleFromMsg (message p) = Some title →
  ∃ p', Poll_new (getBlocks (lockPoll p)) = Some p'
        ∧ isLocked p' = true
        ∧ applyVote (getBlocks (lockPoll p)) l u = Some (getBlocks (lockPoll p)).
Proof.
  intros Hm Hpost Hlen Htitle.
  assert (∃ p', Poll_new (getBlocks (lockPoll p)) = Some p'
                ∧ isLocked p' = true) as (p' & Hnew & Hlocked).
  { unfold getBlocks. erewrite lockPoll_message by (done || lia).
    rewrite generateResults_unfold. unfold lock_line. cbn [isLocked with_locked].
    set (lines := omap _ _).
    change ([SectionBlock (Some ":lock:")] ++ lines)
      with (SectionBlock (Some ":lock:") :: lines).
    set (front := take (length pre - 1) pre
                    ++ getDynamicSelect (with_locked p true)).
    rewrite app_assoc. fold front.
    assert (no_divider (SectionBlock (Some ":lock:") :: lines)) as Hno.
    { pose proof (generateResults_no_divider false (with_locked p true)) as H.
      by rewrite generateResults_unfold in H. }
    destruct pre as [|b0 [|b1 pre]]; [simpl in Hlen; lia..|].
    rewrite Hm in Htitle. unfold getTitleFromMsg in Htitle. simpl in Htitle.
    unfold Poll_new, checkIfMsgContains, getTitleFromMsg.
    rewrite getDividerId_at by done.
    assert ((front ++ DividerBlock :: SectionBlock (Some ":lock:") :: lines)
              !! 0%nat = Some b0) as ->.
    { by subst front. }
    change (Some b0 ≫= block_text) with (block_text b0). rewrite Htitle.
    cbn [mbind option_bind fmap option_fmap option_map].
    rewrite (at_after_divider front). cbn [mbind option_bind block_text].
    destruct (Z.eqb_spec
                (Z.of_nat (length (front ++ DividerBlock
                                     :: SectionBlock (Some ":lock:") :: lines)) - 1)
                (Z.of_nat (length front))) as [Heq|_].
    { rewrite length_app in Heq. simpl in Heq. lia. }
    eexists. split; [reflexivity|done]. }
  exists p'. split; [done|]. split; [done|].
  by apply (applyVote_locked _ p').
Qed.

(** ** Reachable polls *)

Section Tidy.
Implicit Types (b : Button) (u l : string) (blk : KnownBlock)
         (msg : list KnownBlock) (p : Poll).

Lemma remove_first_NoDup u (es : list string) :
  NoDup es → NoDup (remove_first u es).
Proof.
  induction 1 as [|e es He Hes IH]; simpl; [constructor|].
  destruct (String.eqb_spec e u); [done|]. constructor; [|done].
  intros Hin. by apply remove_first_other in Hin.
Qed.

Lemma remove_vote_NoDup u b :
  NoDup (entries b) → NoDup (entries (remove_vote u b)).
Proof.
  intros H. destruct (remove_first u (entries b)) as [|w ws] eqn:Hrem.
  - rewrite remove_vote_empty by done. apply NoDup_singleton.
  - rewrite entries_remove_vote by (by rewrite Hrem).
    by apply remove_first_NoDup.
Qed.

Lemma vote_button_NoDup m l u b :
  comma_free u → NoDup (entries b) → NoDup (entries (vote_button m l u b)).
Proof.
  intros Hu Hb.
  destruct (decide (u ∈ entries b)) as [Hin|Hin],
    (decide (b_text b = l)) as [Hl|Hl], m;
    try (by rewrite vote_button_keep by auto).
  - rewrite vote_button_move by done. by apply remove_vote_NoDup.
  - rewrite (vote_button_add _ l u b), entries_add by done.
    apply NoDup_app. split; [done|]. split; [|apply NoDup_singleton].
    by intros x Hx ->%list_elem_of_singleton.
  - rewrite (vote_button_add _ l u b), entries_add by done.
    apply NoDup_app. split; [done|]. split; [|apply NoDup_singleton].
    by intros x Hx ->%list_elem_of_singleton.
Qed.

Lemma reset_group_NoDup m u (g : list Button) :
  Forall (fun b => NoDup (entries b)) g →
  Forall (fun b => NoDup (entries b)) (reset_group m u g).
Proof.
  intros H. destruct m; simpl.
  - apply Forall_fmap. eapply Forall_impl; [done|]. intros b Hb. simpl.
    case_decide; [by apply remove_vote_NoDup|done].
  - induction H as [|b g Hb Hg IH]; simpl; [constructor|].
    case_decide; constructor; auto using remove_vote_NoDup.
Qed.

Lemma tidy_vote_block m l u blk :
  comma_free u → tidy_block blk →
  tidy_block (map_block (vote_button m l u) blk).
Proof.
  intros Hu H. unfold tidy_block. rewrite block_buttons_map.
  apply Forall_fmap. eapply Forall_impl; [done|].
  intros b Hb. by apply vote_button_NoDup.
Qed.

Lemma tidy_reset_block m u blk :
  tidy_block blk → tidy_block (reset_block m u blk).
Proof.
  intros H. unfold tidy_block. rewrite reset_block_buttons.
  by apply reset_group_NoDup.
Qed.

Lemma tidy_rewrite (F : KnownBlock → KnownBlock) msg :
  (∀ blk, tidy_block blk → tidy_block (F blk)) →
  tidy msg → tidy (rewrite_from2 F msg).
Proof.
  intros HF H. apply Forall_app. split; [by apply Forall_take|].
  apply Forall_fmap. eapply Forall_impl; [by apply Forall_drop|]. done.
Qed.

Lemma tidy_slice a z msg : tidy msg → tidy (JS.slice a z msg).
Proof. intros H. unfold JS.slice. by apply Forall_take, Forall_drop. Qed.

Lemma tidy_slice_from a msg : tidy msg → tidy (JS.slice_from a msg).
Proof. intros H. unfold JS.slice_from. by apply Forall_drop. Qed.

Lemma tidy_results reveal p : tidy (generateResults reveal p).
Proof.
  eapply Forall_impl; [apply generateResults_sections|].
  intros blk [t ->]. constructor.
Qed.

Lemma tidy_generateVoteResults p :
  tidy (message p) → tidy (message (generateVoteResults p)).
Proof.
  intros H. unfold generateVoteResults. simpl.
  apply Forall_app. split; [by apply tidy_slice|apply tidy_results].
Qed.

Lemma tidy_select p : tidy (getDynamicSelect p).
Proof. repeat constructor. Qed.

Lemma tidy_vote p l u :
  comma_free u → tidy (message p) → tidy (message (vote p l u)).
Proof.
  intros Hu H. destruct (isLocked p) eqn:Hl.
  - by rewrite vote_locked.
  - rewrite vote_unlocked by done. apply tidy_generateVoteResults. simpl.
    apply tidy_rewrite; [|done]. intros blk. by apply tidy_vote_block.
Qed.

Lemma tidy_resetVote p u : tidy (message p) → tidy (message (resetVote p u)).
Proof.
  intros H. rewrite resetVote_unfold. apply tidy_generateVoteResults. simpl.
  apply tidy_rewrite; [|done]. intros blk. apply tidy_reset_block.
Qed.

Lemma tidy_lockPoll p : tidy (message p) → tidy (message (lockPoll p)).
Proof.
  intros H. unfold lockPoll. cbn [message with_message].
  assert (tidy (message (generateVoteResults (with_locked p true)))) as H1
      by (by apply tidy_generateVoteResults).
  apply Forall_app. split; [by apply tidy_slice|].
  apply Forall_app. split; [apply tidy_select|by apply tidy_slice_from].
Qed.

Lemma tidy_unlockpoll p : tidy (message p) → tidy (message (unlockpoll p)).
Proof.
  intros H. unfold unlockpoll. cbn [message with_message with_locked].
  apply Forall_app. split; [by apply tidy_slice|].
  apply Forall_app. split; [apply tidy_select|].
  apply Forall_app. split; [repeat constructor|by apply tidy_slice_from].
Qed.
End Tidy.

Section Created.
Implicit Types (e : Element) (g : list Element) (blocks : list (list Element)).

Lemma push_last_unvoted blocks l :
  Forall unvoted blocks →
  Forall unvoted (PollHelpers.push_last blocks (EButton (mkButton l " "))).
Proof.
  intros H. unfold PollHelpers.push_last.
  apply Forall_reverse in H. destruct (reverse blocks) as [|last front];
    [constructor|].
  inversion_clear H as [|? ? Hlast Hfront].
  apply Forall_app. split; [by apply Forall_reverse|].
  constructor; [|constructor]. apply Forall_app. split; [done|].
  constructor; [by eexists|constructor].
Qed.

Lemma buildVoteOptions_loop_unvoted i labels blocks :
  Forall unvoted blocks →
  Forall unvoted (PollHelpers.buildVoteOptions_loop i labels blocks).
Proof.
  revert i blocks. induction labels as [|l labels IH]; intros i blocks H;
    [done|].
  simpl. apply IH, push_last_unvoted.
  destruct (_ =? _)%nat; [|done].
  apply Forall_app. split; [done|]. by repeat constructor.
Qed.

Lemma unvoted_tidy g : unvoted g → tidy_block (ActionsBlock g).
Proof.
  unfold tidy_block. simpl. induction 1 as [|e g [l ->] _ IH]; csimpl;
    [constructor|].
  constructor; [apply NoDup_singleton|done].
Qed.

Lemma buildVoteOptions_tidy parameters start :
  tidy (PollHelpers.buildVoteOptions parameters start).
Proof.
  unfold PollHelpers.buildVoteOptions. apply Forall_fmap.
  eapply Forall_impl.
  - apply buildVoteOptions_loop_unvoted. by repeat constructor.
  - intros g. apply unvoted_tidy.
Qed.
End Created.

Lemma slashCreate_tidy author parameters p :
  slashCreate author parameters = Some p → tidy (message p).
Proof.
  destruct parameters as [|line0 rest]; [done|].
  destruct (slashCreate_blocks author line0 rest) as [start ->].
  rewrite Poll_new_fresh. intros [= <-]. cbn [message].
  constructor; [constructor|]. constructor; [constructor|].
  apply Forall_app. split; [|repeat constructor].
  apply Forall_app. split; [apply buildVoteOptions_tidy|repeat constructor].
Qed.

(** In every reachable poll no votes string holds an entry twice. *)
Lemma reachable_tidy p : reachable p → tidy (message p).
Proof.
  induction 1 as [author parameters p Hcreate|p p' _ IH Hnew|p l u _ IH Hu
                  |p u _ IH|p _ IH|p _ IH].
  - by eapply slashCreate_tidy.
  - by rewrite (Poll_new_message _ _ Hnew).
  - by apply tidy_vote.
  - by apply tidy_resetVote.
  - by apply tidy_lockPoll.
  - by apply tidy_unlockpoll.
Qed.

Lemma NoDup_occurrences u (es : list string) :
  NoDup es → (occurrences u es ≤ 1)%nat.
Proof.
  induction 1 as [|e es He _ IH]; [unfold occurrences; simpl; lia|].
  rewrite occurrences_cons. case_decide as Heq; [|lia].
  subst. apply occurrences_zero in He. lia.
Qed.

(** The data-model invariant the vote engine relies on: in a reachable
    poll an identifier occurs at most once in the votes string of each
    option. *)
Lemma reachable_votes_once p u :
  reachable p →
  Forall (fun b => (occurrences u (entries b) ≤ 1)%nat) (options p).
Proof.
  intros Hp%reachable_tidy. apply Forall_forall. intros b Hb.
  apply NoDup_occurrences.
  apply list_elem_of_bind in Hb as (blk & Hb & Hblk).
  unfold option_blocks in Hblk.
  apply subseteq_drop, subseteq_take in Hblk.
  unfold tidy in Hp. rewrite Forall_forall in Hp.
  specialize (Hp blk Hblk). unfold tidy_block in Hp.
  rewrite Forall_forall in Hp. by apply Hp.
Qed.

(** Voting twice on a reachable poll. *)
Lemma reachable_vote_twice p l u :
  reachable p → multiple p = false → isLocked p = false → comma_free u →
  vote (vote p l u) l u = vote p l u.
Proof.
  intros Hp Hsingle Hunlocked Hu. apply vote_twice; try done.
  intros _. by apply reachable_votes_once.
Qed.

(** ** Voting across requests *)

Lemma tally_line_not_lock anon reveal votes k blk :
  buildVoteTally anon reveal votes k = Some blk →
  ∃ t, blk = SectionBlock (Some (String "*" t)).
Proof.
  unfold buildVoteTally. destruct (JS.obj_get k votes); [|done].
  destruct (_ =? _)%nat; [done|]. intros [= <-]. by eexists.
Qed.

Lemma rewrite_from2_head (F : KnownBlock → KnownBlock) msg :
  rewrite_from2 F msg !! 0%nat = msg !! 0%nat.
Proof. by destruct msg as [|a [|b msg]]. Qed.

(** The blocks handed back by a vote on an unlocked poll decode to the
    poll the vote produced. *)
Lemma vote_decodes msg p l u pre post :
  Poll_new msg = Some p → isLocked p = false →
  msg = pre ++ DividerBlock :: post → no_divider post → (1 ≤ length pre)%nat →
  Poll_new (getBlocks (vote p l u)) = Some (vote p l u).
Proof.
  intros Hnew Hunlocked Hmsg Hpost Hlen.
  pose proof (Poll_new_message _ _ Hnew) as Hm.
  destruct (Poll_new_flags _ _ Hnew) as (title & Htitle & Hmul & Han).
  set (F := map_block (vote_button (multiple p) l u)).
  assert (∀ blk, (∀ els, blk ≠ ActionsBlock els) → F blk = blk) as HF1.
  { intros [] H; try done. by destruct (H elements). }
  assert (∀ els, ∃ els', F (ActionsBlock els) = ActionsBlock els') as HF2.
  { intros els. by eexists. }
  destruct (rewrite_at F HF1 HF2 pre post Hpost) as (post' & Hrw & Hpost').
  assert (message (vote p l u)
          = rewrite_from2 F pre ++ DividerBlock :: generateResults false (vote p l u))
    as Hmv.
  { rewrite (vote_unlocked p) at 1 by done.
    erewrite generateVoteResults_at;
      [|simpl; rewrite Hm, Hmsg; exact Hrw|done].
    by rewrite <- (generateVoteResults_results false), <- vote_unlocked. }
  destruct (vote_flags p l u) as (Hvm & Hva & Hvl).
  assert (vote p l u
          = mkPoll (message (vote p l u)) (multiple p) (anonymous p) false)
    as Hrecord.
  { destruct (vote p l u) as [m' mu' an' lo']. simpl in *. congruence. }
  rewrite Hrecord at 2. unfold getBlocks. rewrite Hmv.
  unfold Poll_new, checkIfMsgContains, getTitleFromMsg.
  assert ((rewrite_from2 F pre ++ DividerBlock :: generateResults false (vote p l u))
            !! 0%nat = msg !! 0%nat) as ->.
  { rewrite Hmsg, !lookup_app_l, rewrite_from2_head; [done|lia|].
    unfold rewrite_from2. rewrite length_app, length_fmap, length_take, length_drop.
    lia. }
  unfold getTitleFromMsg in Htitle. rewrite Htitle.
  cbn [fmap option_fmap option_map mbind option_bind].
  rewrite getDividerId_at by apply generateResults_no_divider.
  rewrite <- Hmul, <- Han.
  pose proof (generateResults_unfold false (vote p l u)) as Hres.
  unfold lock_line in Hres. rewrite Hvl, Hunlocked in Hres. simpl in Hres.
  destruct (generateResults false (vote p l u)) as [|r R] eqn:HR.
  - destruct (Z.eqb_spec
                (Z.of_nat (length (rewrite_from2 F pre ++ [DividerBlock])) - 1)
                (Z.of_nat (length (rewrite_from2 F pre)))) as [_|Hne];
      [done|]. rewrite length_app in Hne. simpl in Hne. lia.
  - destruct (Z.eqb_spec
                (Z.of_nat (length (rewrite_from2 F pre ++ DividerBlock :: r :: R)) - 1)
                (Z.of_nat (length (rewrite_from2 F pre)))) as [Heq|_].
    { rewrite length_app in Heq. simpl in Heq. lia. }
    rewrite at_after_divider.
    assert (r ∈ r :: R) as Hr by left. rewrite Hres in Hr.
    apply list_elem_of_omap in Hr as (k & _ & Hk).
    apply tally_line_not_lock in Hk as [t ->]. done.
Qed.

(** Clicking the same option in two successive requests: the second
    request hands back the blocks it received. *)
Lemma applyVote_twice blocks l u b1 pre post :
  blocks = pre ++ DividerBlock :: post → no_divider post →
  (1 ≤ length pre)%nat → comma_free u →
  Forall (fun b => (occurrences u (entries b) ≤ 1)%nat) (message_buttons blocks) →
  applyVote blocks l u = Some b1 → applyVote b1 l u = Some b1.
Proof.
  intros Hblocks Hpost Hlen Hu Honce. unfold applyVote at 1.
  destruct (Poll_new blocks) as [p|] eqn:Hnew; [|done]. simpl.
  intros [= <-]. destruct (isLocked p) eqn:Hlocked.
  - rewrite vote_locked by done. unfold getBlocks.
    rewrite (Poll_new_message _ _ Hnew). by apply (applyVote_locked _ p).
  - unfold applyVote. erewrite vote_decodes by done. simpl.
    rewrite vote_twice; [done..|]. intros _. unfold options.
    by rewrite (Poll_new_message _ _ Hnew).
Qed.

(** * Further properties of the poll and of the request handlers *)

(** ** The last divider *)

Lemma no_divider_elem msg : no_divider msg ↔ DividerBlock ∉ msg.
Proof.
  unfold no_divider. rewrite Forall_forall. split.
  - intros H Hin. by apply (H _ Hin).
  - intros H b Hb ->. done.
Qed.

(** X1. [getDividerId] answers [-1] exactly when the message has no
    divider; otherwise it answers the position of a divider behind which
    no other divider stands.  The answer always lies between [-1] and
    the last position of the message. *)
Theorem getDividerId_last_divider msg :
  (getDividerId msg = -1 ↔ DividerBlock ∉ msg)
  ∧ (∀ i : nat, getDividerId msg = Z.of_nat i →
       msg !! i = Some DividerBlock
       ∧ ∀ j : nat, (i < j)%nat → msg !! j ≠ Some DividerBlock)
  ∧ -1 ≤ getDividerId msg < Z.of_nat (length msg).
Proof.
  destruct (divider_cases msg) as [Hno|(pre & post & -> & Hpost)].
  - rewrite getDividerId_none by done. split; [|split; [|lia]].
    + split; [intros _; by apply no_divider_elem|done].
    + intros i Hi. lia.
  - rewrite getDividerId_at by done. split; [|split].
    + split; [lia|]. intros H. destruct H. apply elem_of_app. right. left.
    + intros i Hi. apply Nat2Z.inj in Hi. subst i. split.
      * by rewrite list_lookup_middle.
      * intros j Hj Hlook.
        rewrite lookup_app_r in Hlook by lia.
        destruct (j - length pre)%nat as [|k] eqn:Hk; [lia|].
        simpl in Hlook. apply no_divider_elem in Hpost. apply Hpost.
        by eapply list_elem_of_lookup_2.
    + rewrite length_app. simpl. lia.
Qed.

(** ** What a vote and a reset leave alone *)

Section Untouched.
Implicit Types (p : Poll) (b : Button) (l u v : string) (m : bool)
         (g : list Button).

Lemma resetVote_option_groups p u :
  option_groups (resetVote p u) = reset_group (multiple p) u <$> option_groups p.
Proof.
  rewrite resetVote_unfold, generateVoteResults_groups.
  apply rewrite_groups.
  - apply reset_block_keeps.
  - apply reset_block_actions.
  - apply reset_block_buttons.
Qed.

Lemma resetVote_options p u :
  options (resetVote p u) = option_groups p ≫= reset_group (multiple p) u.
Proof.
  rewrite resetVote_unfold, generateVoteResults_options.
  apply rewrite_options.
  - apply reset_block_keeps.
  - apply reset_block_actions.
  - apply reset_block_buttons.
Qed.

(** Two option lists that agree option by option. *)
Lemma Forall2_bind_groups (R : Button → Button → Prop)
      (G : list Button → list Button) (gs : list (list Button)) :
  (∀ g, g ∈ gs → Forall2 R g (G g)) → Forall2 R (gs ≫= id) (gs ≫= G).
Proof.
  intros HG. induction gs as [|g gs IH]; [constructor|].
  rewrite !bind_cons. apply Forall2_app; [apply HG; left|].
  apply IH. intros g' Hg'. apply HG. by right.
Qed.

Lemma reset_group_pointwise (R : Button → Button → Prop) m u g :
  (∀ b, R b b) → (∀ b, b ∈ g → u ∈ entries b → R b (remove_vote u b)) →
  Forall2 R g (reset_group m u g).
Proof.
  intros Hrefl Hrem. destruct m; simpl.
  - induction g as [|b g IH]; csimpl; [constructor|].
    constructor.
    + case_decide; [apply Hrem; [left|done]|done].
    + apply IH. intros b' Hb'. apply Hrem. by right.
  - induction g as [|b g IH]; simpl; [constructor|].
    case_decide.
    + constructor; [apply Hrem; [left|done]|].
      by apply Forall_Forall2_diag, Forall_true.
    + constructor; [done|]. apply IH. intros b' Hb'. apply Hrem. by right.
Qed.

Lemma resetVote_pointwise (R : Button → Button → Prop) p u :
  (∀ b, R b b) →
  (∀ b, b ∈ options p → u ∈ entries b → R b (remove_vote u b)) →
  Forall2 R (options p) (options (resetVote p u)).
Proof.
  intros Hrefl Hrem. rewrite resetVote_options, options_groups.
  apply Forall2_bind_groups. intros g Hg. apply reset_group_pointwise; [done|].
  intros b Hb. apply Hrem. rewrite options_groups.
  apply list_elem_of_bind. by exists g.
Qed.

Lemma vote_pointwise (R : Button → Button → Prop) p l u :
  (∀ b, R b b) →
  (∀ b, b ∈ options p → R b (vote_button (multiple p) l u b)) →
  Forall2 R (options p) (options (vote p l u)).
Proof.
  intros Hrefl Hvote. destruct (isLocked p) eqn:Hl.
  - rewrite vote_locked by done. by apply Forall_Forall2_diag, Forall_true.
  - rewrite vote_options by done.
    apply Forall2_fmap_r, Forall_Forall2_diag, Forall_forall. auto.
Qed.

Lemma labels_vote p l u :
  (b_text <$> options (vote p l u)) = (b_text <$> options p).
Proof.
  symmetry. apply list_eq_Forall2, Forall2_fmap.
  by apply (vote_pointwise (fun b b' => b_text b = b_text b')).
Qed.

Lemma labels_resetVote p u :
  (b_text <$> options (resetVote p u)) = (b_text <$> options p).
Proof.
  symmetry. apply list_eq_Forall2, Forall2_fmap.
  by apply (resetVote_pointwise (fun b b' => b_text b = b_text b')).
Qed.

(** X9. The labels of the options, in order, are the same after a vote
    and after a reset. *)
Theorem labels_never_change p l u :
  (b_text <$> options (vote p l u)) = (b_text <$> options p)
  ∧ (b_text <$> options (resetVote p u)) = (b_text <$> options p).
Proof. split; [apply labels_vote|apply labels_resetVote]. Qed.

Lemma filter_remove_first u (es : list string) :
  filter (fun v => v ≠ u) (remove_first u es) = filter (fun v => v ≠ u) es.
Proof.
  induction es as [|e es IH]; [done|]. simpl.
  destruct (String.eqb_spec e u) as [->|Hne].
  - by rewrite filter_cons_False by naive_solver.
  - by rewrite !filter_cons_True, IH by done.
Qed.

Lemma remove_vote_others u b :
  entries b !! 0%nat ≠ Some u →
  filter (fun v => v ≠ u) (voters (remove_vote u b))
  = filter (fun v => v ≠ u) (voters b).
Proof.
  intros Hhead. unfold voters at 1.
  destruct (entries b) as [|e0 es] eqn:Hes; [by destruct (entries_not_nil b)|].
  assert (remove_first u (e0 :: es) = e0 :: remove_first u es) as Hrem.
  { simpl. destruct (String.eqb_spec e0 u) as [->|]; [by destruct Hhead|done]. }
  rewrite entries_remove_vote; rewrite Hes, Hrem; [|done].
  unfold voters. rewrite Hes. simpl. rewrite !drop_0. apply filter_remove_first.
Qed.

Lemma vote_button_others m l u b :
  comma_free u → entries b !! 0%nat ≠ Some u →
  filter (fun v => v ≠ u) (voters (vote_button m l u b))
  = filter (fun v => v ≠ u) (voters b).
Proof.
  intros Hu Hhead.
  destruct (decide (u ∈ entries b)) as [Hin|Hin],
    (decide (b_text b = l)) as [Hl|Hl], m;
    try (by rewrite vote_button_keep by auto).
  - rewrite vote_button_move by done. by apply remove_vote_others.
  - rewrite (vote_button_add _ l u b), voters_after_add by done.
    rewrite split_char_free_id, filter_app by done.
    by rewrite (filter_cons_False _ u), app_nil_r by naive_solver.
  - rewrite (vote_button_add _ l u b), voters_after_add by done.
    rewrite split_char_free_id, filter_app by done.
    by rewrite (filter_cons_False _ u), app_nil_r by naive_solver.
Qed.

(** X10. A vote or a reset by one user leaves the votes of every other
    user alone: in each option the voters other than this user are the
    same, in the same order, before and after.  The identifier has no
    comma and is not the placeholder that heads a votes string. *)
Theorem other_voters_untouched p l u :
  comma_free u →
  Forall (fun b => entries b !! 0%nat ≠ Some u) (options p) →
  Forall2 (fun b b' => filter (fun v => v ≠ u) (voters b')
                       = filter (fun v => v ≠ u) (voters b))
          (options p) (options (vote p l u))
  ∧ Forall2 (fun b b' => filter (fun v => v ≠ u) (voters b')
                         = filter (fun v => v ≠ u) (voters b))
            (options p) (options (resetVote p u)).
Proof.
  intros Hu Hhead. rewrite Forall_forall in Hhead. split.
  - apply vote_pointwise; [done|]. intros b Hb.
    apply vote_button_others; auto.
  - apply resetVote_pointwise; [done|]. intros b Hb _.
    apply remove_vote_others; auto.
Qed.

Lemma other_voters_untouched_witness :
  Forall2 (fun b b' => filter (fun v => v ≠ "U3") (voters b')
                       = filter (fun v => v ≠ "U3") (voters b))
          (options sample_poll) (options (vote sample_poll "Tacos" "U3"))
  ∧ Forall2 (fun b b' => filter (fun v => v ≠ "U3") (voters b')
                         = filter (fun v => v ≠ "U3") (voters b))
            (options sample_poll) (options (resetVote sample_poll "U3")).
Proof.
  apply (other_voters_untouched sample_poll "Tacos" "U3"); [done|].
  by_evaluation.
Defined.

End Untouched.

(** ** Messages without divider *)

Lemma generateResults_no_options reveal p :
  no_divider (message p) → generateResults reveal p = lock_line p.
Proof.
  intros Hno. rewrite generateResults_unfold, collectVotes_options.
  unfold options. rewrite option_blocks_none by done. simpl.
  apply app_nil_r.
Qed.

(** X16. The constructor accepts a message without divider, but a vote or
    a reset on it throws every block away.  After a reset what is left
    is the empty message, or the lock line alone when the poll object is
    locked; after a vote on the unlocked poll the message is empty and
    does not decode any more. *)
Theorem vote_without_divider p l u :
  DividerBlock ∉ message p →
  message (resetVote p u)
  = (if isLocked p then [SectionBlock (Some ":lock:")] else [])
  ∧ (isLocked p = false →
     message (vote p l u) = [] ∧ Poll_new (getBlocks (vote p l u)) = None).
Proof.
  intros Hno%no_divider_elem. split.
  - rewrite resetVote_unfold.
    assert (no_divider (rewrite_from2 (reset_block (multiple p) u) (message p)))
      as Hno'.
    { apply rewrite_no_divider;
        [apply reset_block_keeps|apply reset_block_actions|done]. }
    by rewrite generateVoteResults_none, generateResults_no_options.
  - intros Hl.
    assert (message (vote p l u) = []) as Hm.
    { rewrite vote_unlocked by done.
      set (F := map_block (vote_button (multiple p) l u)).
      assert (no_divider (rewrite_from2 F (message p))) as Hno'.
      { apply rewrite_no_divider; [|by eexists|done].
        intros [] H; try done. by destruct (H elements). }
      rewrite generateVoteResults_none, generateResults_no_options by done.
      unfold lock_line. simpl. by rewrite Hl. }
    split; [done|]. unfold getBlocks. by rewrite Hm.
Qed.

Lemma vote_without_divider_witness :
  let msg := [SectionBlock (Some "Lunch?"); ContextBlock ["Asked by: <@U1>"];
              ActionsBlock [EButton (mkButton "Pizza" " ")]; poll_menu] in
  let p := mkPoll msg false false false in
  Poll_new msg = Some p
  ∧ message (resetVote p "U2") = []
  ∧ message (vote p "Pizza" "U2") = []
  ∧ Poll_new (getBlocks (vote p "Pizza" "U2")) = None.
Proof.
  intros msg p. split; [done|].
  destruct (vote_without_divider p "Pizza" "U2") as (Hreset & Hvote).
  - by_evaluation.
  - split; [exact Hreset|]. by apply Hvote.
Defined.

(** ** The layout of a poll message *)

Section Shape.
Implicit Types (p : Poll) (b : Button) (u l title author : string)
         (groups : list (list Button)) (lines : list string).

Lemma getDynamicSelect_menu p :
  getDynamicSelect p = [ActionsBlock [menu_of (isLocked p)]].
Proof. unfold getDynamicSelect, menu_of. by destruct (isLocked p). Qed.

Lemma sections_lines (blocks : list KnownBlock) :
  Forall (fun blk => ∃ t, blk = SectionBlock (Some (String "*" t))) blocks →
  ∃ lines, blocks = (fun t => SectionBlock (Some t)) <$> lines
           ∧ Forall (fun t => JS.starts_with "*" t = true) lines.
Proof.
  induction 1 as [|blk blocks [t ->] _ (lines & -> & Hlines)].
  - by exists [].
  - exists (String "*" t :: lines). split; [done|]. by constructor.
Qed.

Lemma generateResults_lines_shape reveal p :
  ∃ lines,
    generateResults reveal p
    = (fun t => SectionBlock (Some t))
        <$> ((if isLocked p then [":lock:"] else []) ++ lines)
    ∧ Forall (fun t => JS.starts_with "*" t = true) lines.
Proof.
  rewrite generateResults_unfold.
  destruct (sections_lines
              (omap (buildVoteTally (anonymous p) reveal (collectVotes p))
                    (JS.obj_keys (collectVotes p)))) as (lines & -> & Hlines).
  - apply Forall_forall. intros blk (k & _ & Hk)%list_elem_of_omap.
    by eapply tally_line_not_lock.
  - exists lines. split; [|done]. rewrite fmap_app. f_equal.
    unfold lock_line. by destruct (isLocked p).
Qed.

Lemma layout_length_pre title author (gs : list (list Element)) menu :
  (2 ≤ length (SectionBlock (Some title) :: ContextBlock [author]
                 :: (ActionsBlock <$> gs) ++ [ActionsBlock [menu]]))%nat.
Proof. simpl. lia. Qed.

Lemma shaped_decodes title author groups p :
  shaped title author groups p → Poll_new (message p) = Some p.
Proof.
  intros (lines & Hm & Hlines & Hmul & Han).
  destruct p as [msg mu an lo]. cbn [message multiple anonymous isLocked] in *.
  subst msg mu an. rewrite layout_split.
  set (pre := SectionBlock (Some title) :: _ :: _ ++ _).
  unfold Poll_new, checkIfMsgContains, getTitleFromMsg.
  rewrite getDividerId_at by apply sections_no_divider.
  change ((pre ++ _) !! 0%nat) with (Some (SectionBlock (Some title))).
  cbn [mbind option_bind block_text fmap option_fmap option_map].
  destruct lo; cbn [app fmap list_fmap].
  - rewrite at_after_divider. cbn [mbind option_bind block_text].
    match goal with |- context [?a =? ?b] =>
      destruct (Z.eqb_spec a b) as [Heq|_] end.
    { rewrite length_app in Heq. simpl in Heq. lia. }
    done.
  - destruct lines as [|t lines]; cbn [fmap list_fmap].
    + match goal with |- context [?a =? ?b] =>
      destruct (Z.eqb_spec a b) as [_|Hne] end; [done|].
      rewrite length_app in Hne. simpl in Hne. lia.
    + match goal with |- context [?a =? ?b] =>
      destruct (Z.eqb_spec a b) as [Heq|_] end.
      { rewrite length_app in Heq. simpl in Heq. lia. }
      rewrite at_after_divider. cbn [mbind option_bind block_text].
      inversion_clear Hlines as [|? ? Ht _].
      destruct t as [|c t]; [done|]. simpl in Ht.
      destruct (Ascii.eqb_spec "*" c) as [<-|]; [done|].
      by destruct c as [[] [] [] [] [] [] [] []].
Qed.
End Shape.

Section ShapeRewrite.
Variable F : KnownBlock → KnownBlock.
Variable G : list Button → list Button.
Hypothesis F_keeps : ∀ blk, (∀ els, blk ≠ ActionsBlock els) → F blk = blk.
Hypothesis F_actions : ∀ els, ∃ els', F (ActionsBlock els) = ActionsBlock els'.
Hypothesis F_group :
  ∀ g, F (ActionsBlock (EButton <$> g)) = ActionsBlock (EButton <$> G g).
Hypothesis F_menu :
  ∀ lo, F (ActionsBlock [menu_of lo]) = ActionsBlock [menu_of lo].

Lemma F_groups (groups : list (list Button)) :
  F <$> (ActionsBlock <$> button_elements groups)
  = ActionsBlock <$> button_elements (G <$> groups).
Proof.
  unfold button_elements. rewrite <- !list_fmap_compose.
  apply list_fmap_ext. intros _ g _. simpl. apply F_group.
Qed.

Lemma shaped_rewrite title author groups p :
  shaped title author groups p →
  shaped title author (G <$> groups)
    (generateVoteResults (with_message p (rewrite_from2 F (message p)))).
Proof.
  intros (lines & Hm & Hlines & Hmul & Han).
  set (q := with_message p (rewrite_from2 F (message p))).
  destruct (generateResults_lines_shape false q) as (lines' & Hres & Hlines').
  exists lines'. split; [|by split].
  rewrite layout_split in Hm.
  match type of Hm with
  | _ = ?pre ++ _ :: ?post =>
      destruct (rewrite_at F F_keeps F_actions pre post
                  (sections_no_divider _)) as (post' & Hrw & Hpost')
  end.
  erewrite generateVoteResults_at; [|simpl; rewrite Hm; apply Hrw|done].
  rewrite Hres, layout_split. f_equal.
  unfold rewrite_from2. cbn [take drop app]. rewrite !drop_0.
  by rewrite fmap_app, F_groups, fmap_cons, F_menu.
Qed.
End ShapeRewrite.

Section ShapeKept.
Implicit Types (p : Poll) (b : Button) (u l title author : string).

Lemma map_block_buttons (f : Button → Button) (g : list Button) :
  map_block f (ActionsBlock (EButton <$> g)) = ActionsBlock (EButton <$> (f <$> g)).
Proof.
  simpl. f_equal. rewrite <- !list_fmap_compose. by apply list_fmap_ext.
Qed.

Lemma shaped_vote title author groups p l u :
  shaped title author groups p →
  shaped title author
    (if isLocked p then groups
     else (fun g : list Button => vote_button (multiple p) l u <$> g)
            <$> groups) (vote p l u).
Proof.
  intros H. destruct (isLocked p) eqn:Hl; [by rewrite vote_locked|].
  rewrite vote_unlocked by done.
  apply (shaped_rewrite _ (fmap (vote_button (multiple p) l u))); try done.
  - intros [] Hb; try done. by destruct (Hb elements).
  - intros els. by eexists.
  - intros g. apply map_block_buttons.
Qed.

Lemma scanElements_buttons m u (g : list Button) :
  (scanElements (reset_callback m u) (EButton <$> g) tt).1
  = EButton <$> reset_group m u g.
Proof.
  induction g as [|b g IH]; [by destruct m|].
  rewrite fmap_cons. cbn [scanElements]. rewrite reset_callback_spec.
  destruct (scanElements (reset_callback m u) (EButton <$> g) tt)
    as [els' []] eqn:Hscan.
  simpl in IH. unfold reset_group in *.
  destruct m; simpl; case_decide; rewrite ?Hscan; csimpl; by rewrite ?IH.
Qed.

Lemma reset_block_group m u (g : list Button) :
  reset_block m u (ActionsBlock (EButton <$> g))
  = ActionsBlock (EButton <$> reset_group m u g).
Proof.
  unfold reset_block. simpl. rewrite <- scanElements_buttons.
  by destruct (scanElements (reset_callback m u) (EButton <$> g) tt).
Qed.

Lemma shaped_resetVote title author groups p u :
  shaped title author groups p →
  shaped title author (reset_group (multiple p) u <$> groups) (resetVote p u).
Proof.
  intros H. rewrite resetVote_unfold.
  apply (shaped_rewrite _ (reset_group (multiple p) u)); try done.
  - apply reset_block_keeps.
  - apply reset_block_actions.
  - apply reset_block_group.
Qed.
End ShapeKept.

Section ShapeLock.
Implicit Types (p : Poll) (b : Button) (u l title author : string)
         (pre post : list KnownBlock).

Lemma unlockpoll_message p pre post :
  message p = pre ++ DividerBlock :: post → no_divider post →
  (1 ≤ length pre)%nat →
  message (unlockpoll p)
  = take (length pre - 1) pre
      ++ getDynamicSelect (with_locked p false)
      ++ DividerBlock :: drop 1 post.
Proof.
  intros Hm Hpost Hlen. unfold unlockpoll.
  cbn [message with_message with_locked]. rewrite Hm.
  rewrite getDividerId_at by done.
  rewrite slice_prefix by lia. rewrite take_app_le by lia.
  replace (Z.to_nat (Z.of_nat (length pre) - 1)) with (length pre - 1)%nat
    by lia.
  do 2 f_equal. cbn [app]. f_equal.
  unfold JS.slice_from, JS.clamp.
  destruct (Z.ltb_spec (Z.of_nat (length pre) + 2) 0); [lia|].
  rewrite length_app. cbn [length].
  rewrite drop_app_ge by lia.
  destruct post as [|r post]; cbn [length].
  - replace (Z.to_nat _ - length pre)%nat with 1%nat by lia. done.
  - replace (Z.to_nat _ - length pre)%nat with 2%nat by lia. done.
Qed.

Lemma take_front {A} (front : list A) x :
  take (length (front ++ [x]) - 1) (front ++ [x]) = front.
Proof.
  rewrite length_app. simpl.
  replace (length front + 1 - 1)%nat with (length front) by lia.
  by rewrite take_app_length.
Qed.

Lemma shaped_lockPoll title author groups p :
  shaped title author groups p → shaped title author groups (lockPoll p).
Proof.
  intros (lines & Hm & Hlines & Hmul & Han).
  destruct (generateResults_lines_shape false (with_locked p true))
    as (lines' & Hres & Hlines').
  exists lines'. split; [|by split].
  rewrite layout_split in Hm.
  erewrite lockPoll_message;
    [|exact Hm|apply sections_no_divider|simpl; lia].
  rewrite Hres, getDynamicSelect_menu.
  change (SectionBlock (Some title) :: ContextBlock [author]
            :: (ActionsBlock <$> button_elements groups)
            ++ [ActionsBlock [menu_of (isLocked p)]])
    with ((SectionBlock (Some title) :: ContextBlock [author]
             :: (ActionsBlock <$> button_elements groups))
            ++ [ActionsBlock [menu_of (isLocked p)]]).
  rewrite take_front, layout_split.
  change (isLocked (lockPoll p)) with true.
  change (isLocked (with_locked p true)) with true.
  cbn [app]. by rewrite <- app_assoc.
Qed.

Lemma shaped_unlockpoll title author groups p :
  shaped title author groups p → shaped title author groups (unlockpoll p).
Proof.
  intros (lines & Hm & Hlines & Hmul & Han).
  exists (if isLocked p then lines else drop 1 lines).
  split; [|split; [|by split]].
  - rewrite layout_split in Hm.
    erewrite unlockpoll_message;
      [|exact Hm|apply sections_no_divider|simpl; lia].
    rewrite getDynamicSelect_menu.
    change (SectionBlock (Some title) :: ContextBlock [author]
              :: (ActionsBlock <$> button_elements groups)
              ++ [ActionsBlock [menu_of (isLocked p)]])
      with ((SectionBlock (Some title) :: ContextBlock [author]
               :: (ActionsBlock <$> button_elements groups))
              ++ [ActionsBlock [menu_of (isLocked p)]]).
    rewrite take_front, layout_split.
    change (isLocked (unlockpoll p)) with false.
    change (isLocked (with_locked p false)) with false.
    cbn [app]. rewrite <- app_assoc. cbn [app]. do 4 f_equal.
    rewrite <- fmap_drop. by destruct (isLocked p).
  - destruct (isLocked p); [done|by apply Forall_drop].
Qed.
End ShapeLock.

Lemma slashCreate_blocks_start author line0 rest :
  slashCreate author (line0 :: rest)
  = Poll_new (SectionBlock (Some (title_text line0 rest))
                :: (ContextBlock ["Asked by: " +:+ author]
                      :: PollHelpers.buildVoteOptions (line0 :: rest)
                           (first_option line0 rest)
                      ++ [poll_menu])
                ++ [DividerBlock]).
Proof.
  unfold first_option, slashCreate. set (decode := Poll_new).
  unfold title_text, marker, question_text, flag_given, flags_line,
    PollHelpers.appendIfMatching.
  cbn [lookup list_lookup mbind option_bind].
  fold (flag_tokens line0).
  destruct (flag_tokens_two line0) as (t0 & t1 & ts & ->).
  cbn [lookup list_lookup mbind option_bind token_is].
  destruct (String.eqb (JS.toLowerCase t0) "multiple"
            || String.eqb (JS.toLowerCase t0) "anon") eqn:Hflags;
    cbn [mbind option_bind andb].
  - reflexivity.
  - change ("" +:+ "") with "". rewrite append_nil_r. reflexivity.
Qed.

Section ShapeCreate.
Implicit Types (p : Poll) (g : list Button) (gs groups : list (list Button))
         (labels : list string).

Lemma push_last_snoc (bs : list (list Element)) last e :
  PollHelpers.push_last (bs ++ [last]) e = bs ++ [last ++ [e]].
Proof.
  unfold PollHelpers.push_last. rewrite reverse_app. simpl.
  by rewrite reverse_involutive.
Qed.

Lemma button_elements_snoc gs g :
  button_elements (gs ++ [g]) = button_elements gs ++ [EButton <$> g].
Proof. unfold button_elements. by rewrite fmap_app. Qed.

Lemma buildVoteOptions_loop_groups i labels gs g :
  Forall (fun g' => (length g' ≤ 5)%nat) gs → (length g ≤ 5)%nat →
  ((i mod 5)%nat ≠ 0%nat → (length g ≤ i mod 5)%nat) →
  ∃ groups,
    PollHelpers.buildVoteOptions_loop i labels (button_elements (gs ++ [g]))
    = button_elements groups
    ∧ Forall (fun g' => (length g' ≤ 5)%nat) groups
    ∧ concat groups = concat (gs ++ [g]) ++ (fresh_button <$> labels).
Proof.
  revert i gs g. induction labels as [|l labels IH]; intros i gs g Hgs Hg Hi.
  - exists (gs ++ [g]). split; [done|]. split.
    + apply Forall_app. by split; [|constructor].
    + by rewrite app_nil_r.
  - cbn [PollHelpers.buildVoteOptions_loop].
    fold (fresh_button l).
    pose proof (Nat.mod_upper_bound i 5) as Hlt.
    pose proof (Nat.div_mod_eq i 5) as Hdiv.
    pose proof (Nat.mod_upper_bound (S i) 5) as Hlt'.
    pose proof (Nat.div_mod_eq (S i) 5) as Hdiv'.
    destruct (Nat.eqb_spec (i mod 5) 0) as [Hz|Hnz].
    + replace (button_elements (gs ++ [g]) ++ [[]])
        with (button_elements (gs ++ [g]) ++ [EButton <$> []]) by done.
      rewrite push_last_snoc.
      change ((EButton <$> []) ++ [EButton (fresh_button l)])
        with (EButton <$> [fresh_button l]).
      rewrite <- button_elements_snoc.
      destruct (IH (S i) (gs ++ [g]) [fresh_button l])
        as (groups & Heq & Hlen & Hcat).
      * apply Forall_app. by split; [|constructor].
      * cbn [length]. lia.
      * intros _. cbn [length]. lia.
      * exists groups. split; [done|]. split; [done|].
        rewrite Hcat, fmap_cons. rewrite !concat_app. simpl.
        by rewrite !app_nil_r, <- !app_assoc.
    + rewrite button_elements_snoc, push_last_snoc.
      replace ((EButton <$> g) ++ [EButton (fresh_button l)])
        with (EButton <$> (g ++ [fresh_button l])) by (by rewrite fmap_app).
      rewrite <- button_elements_snoc.
      specialize (Hi Hnz).
      destruct (IH (S i) gs (g ++ [fresh_button l]))
        as (groups & Heq & Hlen & Hcat).
      * done.
      * rewrite length_app. cbn [length]. lia.
      * intros Hnz'. rewrite length_app. cbn [length]. lia.
      * exists groups. split; [done|]. split; [done|].
        rewrite Hcat, fmap_cons. rewrite !concat_app. simpl.
        by rewrite !app_nil_r, <- !app_assoc.
Qed.

Lemma buildVoteOptions_button_groups parameters start :
  ∃ groups,
    PollHelpers.buildVoteOptions parameters start
    = ActionsBlock <$> button_elements groups
    ∧ Forall (fun g => (length g ≤ 5)%nat) groups
    ∧ concat groups = fresh_button <$> drop start parameters.
Proof.
  unfold PollHelpers.buildVoteOptions.
  destruct (buildVoteOptions_loop_groups start (drop start parameters) [] [])
    as (groups & Heq & Hlen & Hcat); [done|simpl; lia|simpl; lia|].
  exists groups. split; [|done].
  change [[]] with (button_elements ([] ++ [[]])). by rewrite Heq.
Qed.

Lemma slashCreate_shaped author line0 rest :
  ∃ p groups,
    slashCreate author (line0 :: rest) = Some p
    ∧ shaped (title_text line0 rest) ("Asked by: " +:+ author) groups p
    ∧ isLocked p = false
    ∧ result_section (message p) = []
    ∧ Forall (fun g => (length g ≤ 5)%nat) groups
    ∧ concat groups
      = fresh_button <$> drop (first_option line0 rest) (line0 :: rest).
Proof.
  rewrite slashCreate_blocks_start, Poll_new_fresh.
  destruct (buildVoteOptions_button_groups (line0 :: rest)
              (first_option line0 rest)) as (groups & -> & Hlen & Hcat).
  eexists _, groups. split; [done|].
  split; [|split; [done|split; [|done]]].
  - exists []. split; [|by repeat split].
    cbn [message isLocked]. unfold layout. cbn [app fmap list_fmap].
    by rewrite <- app_assoc.
  - cbn [message]. unfold result_section.
    rewrite app_comm_cons.
    rewrite getDividerId_at by constructor. apply drop_past.
Qed.
End ShapeCreate.

(** Every poll the handlers can produce is in good shape. *)
Lemma reachable_shaped p :
  reachable p → ∃ title author groups, shaped title author groups p.
Proof.
  induction 1 as [author parameters p Hcreate|p p' _ IH Hnew|p l u _ IH Hu
                  |p u _ IH|p _ IH|p _ IH].
  - destruct parameters as [|line0 rest]; [done|].
    destruct (slashCreate_shaped author line0 rest)
      as (p' & groups & Hp' & Hs & _).
    rewrite Hcreate in Hp'. injection Hp' as <-. eauto.
  - destruct IH as (title & author & groups & Hs).
    exists title, author, groups.
    pose proof (shaped_decodes _ _ _ _ Hs) as Hd. unfold getBlocks in Hnew.
    rewrite Hd in Hnew. by assert (p' = p) as -> by congruence.
  - destruct IH as (title & author & groups & Hs).
    eexists title, author, _. by apply shaped_vote.
  - destruct IH as (title & author & groups & Hs).
    eexists title, author, _. by apply shaped_resetVote.
  - destruct IH as (title & author & groups & Hs).
    eexists title, author, _. by apply shaped_lockPoll.
  - destruct IH as (title & author & groups & Hs).
    eexists title, author, _. by apply shaped_unlockpoll.
Qed.

Section ShapeViews.
Implicit Types (p : Poll) (b : Button) (u l title author : string)
         (g : list Button) (groups : list (list Button)).

Lemma block_buttons_group g : block_buttons (ActionsBlock (EButton <$> g)) = g.
Proof.
  simpl. induction g as [|b g IH]; [done|]. csimpl. by rewrite IH.
Qed.

Lemma shaped_option_blocks title author groups p :
  shaped title author groups p →
  option_blocks (message p)
  = (ActionsBlock <$> button_elements groups)
      ++ [ActionsBlock [menu_of (isLocked p)]].
Proof.
  intros (lines & -> & _). rewrite layout_split.
  by rewrite option_blocks_at by apply sections_no_divider.
Qed.

Lemma shaped_options title author groups p :
  shaped title author groups p → options p = concat groups.
Proof.
  intros Hs. unfold options. rewrite (shaped_option_blocks _ _ _ _ Hs).
  rewrite bind_app. simpl. rewrite app_nil_r.
  unfold button_elements. clear Hs.
  induction groups as [|g groups IH]; [done|].
  rewrite !fmap_cons, bind_cons, IH. by rewrite block_buttons_group.
Qed.

Lemma replace_prefix pat s : JS.replace pat "" (pat +:+ s) = s.
Proof.
  assert (∀ t, JS.drop_chars (String.length pat) (pat +:+ t) = t) as Hdrop.
  { induction pat as [|c pat IH]; intros t; [by destruct t|]. apply IH. }
  destruct pat as [|c pat]; [by destruct s|].
  change (String c pat +:+ s) with (String c (pat +:+ s)).
  cbn [JS.replace].
  change (String c (pat +:+ s)) with (String c pat +:+ s).
  rewrite starts_with_app. apply Hdrop.
Qed.

Lemma shaped_title title author groups p :
  shaped title author groups p → getTitleFromMsg (message p) = Some title.
Proof. by intros (lines & -> & _). Qed.

Lemma shaped_author author0 title groups p :
  shaped title ("Asked by: " +:+ author0) groups p →
  getAuthor p = Some author0.
Proof.
  intros (lines & Hm & _). unfold getAuthor. rewrite Hm.
  cbn [layout lookup list_lookup]. by rewrite replace_prefix.
Qed.
End ShapeViews.

(** ** Polls the handlers produce *)

(** X7. The message stores the poll completely: the blocks of every poll
    that the handlers can produce decode to that very poll, with the same
    two flags and the same lock state. *)
Theorem reachable_poll_decodes p :
  reachable p → Poll_new (getBlocks p) = Some p.
Proof.
  intros (title & author & groups & Hs)%reachable_shaped.
  by eapply shaped_decodes.
Qed.

Lemma reachable_poll_decodes_witness :
  let p := lockPoll (vote (mkPoll (lunch_blocks " " " " []) true false false)
                          "Pizza" "U2") in
  Poll_new (getBlocks p) = Some p.
Proof.
  intros p. apply reachable_poll_decodes.
  apply reach_lock, reach_vote; [|done].
  by apply (reach_create "<@U1>" ["multiple"; "Lunch?"; "Pizza"; "Tacos"]).
Defined.

(** X6. Every poll that the handlers can produce has the layout of a poll
    message: the title section, the author context, the groups of vote
    buttons, the control menu, the divider and the result lines.  The
    menu offers to unlock exactly when the poll is locked, the lock line
    heads the result lines exactly when the poll is locked, every other
    result line starts with the count, and the two flags are the ones the
    title tells. *)
Theorem reachable_poll_layout p :
  reachable p →
  ∃ title author groups lines,
    message p
    = layout title author (button_elements groups) (menu_of (isLocked p))
             ((if isLocked p then [":lock:"] else []) ++ lines)
    ∧ Forall (fun t => JS.starts_with "*" t = true) lines
    ∧ multiple p = JS.includes "(Multiple Answers)" title
    ∧ anonymous p = JS.includes "(Anonymous)" title.
Proof.
  intros (title & author & groups & lines & H)%reachable_shaped.
  by exists title, author, groups, lines.
Qed.

Lemma reachable_poll_layout_witness :
  let p := lockPoll (vote (mkPoll (lunch_blocks " " " " []) true false false)
                          "Pizza" "U2") in
  ∃ title author groups lines,
    message p
    = layout title author (button_elements groups) (menu_of (isLocked p))
             ((if isLocked p then [":lock:"] else []) ++ lines)
    ∧ Forall (fun t => JS.starts_with "*" t = true) lines
    ∧ multiple p = JS.includes "(Multiple Answers)" title
    ∧ anonymous p = JS.includes "(Anonymous)" title.
Proof.
  intros p. apply reachable_poll_layout.
  apply reach_lock, reach_vote; [|done].
  by apply (reach_create "<@U1>" ["multiple"; "Lunch?"; "Pizza"; "Tacos"]).
Defined.

(** X8. No command changes the title, the author or the two flags of a
    poll in good shape, and the blocks each command leaves decode to the
    poll it produced. *)
Theorem commands_keep_title_and_author title author groups p l u :
  shaped title ("Asked by: " +:+ author) groups p →
  Forall (fun q => getTitleFromMsg (message q) = Some title
                   ∧ getAuthor q = Some author
                   ∧ multiple q = multiple p
                   ∧ anonymous q = anonymous p
                   ∧ Poll_new (getBlocks q) = Some q)
         [vote p l u; resetVote p u; lockPoll p; unlockpoll p].
Proof.
  intros Hs.
  assert (∀ q groups', shaped title ("Asked by: " +:+ author) groups' q →
                       getTitleFromMsg (message q) = Some title
                       ∧ getAuthor q = Some author
                       ∧ Poll_new (getBlocks q) = Some q) as Hq.
  { intros q groups' Hq. split; [by eapply shaped_title|].
    split; [by eapply shaped_author|by eapply shaped_decodes]. }
  repeat constructor.
  - eapply Hq. by apply shaped_vote.
  - eapply Hq. by apply shaped_vote.
  - apply vote_flags.
  - apply vote_flags.
  - eapply Hq. by apply shaped_vote.
  - eapply Hq. by apply shaped_resetVote.
  - eapply Hq. by apply shaped_resetVote.
  - eapply Hq. by apply shaped_resetVote.
  - eapply Hq. by apply shaped_lockPoll.
  - eapply Hq. by apply shaped_lockPoll.
  - eapply Hq. by apply shaped_lockPoll.
  - eapply Hq. by apply shaped_unlockpoll.
  - eapply Hq. by apply shaped_unlockpoll.
  - eapply Hq. by apply shaped_unlockpoll.
Qed.

(** ** Locking and unlocking *)

Lemma commands_keep_title_and_author_witness :
  Forall (fun q => getTitleFromMsg (message q) = Some "Lunch?"
                   ∧ getAuthor q = Some "<@U1>"
                   ∧ multiple q = multiple sample_poll
                   ∧ anonymous q = anonymous sample_poll
                   ∧ Poll_new (getBlocks q) = Some q)
         [vote sample_poll "Tacos" "U3"; resetVote sample_poll "U3";
          lockPoll sample_poll; unlockpoll sample_poll].
Proof.
  apply (commands_keep_title_and_author
           "Lunch?" "<@U1>" [[mkButton "Pizza" " ,U2"; mkButton "Tacos" " "]]).
  exists ["*1* Pizza » <@U2>"]. repeat split. by repeat constructor.
Defined.

Section Locking.
Implicit Types (p : Poll) (u l title author text : string)
         (groups : list (list Button)).

Lemma decode_shaped title author groups p text :
  shaped title author groups p →
  decode (mkMessage text (Some (getBlocks p))) = Some p.
Proof. intros Hs. unfold decode. simpl. by eapply shaped_decodes. Qed.

Lemma lockPoll_options title author groups p :
  shaped title author groups p →
  options (lockPoll p) = options p ∧ options (unlockpoll p) = options p.
Proof.
  intros Hs.
  rewrite (shaped_options _ _ _ _ (shaped_lockPoll _ _ _ _ Hs)).
  rewrite (shaped_options _ _ _ _ (shaped_unlockpoll _ _ _ _ Hs)).
  by rewrite (shaped_options _ _ _ _ Hs).
Qed.

Lemma shaped_split title author groups p :
  shaped title author groups p →
  ∃ front post,
    message p = (front ++ [ActionsBlock [menu_of (isLocked p)]])
                  ++ DividerBlock :: post
    ∧ no_divider post ∧ (2 ≤ length front)%nat
    ∧ front = SectionBlock (Some title) :: ContextBlock [author]
                :: (ActionsBlock <$> button_elements groups).
Proof.
  intros (lines & Hm & _). rewrite layout_split in Hm.
  exists (SectionBlock (Some title) :: ContextBlock [author]
            :: (ActionsBlock <$> button_elements groups)),
    ((fun t => SectionBlock (Some t))
       <$> (if isLocked p then [":lock:"] else []) ++ lines).
  split; [exact Hm|]. split; [apply sections_no_divider|].
  split; [simpl; lia|done].
Qed.

Lemma lockPoll_blocks title author groups p :
  shaped title author groups p →
  message (lockPoll p)
  = SectionBlock (Some title) :: ContextBlock [author]
      :: (ActionsBlock <$> button_elements groups)
      ++ ActionsBlock [menu_of true] :: DividerBlock
      :: generateResults false (with_locked p true).
Proof.
  intros (front & post & Hm & Hpost & Hlen & ->)%shaped_split.
  erewrite lockPoll_message; [|exact Hm|done|rewrite length_app; simpl; lia].
  by rewrite take_front, getDynamicSelect_menu.
Qed.

Lemma unlockpoll_blocks title author groups p :
  shaped title author groups p →
  message (unlockpoll p)
  = SectionBlock (Some title) :: ContextBlock [author]
      :: (ActionsBlock <$> button_elements groups)
      ++ ActionsBlock [menu_of false] :: DividerBlock
      :: drop 1 (result_section (message p)).
Proof.
  intros (front & post & Hm & Hpost & Hlen & ->)%shaped_split.
  erewrite unlockpoll_message; [|exact Hm|done|rewrite length_app; simpl; lia].
  rewrite take_front, getDynamicSelect_menu.
  unfold result_section. by rewrite Hm, getDividerId_at, drop_past by done.
Qed.

Lemma result_section_behind (front : list KnownBlock) m post :
  no_divider post →
  result_section (front ++ m :: DividerBlock :: post) = post.
Proof.
  intros Hpost. unfold result_section.
  rewrite (cons_middle m), app_assoc.
  by rewrite getDividerId_at, drop_past.
Qed.

Lemma generateResults_locked reveal p :
  generateResults reveal (with_locked p true)
  = SectionBlock (Some ":lock:") :: generateResults reveal (with_locked p false).
Proof. by rewrite !generateResults_unfold. Qed.

Lemma with_locked_same p : with_locked p (isLocked p) = p.
Proof. by destruct p. Qed.

Lemma poll_eq p q :
  message p = message q → multiple p = multiple q →
  anonymous p = anonymous q → isLocked p = isLocked q → p = q.
Proof. destruct p, q. simpl. by intros -> -> -> ->. Qed.

(** X20. Once a poll in good shape is locked, a click on a vote button
    hands the message back as it came, and the reset entry of the menu
    changes nothing but the text of the message. *)
Theorem locked_poll_is_frozen title author groups p text l u :
  shaped title author groups p →
  let msg := mkMessage text (Some (getBlocks (lockPoll p))) in
  onButtonAction l u msg = Some msg
  ∧ onStaticSelectAction "reset" u msg
    = Some (mkMessage "Vote reset!" (m_blocks msg)).
Proof.
  intros Hs%shaped_lockPoll msg. unfold onButtonAction, onStaticSelectAction.
  unfold msg. rewrite (decode_shaped _ _ _ _ _ Hs).
  cbn [mbind option_bind m_text m_blocks].
  rewrite vote_locked by done. done.
Qed.

Lemma locked_poll_is_frozen_witness :
  let msg := mkMessage "Vote changed!" (Some (getBlocks (lockPoll sample_poll))) in
  onButtonAction "Tacos" "U3" msg = Some msg
  ∧ onStaticSelectAction "reset" "U2" msg
    = Some (mkMessage "Vote reset!" (m_blocks msg)).
Proof.
  intros msg.
  destruct (locked_poll_is_frozen
              "Lunch?" "Asked by: <@U1>"
              [[mkButton "Pizza" " ,U2"; mkButton "Tacos" " "]]
              sample_poll "Vote changed!" "Tacos" "U3") as [Hvote _].
  { exists ["*1* Pizza » <@U2>"]. repeat split. by repeat constructor. }
  split; [exact Hvote|].
  apply (locked_poll_is_frozen
           "Lunch?" "Asked by: <@U1>"
           [[mkButton "Pizza" " ,U2"; mkButton "Tacos" " "]]
           sample_poll "Vote changed!" "Tacos" "U2").
  exists ["*1* Pizza » <@U2>"]. repeat split. by repeat constructor.
Defined.

Lemma lockPoll_results title author groups p :
  shaped title author groups p →
  result_section (message (lockPoll p))
  = SectionBlock (Some ":lock:")
      :: generateResults false (with_locked p false).
Proof.
  intros Hs. rewrite (lockPoll_blocks _ _ _ _ Hs), !app_comm_cons.
  rewrite result_section_behind by apply generateResults_no_divider.
  apply generateResults_locked.
Qed.

(** X17. Locking and unlocking a poll in good shape never touch a vote:
    the options and their votes strings are the same afterwards.  The
    result section of the locked poll is the lock line followed by the
    result lines generated from the options. *)
Theorem lockPoll_keeps_votes title author groups p :
  shaped title author groups p →
  options (lockPoll p) = options p
  ∧ options (unlockpoll p) = options p
  ∧ result_section (message (lockPoll p))
    = SectionBlock (Some ":lock:")
        :: generateResults false (with_locked p false).
Proof.
  intros Hs. destruct (lockPoll_options _ _ _ _ Hs) as [Hlock Hunlock].
  split; [done|]. split; [done|]. by eapply lockPoll_results.
Qed.

Lemma lockPoll_keeps_votes_witness :
  options (lockPoll sample_poll) = options sample_poll
  ∧ options (unlockpoll sample_poll) = options sample_poll
  ∧ result_section (message (lockPoll sample_poll))
    = SectionBlock (Some ":lock:")
        :: generateResults false (with_locked sample_poll false).
Proof.
  apply (lockPoll_keeps_votes
           "Lunch?" "Asked by: <@U1>"
           [[mkButton "Pizza" " ,U2"; mkButton "Tacos" " "]]).
  exists ["*1* Pizza » <@U2>"]. repeat split. by repeat constructor.
Defined.

(** X18. Unlocking undoes locking: for an unlocked poll in good shape
    whose result section is the one generated from its options, as every
    vote and reset leaves it, [unlockpoll] after [lockPoll] gives the
    poll back.  Locking a poll twice is the same as locking it once. *)
Theorem unlock_after_lock title author groups p :
  shaped title author groups p →
  (isLocked p = false →
   result_section (message p) = generateResults false p →
   unlockpoll (lockPoll p) = p)
  ∧ lockPoll (lockPoll p) = lockPoll p.
Proof.
  intros Hs. pose proof (shaped_lockPoll _ _ _ _ Hs) as Hs'. split.
  - intros Hl Hres.
    assert (message (unlockpoll (lockPoll p)) = message p) as Hm.
    { rewrite (unlockpoll_blocks _ _ _ _ Hs').
      rewrite (lockPoll_results _ _ _ _ Hs).
      assert (with_locked p false = p) as ->
          by (rewrite <- Hl; apply with_locked_same).
      rewrite <- Hres. cbn [drop].
      destruct Hs as (lines & Hm & _). rewrite Hl in Hm.
      assert (result_section (message p)
              = (fun t => SectionBlock (Some t)) <$> lines) as ->.
      { rewrite Hm. unfold layout. rewrite !app_comm_cons.
        by rewrite result_section_behind by apply sections_no_divider. }
      by rewrite Hm. }
    by apply poll_eq.
  - assert (message (lockPoll (lockPoll p)) = message (lockPoll p)) as Hm.
    { rewrite (lockPoll_blocks _ _ _ _ Hs'), (lockPoll_blocks _ _ _ _ Hs).
      do 5 f_equal. apply generateResults_ext; [done..|].
      unfold options. cbn [message with_locked].
      fold (options (lockPoll p)) (options p).
      by destruct (lockPoll_options _ _ _ _ Hs) as [-> _]. }
    by apply poll_eq.
Qed.

Lemma unlock_after_lock_witness :
  unlockpoll (lockPoll sample_poll) = sample_poll
  ∧ lockPoll (lockPoll sample_poll) = lockPoll sample_poll.
Proof.
  destruct (unlock_after_lock
              "Lunch?" "Asked by: <@U1>"
              [[mkButton "Pizza" " ,U2"; mkButton "Tacos" " "]] sample_poll)
    as [Hround Htwice].
  { exists ["*1* Pizza » <@U2>"]. repeat split. by repeat constructor. }
  split; [|exact Htwice]. apply Hround; vm_compute; reflexivity.
Defined.
End Locking.

(** ** Creating a poll *)

Section Creation.
Implicit Types (p : Poll) (u l title author text : string)
         (groups : list (list Button)).

(** X3. [slashCreate] never fails on a command with at least one line.
    The poll it makes carries the author it was given, one option per
    option line, in order, each with the cleaned line as its label and
    without a voter, and an empty result section. *)
Theorem slashCreate_fresh_poll author line0 rest :
  ∃ p, slashCreate author (line0 :: rest) = Some p
       ∧ getTitleFromMsg (message p) = Some (title_text line0 rest)
       ∧ getAuthor p = Some author
       ∧ options p
         = (fun line => mkButton (PollHelpers.cleanLabel line) " ")
             <$> drop (first_option line0 rest) (line0 :: rest)
       ∧ Forall (fun b => voters b = []) (options p)
       ∧ result_section (message p) = [].
Proof.
  destruct (slashCreate_shaped author line0 rest)
    as (p & groups & Hp & Hs & _ & Hres & _ & Hcat).
  exists p. split; [done|].
  split; [by eapply shaped_title|]. split; [by eapply shaped_author|].
  rewrite (shaped_options _ _ _ _ Hs), Hcat.
  split; [done|]. split; [|done].
  apply Forall_fmap, Forall_true. done.
Qed.

(** X4. The button loop of [slashCreate] puts at most five buttons in
    an actions block, and the blocks hold, in order, one fresh button for
    each option line. *)
Theorem buildVoteOptions_groups_of_five parameters start :
  ∃ groups,
    PollHelpers.buildVoteOptions parameters start
    = (fun g : list Button => ActionsBlock (EButton <$> g)) <$> groups
    ∧ Forall (fun g => (length g ≤ 5)%nat) groups
    ∧ concat groups
      = (fun line => mkButton (PollHelpers.cleanLabel line) " ")
          <$> drop start parameters.
Proof.
  destruct (buildVoteOptions_button_groups parameters start)
    as (groups & Heq & Hlen & Hcat).
  exists groups. split; [|done].
  rewrite Heq. unfold button_elements. by rewrite <- list_fmap_compose.
Qed.

Lemma append_inj_last s s' c :
  s +:+ String c "" = s' +:+ String c "" → s = s'.
Proof.
  revert s'. induction s as [|a s IH]; intros [|a' s'] H; [done| | |].
  - change (String c "" = String a' (s' +:+ String c "")) in H.
    injection H as _ H. by destruct s'.
  - change (String a (s +:+ String c "") = String c "") in H.
    injection H as _ H. by destruct s.
  - change (String a (s +:+ String c "") = String a' (s' +:+ String c ""))
      in H.
    injection H as -> H. f_equal. by apply IH.
Qed.

Lemma mention_inj u u' : mention u = mention u' → u = u'.
Proof.
  unfold mention.
  change ("<@" +:+ u +:+ ">") with (String "<" (String "@" (u +:+ ">"))).
  change ("<@" +:+ u' +:+ ">") with (String "<" (String "@" (u' +:+ ">"))).
  intros [= H]. by apply append_inj_last in H.
Qed.

Lemma isPollAuthor_shaped title groups p u u' :
  shaped title ("Asked by: " +:+ mention u) groups p →
  isPollAuthor u' p = Some (bool_decide (u' = u)).
Proof.
  intros Hs. unfold isPollAuthor. rewrite (shaped_author _ _ _ _ Hs).
  cbn [fmap option_fmap option_map]. f_equal.
  fold (mention u'). case_bool_decide as Hu.
  - subst. apply String.eqb_refl.
  - apply String.eqb_neq. intros H. by apply mention_inj in H.
Qed.

(** X5. A slash command other than [/inorout] is not handled.  The
    command [/inorout] always posts a poll, whatever its text: the blocks
    posted decode to a poll, and of all users the one who gave the
    command, and nobody else, is taken for its author. *)
Theorem createPollRoute_posts command user_id text :
  (command ≠ "/inorout" → createPollRoute command user_id text = Unhandled)
  ∧ ∃ p, createPollRoute "/inorout" user_id text = Posted (getBlocks p)
         ∧ Poll_new (getBlocks p) = Some p
         ∧ ∀ u, isPollAuthor u p = Some (bool_decide (u = user_id)).
Proof.
  split.
  - intros Hc. unfold createPollRoute.
    by destruct (String.eqb_spec command "/inorout").
  - unfold createPollRoute. cbn [String.eqb Ascii.eqb Bool.eqb negb].
    pose proof (split_not_nil "010" (JS.replace "@here" ""
       (JS.replace "@everyone" "" (JS.replace "@channel" "" text)))) as Hne.
    fold (commandLines text) in Hne.
    destruct (commandLines text) as [|line0 rest]; [done|].
    destruct (slashCreate_shaped ("<@" +:+ user_id +:+ ">") line0 rest)
      as (p & groups & -> & Hs & _).
    exists p. split; [done|]. split; [by eapply shaped_decodes|].
    intros u. by eapply isPollAuthor_shaped.
Qed.
End Creation.

(** ** The request handlers *)

Section Handlers.
Implicit Types (p : Poll) (u l title author text : string)
         (groups : list (list Button)).

(** X21. Only the author controls a poll in good shape.  When another
    user picks lock, unlock or delete in the menu the blocks of the
    message stay as they are; when the author does, the poll is locked,
    unlocked, or the blocks are taken away. *)
Theorem only_author_controls title groups p author_id u text :
  shaped title ("Asked by: " +:+ mention author_id) groups p →
  u ≠ author_id →
  let msg := mkMessage text (Some (getBlocks p)) in
  onStaticSelectAction "lock" u msg
  = Some (mkMessage "Poll locked!" (m_blocks msg))
  ∧ onStaticSelectAction "unlock" u msg
    = Some (mkMessage "Poll unlocked!" (m_blocks msg))
  ∧ onStaticSelectAction "delete" u msg = Some msg
  ∧ onStaticSelectAction "lock" author_id msg
    = Some (mkMessage "Poll locked!" (Some (getBlocks (lockPoll p))))
  ∧ onStaticSelectAction "unlock" author_id msg
    = Some (mkMessage "Poll unlocked!" (Some (getBlocks (unlockpoll p))))
  ∧ onStaticSelectAction "delete" author_id msg
    = Some (mkMessage "This poll has been deleted." None).
Proof.
  intros Hs Hu msg. unfold onStaticSelectAction, msg.
  rewrite (decode_shaped _ _ _ _ _ Hs).
  cbn [mbind option_bind String.eqb Ascii.eqb Bool.eqb].
  unfold onLockSelected, onUnlockSelected, onDeleteSelected.
  rewrite !(isPollAuthor_shaped _ _ _ _ _ Hs).
  rewrite bool_decide_eq_false_2, bool_decide_eq_true_2 by done.
  done.
Qed.

Lemma only_author_controls_witness :
  let msg := mkMessage "Vote changed!" (Some (getBlocks sample_poll)) in
  onStaticSelectAction "lock" "U2" msg
  = Some (mkMessage "Poll locked!" (m_blocks msg))
  ∧ onStaticSelectAction "unlock" "U2" msg
    = Some (mkMessage "Poll unlocked!" (m_blocks msg))
  ∧ onStaticSelectAction "delete" "U2" msg = Some msg
  ∧ onStaticSelectAction "lock" "U1" msg
    = Some (mkMessage "Poll locked!" (Some (getBlocks (lockPoll sample_poll))))
  ∧ onStaticSelectAction "unlock" "U1" msg
    = Some (mkMessage "Poll unlocked!"
              (Some (getBlocks (unlockpoll sample_poll))))
  ∧ onStaticSelectAction "delete" "U1" msg
    = Some (mkMessage "This poll has been deleted." None).
Proof.
  apply (only_author_controls
           "Lunch?" [[mkButton "Pizza" " ,U2"; mkButton "Tacos" " "]]
           sample_poll "U1" "U2" "Vote changed!").
  - exists ["*1* Pizza » <@U2>"]. repeat split. by repeat constructor.
  - done.
Defined.

(** X22. Requests compose like calls on one poll object: handing the
    message that one click produced to the next click, or to the reset
    entry of the menu, gives the blocks of the poll after both commands.
    Nothing but the blocks is carried from one request to the next. *)
Theorem requests_compose title author groups p text l u l' u' :
  shaped title author groups p →
  let msg := mkMessage text (Some (getBlocks p)) in
  onButtonAction l u msg ≫= onButtonAction l' u'
  = Some (mkMessage text (Some (getBlocks (vote (vote p l u) l' u'))))
  ∧ onButtonAction l u msg ≫= onStaticSelectAction "reset" u'
    = Some (mkMessage "Vote reset!"
              (Some (getBlocks (if isLocked p then p
                                else resetVote (vote p l u) u')))).
Proof.
  intros Hs msg. pose proof (shaped_vote _ _ _ _ l u Hs) as Hs'.
  unfold onButtonAction, onStaticSelectAction, msg.
  rewrite (decode_shaped _ _ _ _ _ Hs).
  cbn [mbind option_bind m_text].
  rewrite (decode_shaped _ _ _ _ _ Hs').
  cbn [mbind option_bind m_text m_blocks String.eqb Ascii.eqb Bool.eqb].
  split; [done|]. unfold onResetSelected, getLockedStatus.
  destruct (vote_flags p l u) as (_ & _ & ->).
  destruct (isLocked p) eqn:Hl; [|done].
  cbn [m_blocks]. by rewrite vote_locked.
Qed.

Lemma requests_compose_witness :
  let msg := mkMessage "Vote changed!" (Some (getBlocks sample_poll)) in
  onButtonAction "Tacos" "U3" msg ≫= onButtonAction "Pizza" "U2"
  = Some (mkMessage "Vote changed!"
            (Some (getBlocks (vote (vote sample_poll "Tacos" "U3")
                                   "Pizza" "U2"))))
  ∧ onButtonAction "Tacos" "U3" msg ≫= onStaticSelectAction "reset" "U2"
    = Some (mkMessage "Vote reset!"
              (Some (getBlocks (if isLocked sample_poll then sample_poll
                                else resetVote (vote sample_poll "Tacos" "U3")
                                               "U2")))).
Proof.
  apply (requests_compose
           "Lunch?" "Asked by: <@U1>"
           [[mkButton "Pizza" " ,U2"; mkButton "Tacos" " "]]).
  exists ["*1* Pizza » <@U2>"]. repeat split. by repeat constructor.
Defined.
End Handlers.

(** ** What a vote does *)

Section Votes.
Implicit Types (p : Poll) (b : Button) (l u v w : string) (m : bool)
         (g : list Button) (es : list string).

Lemma voters_not_head u b :
  u ∈ entries b → entries b !! 0%nat ≠ Some u → u ∈ voters b.
Proof.
  unfold voters. destruct (entries b) as [|e0 es]; [by intros ?%elem_of_nil|].
  intros [->|Hin]%elem_of_cons Hhead; [by destruct Hhead|done].
Qed.

(** X11. A vote is recorded: after a vote on an unlocked poll every
    option that carries the chosen label has the user among its voters.
    The identifier has no comma and is not the placeholder that heads a
    votes string. *)
Theorem vote_is_recorded p l u :
  isLocked p = false → comma_free u →
  Forall (fun b => entries b !! 0%nat ≠ Some u) (options p) →
  Forall (fun b => b_text b = l → u ∈ voters b) (options (vote p l u)).
Proof.
  intros Hl Hu Hhead. rewrite vote_options by done.
  apply Forall_fmap. eapply Forall_impl; [exact Hhead|].
  intros b Hb Hlabel. simpl in Hb. rewrite vote_button_text in Hlabel.
  destruct (decide (u ∈ entries b)) as [Hin|Hin].
  - rewrite vote_button_keep by auto. by apply voters_not_head.
  - rewrite (vote_button_add _ l u b), voters_after_add by done.
    rewrite split_char_free_id by done. apply elem_of_app. right. left.
Qed.

Lemma vote_is_recorded_witness :
  Forall (fun b => b_text b = "Tacos" → "U3" ∈ voters b)
         (options (vote sample_poll "Tacos" "U3")).
Proof.
  apply vote_is_recorded; [done|done|]. by_evaluation.
Defined.

(** X12. In a poll with multiple answers a vote never takes a vote away:
    the voters of every option before the vote are still its first
    voters, in the same order, after it. *)
Theorem multiple_vote_keeps_votes p l u :
  multiple p = true →
  Forall2 (fun b b' => voters b `prefix_of` voters b')
          (options p) (options (vote p l u)).
Proof.
  intros Hm. apply vote_pointwise; [done|]. intros b _. rewrite Hm.
  destruct (decide (u ∈ entries b)) as [Hin|Hin];
    [by rewrite vote_button_keep by auto|].
  destruct (decide (b_text b = l)) as [Hlabel|Hlabel];
    [|by rewrite vote_button_keep by auto].
  rewrite (vote_button_add _ l u b), voters_after_add by done.
  by eexists.
Qed.

Lemma multiple_vote_keeps_votes_witness :
  let p := mkPoll (lunch_blocks " ,U2" " ,U3"
                     ["*1* Pizza » <@U2>"; "*1* Tacos » <@U3>"])
                  true false false in
  Forall2 (fun b b' => voters b `prefix_of` voters b')
          (options p) (options (vote p "Tacos" "U2")).
Proof. intros p. by apply multiple_vote_keeps_votes. Defined.
End Votes.

(** ** Undoing a vote *)

Section Undo.
Implicit Types (p : Poll) (b : Button) (l u v w : string) (m : bool)
         (g : list Button) (es : list string).

Lemma remove_first_snoc u es : u ∉ es → remove_first u (es ++ [u]) = es.
Proof.
  induction es as [|e es IH]; intros Hu; simpl.
  - by rewrite String.eqb_refl.
  - apply not_elem_of_cons in Hu as [Hne Hu].
    destruct (String.eqb_spec e u); [done|]. by rewrite IH.
Qed.

Lemma remove_vote_added u b :
  comma_free u → u ∉ entries b →
  remove_vote u (mkButton (b_text b) (b_value b +:+ "," +:+ u)) = b.
Proof.
  intros Hu Hin. unfold remove_vote.
  rewrite entries_add, remove_first_snoc, join_entries by done.
  by destruct b.
Qed.

Lemma option_groups_vote p l u :
  isLocked p = false →
  option_groups (vote p l u)
  = (fun g => vote_button (multiple p) l u <$> g) <$> option_groups p.
Proof.
  intros Hl. rewrite vote_unlocked, generateVoteResults_groups by done.
  apply (rewrite_groups (map_block (vote_button (multiple p) l u))).
  - by intros [] H; try done; destruct (H elements).
  - intros els. by eexists.
  - apply block_buttons_map.
Qed.

Lemma vote_button_fresh_group m l u g :
  Forall (fun b => u ∉ entries b) g → Forall (fun b => b_text b ≠ l) g →
  vote_button m l u <$> g = g.
Proof.
  intros Hin Hl. induction g as [|b g IH]; [done|].
  inversion_clear Hin. inversion_clear Hl.
  rewrite fmap_cons, IH by done. by rewrite vote_button_keep by auto.
Qed.

Lemma reset_group_vote m l u g :
  comma_free u → Forall (fun b => u ∉ entries b) g →
  (m = false → NoDup (b_text <$> g)) →
  reset_group m u (vote_button m l u <$> g) = g.
Proof.
  intros Hu Hin Hdup. destruct m; simpl.
  - clear Hdup. induction Hin as [|b g Hb _ IH]; [done|]. csimpl.
    rewrite IH. f_equal.
    destruct (decide (b_text b = l)) as [Hl|Hl].
    + rewrite (vote_button_add _ l u b) by done.
      rewrite decide_True by (rewrite entries_add by done;
                              apply elem_of_app; right; left).
      rewrite <- Hl. by apply remove_vote_added.
    + rewrite vote_button_keep by auto. by rewrite decide_False.
  - specialize (Hdup eq_refl).
    induction Hin as [|b g Hb Hg IH]; [done|].
    rewrite fmap_cons in Hdup. apply NoDup_cons in Hdup as [Hfresh Hdup].
    rewrite fmap_cons. cbn [reset_first].
    destruct (decide (b_text b = l)) as [Hl|Hl].
    + rewrite (vote_button_add _ l u b) by done.
      rewrite decide_True by (rewrite entries_add by done;
                              apply elem_of_app; right; left).
      rewrite <- Hl at 1. rewrite remove_vote_added by done. f_equal.
      apply vote_button_fresh_group; [done|].
      apply Forall_forall. intros b' Hb' Heq. apply Hfresh.
      rewrite Hl, <- Heq. by apply list_elem_of_fmap_2.
    + rewrite vote_button_keep by auto. rewrite decide_False by done.
      by rewrite IH.
Qed.

(** X14. A reset undoes a first vote.  When the user, whose identifier
    has no comma, is in no votes string of an unlocked poll, and, in a
    single-choice poll, no two options of one group share a label, then
    the options after a vote followed by a reset are the options before,
    and the result section is the one generated from them. *)
Theorem resetVote_undoes_vote p l u :
  isLocked p = false → comma_free u →
  Forall (fun b => u ∉ entries b) (options p) →
  (multiple p = false →
   Forall (fun g => NoDup (b_text <$> g)) (option_groups p)) →
  options (resetVote (vote p l u) u) = options p
  ∧ result_section (message (resetVote (vote p l u) u))
    = generateResults false p.
Proof.
  intros Hl Hu Hin Hdup.
  assert (options (resetVote (vote p l u) u) = options p) as Hopts.
  { rewrite resetVote_options, option_groups_vote by done.
    destruct (vote_flags p l u) as (-> & _ & _).
    rewrite options_groups in Hin |- *.
    assert (Forall (fun g => NoDup (b_text <$> g)) (option_groups p)
            ∨ multiple p = true) as Hcases.
    { destruct (multiple p); [by right|left; by apply Hdup]. }
    clear Hdup. induction (option_groups p) as [|g gs IH]; [done|].
    rewrite bind_cons in Hin. apply Forall_app in Hin as [Hg Hgs].
    rewrite fmap_cons, !bind_cons. f_equal.
    - apply reset_group_vote; [done..|]. intros Hm.
      destruct Hcases as [Hnd|Hm']; [|congruence].
      by inversion_clear Hnd.
    - apply IH; [done|]. destruct Hcases as [Hnd|Hm']; [left|by right].
      by inversion_clear Hnd. }
  split; [done|].
  rewrite resetVote_unfold, generateVoteResults_section.
  rewrite <- resetVote_unfold. apply generateResults_ext; [..|done].
  - destruct (resetVote_flags (vote p l u) u) as (_ & -> & _).
    by destruct (vote_flags p l u) as (_ & -> & _).
  - destruct (resetVote_flags (vote p l u) u) as (_ & _ & ->).
    by destruct (vote_flags p l u) as (_ & _ & ->).
Qed.

Lemma resetVote_undoes_vote_witness :
  options (resetVote (vote sample_poll "Tacos" "U3") "U3")
  = options sample_poll
  ∧ result_section (message (resetVote (vote sample_poll "Tacos" "U3") "U3"))
    = generateResults false sample_poll.
Proof.
  apply resetVote_undoes_vote; [done|done|by_evaluation|].
  intros _. by_evaluation.
Defined.
End Undo.

(** ** One vote per user *)

Section OneVote.
Implicit Types (p : Poll) (b : Button) (l u v w : string) (m : bool)
         (g opts : list Button) (es : list string).

Lemma remove_first_subset u v es : v ∈ remove_first u es → v ∈ es.
Proof.
  induction es as [|e es IH]; [done|]. simpl.
  destruct (String.eqb_spec e u); [by right|].
  intros [->|Hin]%elem_of_cons; [left|right; auto].
Qed.

Lemma voters_remove_subset w b u :
  u ∈ voters (remove_vote w b) → u ∈ voters b.
Proof.
  destruct (remove_first w (entries b)) as [|e es'] eqn:Hrem.
  - rewrite remove_vote_empty by done. by intros ?%elem_of_nil.
  - unfold voters at 1. rewrite entries_remove_vote by (by rewrite Hrem).
    rewrite Hrem. cbn [drop]. intros Hin. unfold voters.
    destruct (entries b) as [|e0 es]; [done|]. cbn [drop].
    simpl in Hrem. destruct (String.eqb_spec e0 w).
    + subst es. by right.
    + injection Hrem as <- <-. by eapply remove_first_subset.
Qed.

Lemma voters_vote_subset m l w b u :
  comma_free w → u ≠ w → u ∈ voters (vote_button m l w b) → u ∈ voters b.
Proof.
  intros Hw Hne.
  destruct (decide (w ∈ entries b)) as [Hin|Hin],
    (decide (b_text b = l)) as [Hl|Hl], m;
    try (by rewrite vote_button_keep by auto).
  - rewrite vote_button_move by done. apply voters_remove_subset.
  - rewrite (vote_button_add _ l w b), voters_after_add by done.
    rewrite split_char_free_id by done.
    intros [H|H%list_elem_of_singleton]%elem_of_app; done.
  - rewrite (vote_button_add _ l w b), voters_after_add by done.
    rewrite split_char_free_id by done.
    intros [H|H%list_elem_of_singleton]%elem_of_app; done.
Qed.

Lemma one_vote_subset u opts opts' :
  Forall2 (fun b b' => u ∈ voters b' → u ∈ voters b) opts opts' →
  one_vote u opts → one_vote u opts'.
Proof.
  intros H2 Hone i j bi' bj' Hi Hj Hui Huj.
  destruct (Forall2_lookup_r _ _ _ _ _ H2 Hi) as (bi & Hbi & Hsub_i).
  destruct (Forall2_lookup_r _ _ _ _ _ H2 Hj) as (bj & Hbj & Hsub_j).
  eapply Hone; eauto.
Qed.

Lemma one_vote_vote p l w u :
  isLocked p = false → multiple p = false → comma_free w →
  NoDup (b_text <$> options p) →
  Forall (fun b => (occurrences w (entries b) ≤ 1)%nat) (options p) →
  one_vote u (options p) → one_vote u (options (vote p l w)).
Proof.
  intros Hl Hm Hw Hdup Honce Hone.
  destruct (decide (u = w)) as [->|Hne].
  - rewrite vote_options, Hm by done.
    intros i j bi' bj' Hi Hj Hui Huj.
    apply list_lookup_fmap_Some in Hi as (bi & -> & Hi).
    apply list_lookup_fmap_Some in Hj as (bj & -> & Hj).
    rewrite Forall_forall in Honce.
    assert (b_text bi = l) as Hli.
    { destruct (decide (b_text bi = l)) as [|Hn]; [done|].
      destruct (vote_button_clears l w bi); [done| |done..].
      eapply Honce, list_elem_of_lookup_2, Hi. }
    assert (b_text bj = l) as Hlj.
    { destruct (decide (b_text bj = l)) as [|Hn]; [done|].
      destruct (vote_button_clears l w bj); [done| |done..].
      eapply Honce, list_elem_of_lookup_2, Hj. }
    eapply NoDup_lookup; [exact Hdup|..].
    + by rewrite list_lookup_fmap, Hi.
    + rewrite list_lookup_fmap, Hj. simpl. congruence.
  - eapply one_vote_subset; [|exact Hone].
    apply vote_pointwise; [done|]. intros b _. by apply voters_vote_subset.
Qed.

Lemma one_vote_resetVote p w u :
  one_vote u (options p) → one_vote u (options (resetVote p w)).
Proof.
  apply one_vote_subset. apply resetVote_pointwise; [done|].
  intros b _ _. apply voters_remove_subset.
Qed.

Lemma reachable_one_vote p u :
  reachable p → multiple p = false → NoDup (b_text <$> options p) →
  one_vote u (options p).
Proof.
  intros Hp. revert u.
  induction Hp as [author parameters p Hcreate|p p' Hp IH Hnew|p l w Hp IH Hw
                   |p w Hp IH|p Hp IH|p Hp IH]; intros u Hm Hdup.
  - destruct parameters as [|line0 rest]; [done|].
    destruct (slashCreate_shaped author line0 rest)
      as (p' & groups & Hp' & Hs & _ & _ & _ & Hcat).
    rewrite Hcreate in Hp'. injection Hp' as <-.
    rewrite (shaped_options _ _ _ _ Hs), Hcat.
    intros i j bi bj (line & -> & _)%list_lookup_fmap_Some _ Hin.
    by apply elem_of_nil in Hin.
  - destruct (reachable_shaped p Hp) as (title & author & groups & Hs).
    pose proof (shaped_decodes _ _ _ _ Hs) as Hd. unfold getBlocks in Hnew.
    rewrite Hd in Hnew. assert (p' = p) as -> by congruence. by apply IH.
  - destruct (vote_flags p l w) as (Hvm & _ & _). rewrite Hvm in Hm.
    rewrite labels_vote in Hdup.
    destruct (isLocked p) eqn:Hl; [rewrite vote_locked by done; by apply IH|].
    apply one_vote_vote; try done; [by apply reachable_votes_once|by apply IH].
  - destruct (resetVote_flags p w) as (Hvm & _ & _). rewrite Hvm in Hm.
    rewrite labels_resetVote in Hdup.
    apply one_vote_resetVote. by apply IH.
  - destruct (reachable_shaped p Hp) as (title & author & groups & Hs).
    destruct (lockPoll_options _ _ _ _ Hs) as [Heq _]. rewrite Heq in *.
    by apply IH.
  - destruct (reachable_shaped p Hp) as (title & author & groups & Hs).
    destruct (lockPoll_options _ _ _ _ Hs) as [_ Heq]. rewrite Heq in *.
    by apply IH.
Qed.
End OneVote.

(** X15. One vote per user.  In every single-choice poll that the
    handlers can produce and whose options carry pairwise distinct
    labels, no user is among the voters of two options. *)
Theorem single_choice_one_vote p u i j bi bj :
  reachable p → multiple p = false → NoDup (b_text <$> options p) →
  options p !! i = Some bi → options p !! j = Some bj →
  u ∈ voters bi → u ∈ voters bj → i = j.
Proof. intros Hp Hm Hdup. by apply reachable_one_vote. Qed.

Lemma single_choice_one_vote_witness :
  let p0 := mkPoll (poll_blocks "Lunch?"
                      [[mkButton "Pizza" " "; mkButton "Tacos" " "]] [])
                   false false false in
  let p := vote (vote p0 "Pizza" "U2") "Tacos" "U2" in
  options p = [mkButton "Pizza" " "; mkButton "Tacos" " ,U2"]
  ∧ ∀ j bj, options p !! j = Some bj → "U2" ∈ voters bj → 1%nat = j.
Proof.
  intros p0 p. split; [vm_compute; reflexivity|]. intros j bj Hj Hbj.
  refine (single_choice_one_vote p "U2" 1 j (mkButton "Tacos" " ,U2") bj
            _ _ _ _ Hj _ Hbj).
  - apply reach_vote; [|vm_compute; reflexivity].
    apply reach_vote; [|vm_compute; reflexivity].
    apply (reach_create "<@U1>" ["Lunch?"; "Pizza"; "Tacos"]).
    vm_compute; reflexivity.
  - vm_compute; reflexivity.
  - by_evaluation.
  - vm_compute; reflexivity.
  - by_evaluation.
Defined.

(** ** Unlocking, confidential results and the scan *)

(** X19. [unlockpoll] takes exactly one block away behind the divider of
    a poll in good shape: the lock line when the poll is locked, but the
    first result line when it is not.  The poll is unlocked afterwards. *)
Theorem unlockpoll_drops_first_line title author groups p :
  shaped title author groups p →
  result_section (message (unlockpoll p))
  = drop 1 (result_section (message p))
  ∧ isLocked (unlockpoll p) = false.
Proof.
  intros Hs. split; [|done].
  rewrite (unlockpoll_blocks _ _ _ _ Hs), !app_comm_cons.
  apply result_section_behind.
  destruct Hs as (lines & -> & _). unfold layout. rewrite !app_comm_cons.
  rewrite result_section_behind by apply sections_no_divider.
  apply Forall_drop, sections_no_divider.
Qed.

Lemma unlockpoll_drops_first_line_witness :
  result_section (message sample_poll)
  = [SectionBlock (Some "*1* Pizza » <@U2>")]
  ∧ result_section (message (unlockpoll sample_poll)) = []
  ∧ isLocked (unlockpoll sample_poll) = false.
Proof.
  split; [done|].
  change [] with (drop 1 (result_section (message sample_poll))).
  apply (unlockpoll_drops_first_line
           "Lunch?" "Asked by: <@U1>"
           [[mkButton "Pizza" " ,U2"; mkButton "Tacos" " "]]).
  exists ["*1* Pizza » <@U2>"]. repeat split. by repeat constructor.
Defined.

Section Collect.
Implicit Types (p : Poll) (k title : string).

Lemma omap_Forall2 {A B} (R : B → B → Prop) (f g : A → option B)
      (l : list A) :
  (∀ x, match f x, g x with
        | Some y, Some z => R y z
        | None, None => True
        | _, _ => False
        end) →
  Forall2 R (omap f l) (omap g l).
Proof.
  intros H. induction l as [|x l IH]; [constructor|]. csimpl.
  specialize (H x). destruct (f x), (g x); try done. by constructor.
Qed.

Lemma buildVoteTally_revealed anon votes k :
  match buildVoteTally anon false votes k, buildVoteTally anon true votes k with
  | Some pub, Some conf => revealed pub conf
  | None, None => True
  | _, _ => False
  end.
Proof.
  unfold buildVoteTally. destruct (JS.obj_get k votes) as [value|]; [|done].
  destruct (_ =? _)%nat; [done|]. destruct anon; simpl.
  - right. by eexists _, _, _.
  - by left.
Qed.

(** X23. The confidential results.  [collectResults] fails only when the
    message has no title.  Otherwise it gives the title line followed by
    one line for each line of the public result section, in the same
    order: the same line, or, where the public line hides the names, the
    line with the same count and label and the names in place of the
    redaction token.  For a poll that is not anonymous the lines are the
    public ones. *)
Theorem collectResults_lines p :
  (collectResults p = None ↔ getTitleFromMsg (message p) = None)
  ∧ ∀ title, getTitleFromMsg (message p) = Some title →
      collectResults p
      = Some (SectionBlock
                (Some (title +:+ " *RESULTS (Confidential: do not distribute)*"))
                :: generateResults true p)
      ∧ Forall2 revealed (generateResults false p) (generateResults true p)
      ∧ (anonymous p = false
         → generateResults true p = generateResults false p).
Proof.
  unfold collectResults. split.
  - by destruct (getTitleFromMsg (message p)).
  - intros title ->. split; [done|]. split.
    + rewrite !generateResults_unfold. apply Forall2_app.
      * apply Forall_Forall2_diag, Forall_true. by left.
      * apply omap_Forall2. intros k. apply buildVoteTally_revealed.
    + intros Han. rewrite !generateResults_unfold. f_equal.
      apply omap_ext_Forall, Forall_true. intros k.
      unfold buildVoteTally. by rewrite Han.
Qed.
End Collect.

Section Scan.
Context {S : Type}.
Variable cb : Button → S → Button * S * bool.

Lemma element_kept_refl e : element_kept e e.
Proof. destruct e; simpl; eauto. Qed.

Lemma block_kept_refl blk : block_kept blk blk.
Proof.
  destruct blk; simpl; try done. eexists. split; [done|].
  apply Forall_Forall2_diag, Forall_true, element_kept_refl.
Qed.

Lemma scanElements_kept els s :
  Forall2 element_kept els (scanElements cb els s).1.
Proof.
  revert s. induction els as [|[b|ph os] els IH]; intros s; [constructor| |].
  - cbn [scanElements]. destruct (cb b s) as [[b' s'] stop].
    destruct stop.
    + constructor; [by eexists|].
      apply Forall_Forall2_diag, Forall_true, element_kept_refl.
    + specialize (IH s'). destruct (scanElements cb els s') as [els' s''].
      constructor; [by eexists|done].
  - cbn [scanElements]. specialize (IH s).
    destruct (scanElements cb els s) as [els' s']. by constructor.
Qed.

Lemma scanBlocks_kept blocks s :
  Forall2 block_kept blocks (scanBlocks cb blocks s).1.
Proof.
  revert s. induction blocks as [|blk blocks IH]; intros s; [constructor|].
  cbn [scanBlocks].
  assert (block_kept blk (scanBlock cb blk s).1) as Hblk.
  { destruct blk; try done. simpl.
    pose proof (scanElements_kept elements s) as H.
    destruct (scanElements cb elements s) as [els' s']. by eexists. }
  destruct (scanBlock cb blk s) as [blk' s']. specialize (IH s').
  destruct (scanBlocks cb blocks s') as [rest' s'']. by constructor.
Qed.

Lemma scanned_part (stop : nat) (msg : list KnownBlock) :
  msg = take 2 msg ++ drop 2 (take stop msg) ++ drop (stop `max` 2) msg.
Proof.
  destruct (decide (2 ≤ stop)%nat) as [Hle|Hlt].
  - rewrite Nat.max_l by done.
    rewrite <- (take_drop stop msg) at 1.
    rewrite <- (take_drop 2 (take stop msg)) at 1.
    rewrite take_take, Nat.min_l by done. by rewrite <- app_assoc.
  - rewrite Nat.max_r by lia.
    rewrite (drop_ge (take stop msg)) by (rewrite length_take; lia).
    cbn [app]. by rewrite take_drop.
Qed.

(** X2. Whatever the callback does, [processButtons] keeps the number
    and the kinds of the blocks: every block that is not an actions
    block stays as it is, wherever it stands, and in an actions block
    only buttons are touched, each staying a button in its place.  None
    of this depends on the blocks being distinct objects: the scan never
    writes to a block that is not an actions block, and it writes to an
    actions block through its buttons only. *)
Theorem processButtons_keeps_other_blocks loopEnd msg s :
  loopEnd ≤ Z.of_nat (length msg) →
  let out := (processButtons cb loopEnd msg s).1 in
  Forall2 block_kept msg out
  ∧ length out = length msg
  ∧ ∀ i blk, msg !! i = Some blk → (∀ els, blk ≠ ActionsBlock els) →
             out !! i = Some blk.
Proof.
  intros _ out.
  assert (Forall2 block_kept msg out) as Hkept.
  { unfold out, processButtons.
    pose proof (scanBlocks_kept (drop 2 (take (Z.to_nat loopEnd) msg)) s) as H.
    destruct (scanBlocks cb (drop 2 (take (Z.to_nat loopEnd) msg)) s)
      as [scanned s'].
    cbn [fst] in *.
    rewrite (scanned_part (Z.to_nat loopEnd) msg) at 1.
    apply Forall2_app;
      [apply Forall_Forall2_diag, Forall_true, block_kept_refl|].
    apply Forall2_app; [done|].
    apply Forall_Forall2_diag, Forall_true, block_kept_refl. }
  split; [done|]. split; [symmetry; by eapply Forall2_length|].
  intros i blk Hi Hblk.
  destruct (Forall2_lookup_l _ _ _ _ _ Hkept Hi) as (blk' & Hi' & Hk).
  rewrite Hi'. f_equal. destruct blk; try done. by destruct (Hblk elements).
Qed.
End Scan.

Lemma processButtons_keeps_other_blocks_witness :
  let msg := message sample_poll in
  let out := (processButtons (vote_callback false "Tacos" "U3") 5 msg tt).1 in
  Forall2 block_kept msg out
  ∧ length out = length msg
  ∧ ∀ i blk, msg !! i = Some blk → (∀ els, blk ≠ ActionsBlock els) →
             out !! i = Some blk.
Proof.
  intros msg.
  apply (processButtons_keeps_other_blocks (vote_callback false "Tacos" "U3")).
  vm_compute. by intros [=].
Defined.

(** X13. A vote does not toggle.  In an unlocked poll with multiple
    answers a second click on the same option by the same user, whose
    identifier has no comma, leaves the poll as the first click made
    it. *)
Theorem multiple_vote_twice p l u :
  multiple p = true → isLocked p = false → comma_free u →
  vote (vote p l u) l u = vote p l u.
Proof. intros Hm Hl Hu. apply vote_twice; [done..|]. congruence. Qed.

Lemma multiple_vote_twice_witness :
  let p := mkPoll (lunch_blocks " ,U2" " ,U3"
                     ["*1* Pizza » <@U2>"; "*1* Tacos » <@U3>"])
                  true false false in
  vote (vote p "Tacos" "U2") "Tacos" "U2" = vote p "Tacos" "U2".
Proof. intros p. by apply multiple_vote_twice. Defined.

(** ** Labels *)

Lemma replace_absent c pat rep s :
  has_char c s = false → JS.replace (String c pat) rep s = s.
Proof.
  induction s as [|a s IH]; [done|]. simpl. intros Hs.
  apply orb_false_iff in Hs as [Ha Hs].
  rewrite Ascii.eqb_sym, Ha. simpl. by rewrite IH.
Qed.

(** X25. The label cleaning of [slashCreate] leaves a line without an
    ampersand as it is. *)
Theorem cleanLabel_plain s :
  has_char "&" s = false → PollHelpers.cleanLabel s = s.
Proof.
  intros Hs. unfold PollHelpers.cleanLabel.
  by rewrite !(replace_absent _ _ _ s) by done.
Qed.

Lemma cleanLabel_plain_witness :
  PollHelpers.cleanLabel "Pizza > Tacos" = "Pizza > Tacos".
Proof. apply cleanLabel_plain. vm_compute; reflexivity. Defined.

(** ** The modal *)

Section Modal.
Import PollModal.

Lemma of_nat_inj n n' : JS.of_nat n = JS.of_nat n' → n = n'.
Proof.
  unfold JS.of_nat. intros H.
  assert (∀ k, Nat.to_uint k ≠ Decimal.Nil) as Hnil.
  { intros k Hk. pose proof (DecimalNat.Unsigned.of_to k) as Hof.
    rewrite Hk in Hof. simpl in Hof. by subst k. }
  apply (f_equal NilZero.uint_of_string) in H.
  rewrite !NilZero.usu in H by apply Hnil.
  injection H as H. by apply DecimalNat.Unsigned.to_uint_inj.
Qed.

Lemma option_id_inj i j :
  action_id (option_block i) = action_id (option_block j) → i = j.
Proof. simpl. intros [= H]. by apply of_nat_inj. Qed.

Lemma addOption_iter (n : nat) (m : t) :
  options m = option_block <$> seq 0 (length (options m)) →
  options (Nat.iter n addOption m)
  = option_block <$> seq 0 (length (options m) + n)
  ∧ num_options (Nat.iter n addOption m) = num_options m
  ∧ channel_id (Nat.iter n addOption m) = channel_id m.
Proof.
  intros Hm. induction n as [|n (IH & Hnum & Hch)].
  - by rewrite Nat.add_0_r.
  - rewrite Nat.iter_succ. set (m' := Nat.iter n addOption m) in *.
    unfold addOption. cbn [options num_options channel_id].
    split; [|done]. rewrite IH, length_fmap, length_seq.
    replace (length (options m) + S n)%nat
      with (S (length (options m) + n)) by lia.
    by rewrite seq_S, fmap_app.
Qed.

Lemma option_view_ids (l : list nat) :
  (MInput <$> (option_block <$> l)) ≫= block_ids
  = (fun i => action_id (option_block i)) <$> l.
Proof.
  induction l as [|i l IH]; [done|].
  by rewrite !fmap_cons, bind_cons, IH.
Qed.

(** X24. The modal starts with two options and [addOption] adds one at
    the end: after [n] calls the options are "Option 1" to "Option n+2"
    with the action identifiers [option_0] to [option_(n+1)].  The
    action identifiers of the view, the one of the title, those of the
    options and those of the two controls, are pairwise distinct.  The
    field [num_options] stays 2. *)
Theorem addOption_options (channel : string) (n : nat) :
  let m := Nat.iter n addOption (new channel) in
  options m = option_block <$> seq 0 (n + 2)
  ∧ NoDup (constructModalView m ≫= block_ids)
  ∧ length (constructModalView m) = (n + 4)%nat
  ∧ num_options m = 2%nat ∧ getChannelId m = channel.
Proof.
  intros m.
  destruct (addOption_iter n (new channel)) as (Hopts & Hnum & Hch); [done|].
  fold m in Hopts, Hnum, Hch.
  replace (length (options (new channel)) + n)%nat with (n + 2)%nat
    in Hopts by (simpl; lia).
  split; [done|]. split; [|split; [|done]].
  - unfold constructModalView. rewrite Hopts, !bind_app.
    rewrite option_view_ids.
    assert (∀ x, x ∈ (fun i => action_id (option_block i)) <$> seq 0 (n + 2)
                 → ∃ r, x = String "o" r) as Hshape.
    { intros x (i & -> & _)%list_elem_of_fmap. by eexists. }
    assert (∀ x, x ∈ ["add_option"; "modal_checkboxes"]
                 → x = "add_option" ∨ x = "modal_checkboxes") as Hctl.
    { intros x [->|[->|[]%elem_of_nil]%elem_of_cons]%elem_of_cons; auto. }
    apply NoDup_app. split; [apply NoDup_singleton|]. split.
    + intros x ->%list_elem_of_singleton [Hin|Hin]%elem_of_app.
      * by destruct (Hshape _ Hin).
      * by destruct (Hctl _ Hin).
    + apply NoDup_app. split; [|split].
      * apply NoDup_fmap_2; [|apply NoDup_seq]. intros i j. apply option_id_inj.
      * intros x Hin Hin'. destruct (Hshape _ Hin) as [r ->].
        by destruct (Hctl _ Hin').
      * by_evaluation.
  - unfold constructModalView. rewrite Hopts.
    rewrite !length_app, !length_fmap, length_seq. simpl. lia.
Qed.
End Modal.
